(** * MusicBot: queue, readiness pipeline, event bus and persistence

    A shallow embedding of the Python sources
    [musicbot/lib/event_emitter.py], [musicbot/downloader.py],
    [musicbot/entry.py], [musicbot/playlist.py] and
    [musicbot/constructs.py], and of the command [remove] of
    [musicbot/bot.py], followed by the properties that were checked
    against it: those of the specification, and further properties of
    the code.

    Conventions.
    - Python objects that are mutated in place and compared by identity
      (entries, futures) live in a store and are referred to by a
      reference (a [nat]); the deque of a playlist holds references.
    - Code that can raise runs in the monad [M S], a state monad whose
      result is [Ok a] or [Raise e]; the state survives a raise, as the
      side effects of a Python statement survive the exception it ends in.
    - The cooperative scheduler is explicit: [ensure_future] appends a
      task to the FIFO of the loop, a task runs up to its first [await] on
      outside work, and the outcome of that work is an input of the model.
    - Numbers (durations, progress) are integers, in seconds. *)

From Stdlib Require Import ZArith Lia.
From stdpp Require Import base option list gmap strings.

Set Warnings "-register-all".
Local Open Scope string_scope.
Local Open Scope list_scope.

(** ** Dynamic data: the dicts of yt-dlp and of the persisted queue *)

(** The values [json.loads] produces and yt-dlp's info dicts are made of.
    A dict is an association list with distinct keys. The last two are
    what the object hook of the serializer puts in the place of a dict: a
    reference to an entry object, and a playlist object with the contents
    of its deque. *)
Inductive Value : Type :=
| VNone
| VBool (b : bool)
| VInt (z : Z)
| VStr (s : string)
| VList (l : list Value)
| VDict (d : list (string * Value))
| VRef (r : nat)
| VPlaylist (entries : list Value).

(** ** Exceptions and the result monad *)

(** The exception classes the modelled code raises or lets through.
    [External n] is an [Exception] raised by code outside the repository
    (yt-dlp, aiohttp, a listener); [BaseExternal n] is a [BaseException]
    that is not an [Exception] ([KeyboardInterrupt], [CancelledError]).
    [DownloadError c] is yt-dlp's, with the class found in its
    [exc_info[0]]. [StaleReference] has no Python counterpart: it is what
    the model answers to a reference outside the store, which no state
    built by the modelled code contains. *)
Inductive DownloadCause : Type :=
| UnsupportedError
| URLError
| OtherCause.

Inductive Exn : Type :=
| ValueError
| TypeError
| KeyError (key : string)
| AttributeError
| NotImplementedError
| InvalidStateError
| InvalidDataError (message : string)
| ExtractionError (message : string)
| ExtractionErrorFrom (message : string) (cause : Exn)
| WrongEntryTypeError (message : string) (is_playlist : bool)
                      (use_url : Value)
| DownloadError (exc_info0 : DownloadCause)
| OverflowError
| StaleReference
| External (n : nat)
| BaseExternal (n : nat).

(** [isinstance(e, Exception)]: what [except Exception] catches. *)
Definition is_exception (e : Exn) : bool :=
  match e with
  | BaseExternal _ => false
  | _ => true
  end.

Inductive Res (A : Type) : Type :=
| Ok (a : A)
| Raise (e : Exn).
Arguments Ok {A} a.
Arguments Raise {A} e.

Definition M (S A : Type) : Type := S -> S * Res A.

Definition ret {S A} (a : A) : M S A := fun s => (s, Ok a).

Definition bind {S A B} (c : M S A) (k : A -> M S B) : M S B :=
  fun s =>
    match c s with
    | (s', Ok a) => k a s'
    | (s', Raise e) => (s', Raise e)
    end.

Definition raise {S A} (e : Exn) : M S A := fun s => (s, Raise e).

Definition get {S} : M S S := fun s => (s, Ok s).

Definition modify {S} (f : S -> S) : M S unit := fun s => (f s, Ok tt).

(** [try: c  except: h] (a bare [except], which catches everything). *)
Definition try_except {S A} (c : M S A) (h : Exn -> M S A) : M S A :=
  fun s =>
    match c s with
    | (s', Ok a) => (s', Ok a)
    | (s', Raise e) => h e s'
    end.

(** [try: c  except Exception as e: h e]. *)
Definition try_except_Exception {S A} (c : M S A) (h : Exn -> M S A)
  : M S A :=
  fun s =>
    match c s with
    | (s', Ok a) => (s', Ok a)
    | (s', Raise e) => if is_exception e then h e s' else (s', Raise e)
    end.

(** [try: c  finally: f]. *)
Definition try_finally {S A} (c : M S A) (f : M S unit) : M S A :=
  fun s =>
    match c s with
    | (s', r) =>
        match f s' with
        | (s'', Ok _) => (s'', r)
        | (s'', Raise e) => (s'', Raise e)
        end
    end.

Declare Scope py_scope.
Delimit Scope py_scope with py.
Notation "x <- c ;; k" := (bind c (fun x => k))
  (at level 100, c at next level, k at level 200, right associativity)
  : py_scope.
Notation "c ;; k" := (bind c (fun _ => k))
  (at level 100, k at level 200, right associativity) : py_scope.
Local Open Scope py_scope.

(** [for x in xs: body x]. *)
Fixpoint for_each {S A} (xs : list A) (body : A -> M S unit) : M S unit :=
  match xs with
  | [] => ret tt
  | x :: xs' => body x ;; for_each xs' body
  end.

(** [[f x for x in xs]], the elements taken from left to right. *)
Definition map_in_order {S A B} (f : A -> M S B) : list A -> M S (list B) :=
  fix go (xs : list A) : M S (list B) :=
    match xs with
    | [] => ret []
    | x :: xs' =>
        y <- f x ;;
        ys <- go xs' ;;
        ret (y :: ys)
    end.

(** ** Event bus: [musicbot/lib/event_emitter.py] *)

Module EventEmitter.

(** A function object handed in by a caller, known by its identity.
    What its body does is outside the repository: it is described by a
    [FnSpec], and it does not call back into the emitter. *)
Abbreviation FnId := nat (only parsing).

Inductive Body : Type :=
| Returns
| Raises (e : Exn).

Record FnSpec : Type := {
  is_coroutine_function : bool;   (* declared with [async def] *)
  body : Body;
}.

(** What [_events] holds: a caller's function, or the closure
    [callback] that [once] builds around [event] and [cb]. The closure
    is never handed out, so nothing ever compares another object with
    it; the captured [cb] is a caller's function. *)
Inductive Callback : Type :=
| Fn (f : FnId)
| OnceCallback (event : string) (cb : FnId).

#[export] Instance Callback_eq_dec : EqDecision Callback.
Proof. solve_decision. Defined.

(** What a publish does to the outside. *)
Inductive Effect : Type :=
| Invoked (c : Callback)      (* [emit] evaluated the call [cb(...)] *)
| Ran (f : FnId)              (* the body of [f] was executed *)
| RanFromOnce (event : string) (f : FnId)
                              (* ... by the closure of [once] *)
| Scheduled (f : FnId)        (* [ensure_future(cb(...))] *)
| NeverAwaited (f : FnId)     (* coroutine object built and dropped *)
| PrintExc (e : Exn).         (* [print_exc()] *)

Record Emitter : Type := {
  _events : gmap string (list Callback);
  effects : list Effect;
}.

Definition init : Emitter := {| _events := ∅; effects := [] |}.

Definition set_events (f : gmap string (list Callback) ->
                           gmap string (list Callback))
  : M Emitter unit :=
  modify (fun em => {| _events := f (_events em); effects := effects em |}).

Definition tell (x : Effect) : M Emitter unit :=
  modify (fun em => {| _events := _events em;
                       effects := effects em ++ [x] |}).

(** [self._events[event]] on the [defaultdict(list)]: a missing key is
    inserted with an empty list before it is returned. *)
Definition events_getitem (event : string) : M Emitter (list Callback) :=
  em <- get ;;
  match _events em !! event with
  | Some l => ret l
  | None => set_events (insert event []) ;; ret []
  end.

(** [l.remove(x)]: drops the first element equal to [x]; [None] stands
    for the [ValueError] of a list without [x]. *)
Fixpoint list_remove (x : Callback) (l : list Callback)
  : option (list Callback) :=
  match l with
  | [] => None
  | y :: l' =>
      if decide (y = x) then Some l'
      else match list_remove x l' with
           | Some r => Some (y :: r)
           | None => None
           end
  end.

Definition on (event : string) (cb : Callback) : M Emitter unit :=
  l <- events_getitem event ;;
  set_events (insert event (l ++ [cb])).

Definition off (event : string) (cb : Callback) : M Emitter unit :=
  l <- events_getitem event ;;
  match list_remove cb l with
  | None => raise ValueError
  | Some l' =>
      set_events (insert event l') ;;
      match l' with
      | [] => set_events (delete event)
      | _ => ret tt
      end
  end.

(** [once] registers the closure; the closure is [OnceCallback]. *)
Definition once (event : string) (cb : FnId) : M Emitter unit :=
  on event (OnceCallback event cb).

Section Listeners.
Variable spec_of : FnId -> FnSpec.

(** Running the body of a caller's synchronous function. *)
Definition run_body (f : FnId) (how : Effect) : M Emitter unit :=
  tell how ;;
  match body (spec_of f) with
  | Returns => ret tt
  | Raises e => raise e
  end.

(** The call [cb(...)] of a plain (non-coroutine)
    callable. For the closure of [once]:
    [self.off(event, cb); return cb(...)], where calling
    an [async def] function only builds a coroutine object. *)
Definition call (c : Callback) : M Emitter unit :=
  match c with
  | Fn f => run_body f (Ran f)
  | OnceCallback event cb =>
      off event (Fn cb) ;;
      if is_coroutine_function (spec_of cb)
      then tell (NeverAwaited cb)
      else run_body cb (RanFromOnce event cb)
  end.

Definition iscoroutinefunction (c : Callback) : bool :=
  match c with
  | Fn f => is_coroutine_function (spec_of f)
  | OnceCallback _ _ => false
  end.

(** One turn of the loop of [emit], with its [try] / bare [except]. *)
Definition emit_one (c : Callback) : M Emitter unit :=
  try_except
    (tell (Invoked c) ;;
     if iscoroutinefunction c
     then match c with
          | Fn f => tell (Scheduled f)
          | OnceCallback _ _ => ret tt
          end
     else call c)
    (fun e => tell (PrintExc e)).

Definition emit (event : string) : M Emitter unit :=
  em <- get ;;
  match _events em !! event with
  | None => ret tt
  | Some cbs => for_each cbs emit_one
  end.

(** A sequence of publishes of one event. *)
Fixpoint emit_n (n : nat) (event : string) : M Emitter unit :=
  match n with
  | O => ret tt
  | S n' => emit event ;; emit_n n' event
  end.

End Listeners.

(** How often the body of [f] was run by a closure of [once]. *)
Fixpoint runs_from_once (event : string) (f : FnId) (tr : list Effect)
  : nat :=
  match tr with
  | [] => 0
  | RanFromOnce ev g :: tr' =>
      (if bool_decide (ev = event /\ g = f) then 1 else 0)
      + runs_from_once event f tr'
  | _ :: tr' => runs_from_once event f tr'
  end.

(** The calls [emit] made, in order. *)
Fixpoint invocations (tr : list Effect) : list Callback :=
  match tr with
  | [] => []
  | Invoked c :: tr' => c :: invocations tr'
  | _ :: tr' => invocations tr'
  end.

End EventEmitter.

(** ** Operations on dynamic data *)

(** [bool(v)]. *)
Definition truthy (v : Value) : bool :=
  match v with
  | VNone => false
  | VBool b => b
  | VInt z => negb (z =? 0)%Z
  | VStr s => negb (String.eqb s "")
  | VList l => match l with [] => false | _ => true end
  | VDict d => match d with [] => false | _ => true end
  | VRef _ => true
  | VPlaylist l => match l with [] => false | _ => true end   (* [__len__] *)
  end.

Fixpoint assoc {A} (k : string) (d : list (string * A)) : option A :=
  match d with
  | [] => None
  | (k', v) :: d' => if String.eqb k' k then Some v else assoc k d'
  end.

(** [x or y]. *)
Definition py_or (x y : Value) : Value := if truthy x then x else y.

(** [v is None] and [v == None] agree on these values. *)
Definition is_None (v : Value) : bool :=
  match v with VNone => true | _ => false end.

(** [v == s] for a string literal [s]. *)
Definition eq_str (v : Value) (s : string) : bool :=
  match v with VStr s' => String.eqb s' s | _ => false end.

(** The characters of a string, as one-character strings. *)
Fixpoint chars (s : string) : list Value :=
  match s with
  | EmptyString => []
  | String c s' => VStr (String c EmptyString) :: chars s'
  end.

Section ValueOps.
Context {S : Type}.

(** The elements a [for] loop or [list(...)] draws from a value. *)
Definition iterate (v : Value) : M S (list Value) :=
  match v with
  | VList l => ret l
  | VDict d => ret (map (fun kv => VStr (fst kv)) d)
  | VStr s => ret (chars s)
  | VPlaylist l => ret l
  | _ => raise TypeError
  end.

(** [v[k]] for a string key. *)
Definition getitem (v : Value) (k : string) : M S Value :=
  match v with
  | VDict d =>
      match assoc k d with
      | Some x => ret x
      | None => raise (KeyError k)
      end
  | _ => raise TypeError      (* not subscriptable, or bad index type *)
  end.

(** [v.get(k, default)]. *)
Definition dict_get (v : Value) (k : string) (default : Value)
  : M S Value :=
  match v with
  | VDict d => ret (match assoc k d with Some x => x | None => default end)
  | _ => raise AttributeError
  end.

(** [k in v] for a string key. *)
Definition contains (v : Value) (k : string) : M S bool :=
  match v with
  | VDict d => ret (match assoc k d with Some _ => true | None => false end)
  | VList l => ret (existsb (fun x => eq_str x k) l)
  | VStr s =>
      ret (match String.index 0 k s with Some _ => true | None => false end)
  | _ => raise TypeError      (* argument is not iterable *)
  end.
End ValueOps.

(** ** Extraction dispatcher: [musicbot/downloader.py] *)

Module Downloader.

(** The two [YoutubeDL] objects: [unsafe_ytdl] raises on errors,
    [safe_ytdl] has [ignoreerrors] on. *)
Inductive Ytdl : Type := unsafe_ytdl | safe_ytdl.

(** The arguments passed through to [YoutubeDL.extract_info]. *)
Record Args : Type := {
  arg_url : Value;
  download : bool;
  process : bool;
}.

(** What can be passed as [on_error]. *)
Inductive Hook : Type :=
| NoHook                           (* [None], the default *)
| Function (h : nat)               (* a plain callable *)
| CoroutineFunction (h : nat)      (* an [async def] function *)
| Coroutine (h : nat)              (* a coroutine object: not callable *)
| NotCallable.                     (* any other object *)

Definition callable (h : Hook) : bool :=
  match h with
  | Function _ | CoroutineFunction _ => true
  | _ => false
  end.

Definition iscoroutinefunction (h : Hook) : bool :=
  match h with CoroutineFunction _ => true | _ => false end.

Definition iscoroutine (h : Hook) : bool :=
  match h with Coroutine _ => true | _ => false end.

(** What [extract_info] asks of the loop and of the thread pool. *)
Inductive Request : Type :=
| RunInExecutor (y : Ytdl) (a : Args)
| EnsureFutureCall (h : Hook) (e : Exn)   (* [ensure_future(on_error(e))] *)
| EnsureFuture (h : Hook)                 (* [ensure_future(on_error)] *)
| CallSoonThreadsafe (h : Hook) (e : Exn).

Definition Loop := list Request.

Definition ask (r : Request) : M Loop unit := modify (fun l => l ++ [r]).

Section Ytdl.
(** yt-dlp itself: what [y.extract_info(...)] returns (an info dict or
    [None]) or raises. *)
Variable ytdl_extract_info : Ytdl -> Args -> Res Value.

(** [await loop.run_in_executor(self.thread_pool, partial(...))]. *)
Definition run_in_executor (y : Ytdl) (a : Args) : M Loop Value :=
  ask (RunInExecutor y a) ;;
  fun l => (l, ytdl_extract_info y a).

Definition safe_extract_info (a : Args) : M Loop Value :=
  run_in_executor safe_ytdl a.

Definition extract_info (a : Args) (on_error : Hook)
           (retry_on_error : bool) : M Loop Value :=
  if callable on_error then
    try_except_Exception
      (run_in_executor unsafe_ytdl a)
      (fun e =>
         (if iscoroutinefunction on_error
          then ask (EnsureFutureCall on_error e)
          else if iscoroutine on_error
               then ask (EnsureFuture on_error)
               else ask (CallSoonThreadsafe on_error e)) ;;
         if retry_on_error
         then safe_extract_info a
         else ret VNone)         (* falls off the end of the function *)
  else
    run_in_executor unsafe_ytdl a.
End Ytdl.

End Downloader.

(** ** Entries and their readiness futures: [musicbot/entry.py] *)

Module Entry.

(** References into the stores of the [World] below. *)
Abbreviation EntryRef := nat (only parsing).
Abbreviation FutureRef := nat (only parsing).

Inductive Class : Type := URLPlaylistEntry | StreamPlaylistEntry.

(** The attributes of an entry object. [expected_filename] and
    [aoptions] belong to the URL class, [destination] to the stream
    class; the other class leaves them at [VNone] / ['-vn']. *)
Record Entry : Type := {
  class : Class;
  url : Value;
  title : Value;
  duration : Value;
  expected_filename : Value;
  destination : Value;
  meta : list (string * Z);
  aoptions : string;
  filename : Value;
  _is_downloading : bool;
  _waiting_futures : list FutureRef;
}.

(** An [asyncio.Future] whose result is an entry. *)
Inductive FutureState : Type :=
| Pending
| Result (e : EntryRef)
| Failed (x : Exn)
| Cancelled.

(** A coroutine handed to [ensure_future] and not started yet. *)
Inductive Coroutine : Type :=
| Download (e : EntryRef).              (* [e._download()] *)

(** A coroutine that is waiting for work done outside the loop. *)
Inductive Suspended : Type :=
| URLBody (e : EntryRef)                (* inside the [try] of the URL class *)
| StreamExtract (e : EntryRef) (fallback : bool).
                                        (* [await extract_info(...)] *)

Inductive Event : Type :=
| DownloadBegun (e : EntryRef)          (* URL class: body entered *)
| ExtractInfo (e : EntryRef) (a : Downloader.Args)
                                        (* stream class: extraction asked *)
| PrintExc (x : Exn)
| TaskFailed (e : EntryRef) (x : Exn).  (* exception left in the task *)

(** The objects and the loop. [entries] is the deque of the playlist,
    [emitter] its [EventEmitter] part, [loop] what was asked of the
    downloader. *)
Record World : Type := {
  heap : list Entry;
  futures : list FutureState;
  ready : list Coroutine;
  suspended : list Suspended;
  journal : list Event;
  entries : list EntryRef;
  emitter : EventEmitter.Emitter;
  loop : Downloader.Loop;
}.

Definition empty_world : World :=
  {| heap := []; futures := []; ready := []; suspended := [];
     journal := []; entries := []; emitter := EventEmitter.init;
     loop := [] |}.

Definition with_heap (f : list Entry -> list Entry) (w : World) : World :=
  {| heap := f (heap w); futures := futures w; ready := ready w;
     suspended := suspended w; journal := journal w;
     entries := entries w; emitter := emitter w; loop := loop w |}.

Definition with_futures (f : list FutureState -> list FutureState)
           (w : World) : World :=
  {| heap := heap w; futures := f (futures w); ready := ready w;
     suspended := suspended w; journal := journal w;
     entries := entries w; emitter := emitter w; loop := loop w |}.

Definition with_ready (f : list Coroutine -> list Coroutine) (w : World)
  : World :=
  {| heap := heap w; futures := futures w; ready := f (ready w);
     suspended := suspended w; journal := journal w;
     entries := entries w; emitter := emitter w; loop := loop w |}.

Definition with_suspended (f : list Suspended -> list Suspended)
           (w : World) : World :=
  {| heap := heap w; futures := futures w; ready := ready w;
     suspended := f (suspended w); journal := journal w;
     entries := entries w; emitter := emitter w; loop := loop w |}.

Definition with_journal (f : list Event -> list Event) (w : World)
  : World :=
  {| heap := heap w; futures := futures w; ready := ready w;
     suspended := suspended w; journal := f (journal w);
     entries := entries w; emitter := emitter w; loop := loop w |}.

Definition with_entries (f : list EntryRef -> list EntryRef) (w : World)
  : World :=
  {| heap := heap w; futures := futures w; ready := ready w;
     suspended := suspended w; journal := journal w;
     entries := f (entries w); emitter := emitter w; loop := loop w |}.

(** Attribute assignments. *)
Definition set_filename (v : Value) (e : Entry) : Entry :=
  {| class := class e; url := url e; title := title e;
     duration := duration e; expected_filename := expected_filename e;
     destination := destination e; meta := meta e;
     aoptions := aoptions e; filename := v;
     _is_downloading := _is_downloading e;
     _waiting_futures := _waiting_futures e |}.

Definition set_duration (v : Value) (e : Entry) : Entry :=
  {| class := class e; url := url e; title := title e;
     duration := v; expected_filename := expected_filename e;
     destination := destination e; meta := meta e;
     aoptions := aoptions e; filename := filename e;
     _is_downloading := _is_downloading e;
     _waiting_futures := _waiting_futures e |}.

Definition set_aoptions (s : string) (e : Entry) : Entry :=
  {| class := class e; url := url e; title := title e;
     duration := duration e; expected_filename := expected_filename e;
     destination := destination e; meta := meta e;
     aoptions := s; filename := filename e;
     _is_downloading := _is_downloading e;
     _waiting_futures := _waiting_futures e |}.

Definition set_is_downloading (b : bool) (e : Entry) : Entry :=
  {| class := class e; url := url e; title := title e;
     duration := duration e; expected_filename := expected_filename e;
     destination := destination e; meta := meta e;
     aoptions := aoptions e; filename := filename e;
     _is_downloading := b;
     _waiting_futures := _waiting_futures e |}.

Definition set_waiting_futures (l : list FutureRef) (e : Entry) : Entry :=
  {| class := class e; url := url e; title := title e;
     duration := duration e; expected_filename := expected_filename e;
     destination := destination e; meta := meta e;
     aoptions := aoptions e; filename := filename e;
     _is_downloading := _is_downloading e;
     _waiting_futures := l |}.

(** Reading and updating the object behind a reference. *)
Definition deref (r : EntryRef) : M World Entry :=
  fun w =>
    match heap w !! r with
    | Some e => (w, Ok e)
    | None => (w, Raise StaleReference)
    end.

Definition update (r : EntryRef) (f : Entry -> Entry) : M World unit :=
  e <- deref r ;;
  modify (with_heap (fun h => <[r := f e]> h)).

Definition tell (x : Event) : M World unit :=
  modify (with_journal (fun j => j ++ [x])).

(** The constructors: a new object, with the state
    [BasePlaylistEntry.__init__] gives it. *)
Definition alloc (e : Entry) : M World EntryRef :=
  fun w => (with_heap (fun h => h ++ [e]) w, Ok (length (heap w))).

Definition new_URLPlaylistEntry (url title duration expected_filename
                                   : Value) (meta : list (string * Z))
  : M World EntryRef :=
  alloc {| class := URLPlaylistEntry; url := url; title := title;
           duration := duration; expected_filename := expected_filename;
           destination := VNone; meta := meta; aoptions := "-vn";
           filename := VNone; _is_downloading := false;
           _waiting_futures := [] |}.

Definition new_StreamPlaylistEntry (url title destination : Value)
           (meta : list (string * Z)) : M World EntryRef :=
  alloc {| class := StreamPlaylistEntry; url := url; title := title;
           duration := VNone; expected_filename := VNone;
           destination := destination; meta := meta; aoptions := "-vn";
           filename := (if truthy destination then destination
                        else VNone);
           _is_downloading := false; _waiting_futures := [] |}.

(** The property [is_downloaded]. *)
Definition is_downloaded (e : Entry) : bool :=
  if _is_downloading e then false else truthy (filename e).

(** Futures. *)
Definition new_future : M World FutureRef :=
  fun w => (with_futures (fun fs => fs ++ [Pending]) w,
            Ok (length (futures w))).

Definition resolve (f : FutureRef) (s : FutureState) : M World unit :=
  w <- get ;;
  match futures w !! f with
  | Some Pending => modify (with_futures (fun fs => <[f := s]> fs))
  | Some _ => raise InvalidStateError
  | None => raise StaleReference
  end.

Definition set_result (f : FutureRef) (e : EntryRef) : M World unit :=
  resolve f (Result e).

Definition set_exception (f : FutureRef) (x : Exn) : M World unit :=
  resolve f (Failed x).

Definition cancelled (f : FutureRef) : M World bool :=
  w <- get ;;
  match futures w !! f with
  | Some Cancelled => ret true
  | Some _ => ret false
  | None => raise StaleReference
  end.

Definition ensure_future (c : Coroutine) : M World unit :=
  modify (with_ready (fun q => q ++ [c])).

Definition suspend (c : Suspended) : M World unit :=
  modify (with_suspended (fun q => q ++ [c])).

Definition get_ready_future (r : EntryRef) : M World FutureRef :=
  future <- new_future ;;
  e <- deref r ;;
  (if is_downloaded e
   then set_result future r
   else update r (fun e => set_waiting_futures
                             (_waiting_futures e ++ [future]) e) ;;
        ensure_future (Download r)) ;;
  ret future.

Definition _for_each_future (r : EntryRef)
           (cb : FutureRef -> M World unit) : M World unit :=
  e <- deref r ;;
  let futures := _waiting_futures e in
  update r (set_waiting_futures []) ;;
  for_each futures
    (fun future =>
       c <- cancelled future ;;
       if c then ret tt
       else try_except (cb future) (fun x => tell (PrintExc x))).

(** *** [URLPlaylistEntry._download]

    Between [self._is_downloading = True] and the [finally] the body
    works on the file system, the network and subprocesses. What that
    work comes to is an input: it ends normally, having assigned the
    file name, the probed duration (used only while [self.duration] is
    [None]) and the filter options, or it raises, possibly after some
    of these assignments. *)
Inductive URLOutcome : Type :=
| Finished (fname : string) (probed : Value) (aopts : string)
| Raised (x : Exn) (fname : option string) (probed : option Value).

Definition probe (probed : Value) (e : Entry) : Entry :=
  if is_None (duration e) then set_duration probed e else e.

Definition url_finish (r : EntryRef) (o : URLOutcome) : M World unit :=
  try_finally
    (try_except_Exception
       match o with
       | Finished fname probed aopts =>
           update r (set_filename (VStr fname)) ;;
           update r (probe probed) ;;
           update r (set_aoptions aopts) ;;
           _for_each_future r (fun future => set_result future r)
       | Raised x fname probed =>
           match fname with
           | Some n => update r (set_filename (VStr n))
           | None => ret tt
           end ;;
           match probed with
           | Some d => update r (probe d)
           | None => ret tt
           end ;;
           raise x
       end
       (fun x =>
          tell (PrintExc x) ;;
          _for_each_future r (fun future => set_exception future x)))
    (update r (set_is_downloading false)).

(** The start of the coroutine, up to its first suspension. [now] is
    [Some o] when the body gets to its end without waiting for anything
    (a cached file, a known duration, no equalization). *)
Definition url_download (now : option URLOutcome) (r : EntryRef)
  : M World unit :=
  e <- deref r ;;
  if _is_downloading e then ret tt
  else
    update r (set_is_downloading true) ;;
    tell (DownloadBegun r) ;;
    match now with
    | Some o => url_finish r o
    | None => suspend (URLBody r)
    end.

(** *** [StreamPlaylistEntry._download] *)

Definition stream_download (r : EntryRef) (fallback : bool)
  : M World unit :=
  update r (set_is_downloading true) ;;
  e <- deref r ;;
  let url := if fallback then destination e else url e in
  tell (ExtractInfo r {| Downloader.arg_url := url;
                         Downloader.download := false;
                         Downloader.process := true |}) ;;
  suspend (StreamExtract r fallback).

(** The rest of the coroutine once [extract_info] has answered. The
    call with [fallback=True] is made from inside the [except] clause of
    the first call, whose [finally] runs after it. *)
Definition stream_resume (r : EntryRef) (fallback : bool)
           (answer : Res Value) : M World unit :=
  match answer with
  | Ok result =>
      let inner :=
        try_finally
          (u <- getitem result "url" ;; update r (set_filename u))
          (update r (set_is_downloading false)) in
      if fallback
      then try_finally inner (update r (set_is_downloading false))
      else inner
  | Raise x =>
      if is_exception x then
        e <- deref r ;;
        if negb fallback && truthy (destination e)
        then stream_download r true
        else
          let inner :=
            try_finally (raise (ExtractionErrorFrom "" x))
                        (update r (set_is_downloading false)) in
          if fallback
          then try_finally inner (update r (set_is_downloading false))
          else inner
      else
        let inner :=
          try_finally (raise x) (update r (set_is_downloading false)) in
        if fallback
        then try_finally inner (update r (set_is_downloading false))
        else inner
  end.

(** *** The loop *)

(** Every task that is ready runs once, oldest first, up to its first
    suspension or its end; an exception that leaves a coroutine stays in
    its task. *)
Definition start (now : EntryRef -> option URLOutcome) (c : Coroutine)
  : M World unit :=
  match c with
  | Download r =>
      try_except
        (e <- deref r ;;
         match class e with
         | URLPlaylistEntry => url_download (now r) r
         | StreamPlaylistEntry => stream_download r false
         end)
        (fun x => tell (TaskFailed r x))
  end.

Definition run_ready (now : EntryRef -> option URLOutcome)
  : M World unit :=
  w <- get ;;
  modify (with_ready (fun _ => [])) ;;
  for_each (ready w) (start now).

(** The outside work of the [i]-th suspended coroutine is done. *)
Inductive Answer : Type :=
| URLAnswer (o : URLOutcome)
| ExtractAnswer (a : Res Value).

Definition resume (i : nat) (a : Answer) : M World unit :=
  w <- get ;;
  match suspended w !! i, a with
  | Some (URLBody r), URLAnswer o =>
      modify (with_suspended (delete i)) ;;
      try_except (url_finish r o) (fun x => tell (TaskFailed r x))
  | Some (StreamExtract r fallback), ExtractAnswer ans =>
      modify (with_suspended (delete i)) ;;
      try_except (stream_resume r fallback ans)
                 (fun x => tell (TaskFailed r x))
  | _, _ => ret tt
  end.

(** Downloads of [r] that have begun and not ended. *)
Definition target (c : Suspended) : EntryRef :=
  match c with
  | URLBody e => e
  | StreamExtract e _ => e
  end.

Definition in_flight (r : EntryRef) (w : World) : nat :=
  length (filter (fun c => target c = r) (suspended w)).

(** Download executions of [r] so far. *)
Fixpoint executions (r : EntryRef) (j : list Event) : nat :=
  match j with
  | [] => 0
  | DownloadBegun e :: j' | ExtractInfo e _ :: j' =>
      (if bool_decide (e = r) then 1 else 0) + executions r j'
  | _ :: j' => executions r j'
  end.

End Entry.

(** ** The queue: [musicbot/playlist.py] *)

Module Playlist.
Import Entry.

(** The player, as far as [estimate_time_until] reads it. *)
Record Player : Type := {
  is_stopped : bool;
  current_entry : option EntryRef;
  progress : Z;
}.


(** [sys.maxsize] of a 64-bit CPython. *)
Definition maxsize : Z := 2 ^ 63 - 1.

(** [timedelta(seconds=s)], in seconds; a [timedelta] holds at most
    999999999 days either way. *)
Definition timedelta (s : Z) : Res Z :=
  if ((-999999999 <=? s / 86400) && (s / 86400 <=? 999999999))%Z
  then Ok s else Raise OverflowError.

(** A number, as [+] and [-] see it ([bool] is an [int]). *)
Definition number (v : Value) : option Z :=
  match v with
  | VInt z => Some z
  | VBool b => Some (if b then 1 else 0)%Z
  | _ => None
  end.

(** [sum(vs)]: starts from [0] and adds from the left. *)
Fixpoint py_sum {S} (acc : Z) (vs : list Value) : M S Z :=
  match vs with
  | [] => ret acc
  | v :: vs' =>
      match number v with
      | Some z => py_sum (acc + z)%Z vs'
      | None => raise TypeError
      end
  end.

(** [s.startswith(prefixes)]. *)
Definition startswith {S} (v : Value) (prefixes : list string) : M S bool :=
  match v with
  | VStr s => ret (existsb (fun p => String.prefix p s) prefixes)
  | _ => raise AttributeError
  end.

Definition lift_emitter {A} (c : M EventEmitter.Emitter A) : M World A :=
  fun w =>
    match c (emitter w) with
    | (em, r) =>
        ({| heap := heap w; futures := futures w; ready := ready w;
            suspended := suspended w; journal := journal w;
            entries := entries w; emitter := em; loop := loop w |}, r)
    end.

Definition lift_loop {A} (c : M Downloader.Loop A) : M World A :=
  fun w =>
    match c (loop w) with
    | (l, r) =>
        ({| heap := heap w; futures := futures w; ready := ready w;
            suspended := suspended w; journal := journal w;
            entries := entries w; emitter := emitter w; loop := l |}, r)
    end.

Definition clear : M World unit := modify (with_entries (fun _ => [])).

Definition peek : M World (option EntryRef) :=
  w <- get ;; ret (head (entries w)).

Definition len : M World Z :=
  w <- get ;; ret (Z.of_nat (length (entries w))).

Section Outside.
(** The listeners registered on the playlist; they do not touch the
    queue while [emit] runs them. *)
Variable spec_of : EventEmitter.FnId -> EventEmitter.FnSpec.
(** yt-dlp: [extract_info] and [prepare_filename]. *)
Variable ytdl_extract_info
  : Downloader.Ytdl -> Downloader.Args -> Res Value.
Variable prepare_filename : Value -> Res Value.
(** [utils.get_header(session, url)]: the response headers. *)
Variable get_header : Value -> Res Value.
(** [os.path.exists(os.path.abspath(path))]. *)
Variable path_exists : string -> bool.

Definition extract (song_url : string) : M World Value :=
  lift_loop
    (Downloader.extract_info ytdl_extract_info
       {| Downloader.arg_url := VStr song_url;
          Downloader.download := false;
          Downloader.process := true |}
       Downloader.NoHook false).

Definition safe_extract (playlist_url : string) : M World Value :=
  lift_loop
    (Downloader.safe_extract_info ytdl_extract_info
       {| Downloader.arg_url := VStr playlist_url;
          Downloader.download := false;
          Downloader.process := true |}).

Definition _add_entry (entry : EntryRef) (head : bool) : M World unit :=
  (if head
   then modify (with_entries (fun q => entry :: q))
   else modify (with_entries (fun q => q ++ [entry]))) ;;
  lift_emitter (EventEmitter.emit spec_of "entry-added") ;;
  p <- peek ;;
  if bool_decide (p = Some entry)
  then get_ready_future entry ;; ret tt
  else ret tt.

Definition add_stream_entry (song_url : string) (info : Value)
           (meta : list (string * Z)) : M World (EntryRef * Z) :=
  info <-
    (if is_None info then
       let info := VDict [("title", VStr song_url);
                          ("extractor", VNone)] in
       fun w =>
         match extract song_url w with
         | (w', Ok i) => (w', Ok i)
         | (w', Raise (DownloadError c)) =>
             match c with
             | UnsupportedError => (w', Ok info)
             | URLError =>
                 if path_exists song_url
                 then (w', Raise (ExtractionError
                         "This is not a stream, this is a file path."))
                 else (w', Raise (ExtractionError "Invalid input"))
             | OtherCause =>
                 (w', Raise (ExtractionErrorFrom "Unknown error"
                               (DownloadError c)))
             end
         | (w', Raise e) =>
             if is_exception e then (w', Ok info) else (w', Raise e)
         end
     else ret info) ;;
  live <- dict_get info "is_live" VNone ;;
  extractor <- dict_get info "extractor" VNone ;;
  if is_None live && negb (eq_str extractor "generic")
  then raise (ExtractionError "This is not a stream.")
  else
    dest_url <-
      (if truthy extractor
       then dict_get info "url" VNone
       else ret (VStr song_url)) ;;
    title <-
      (if eq_str extractor "twitch:stream"
       then dict_get info "description" VNone
       else dict_get info "title" (VStr "Untitled")) ;;
    entry <- new_StreamPlaylistEntry (VStr song_url) title dest_url meta ;;
    _add_entry entry false ;;
    n <- len ;;
    ret (entry, n).

(** The check of the content type in [add_entry], for the extractors
    ['generic'] and ['Dropbox']: [Some r] when it ends the call with
    [return r], [None] when the call goes on. *)
Definition check_content_type (song_url : string) (info : Value)
           (extractor : Value) (meta : list (string * Z))
  : M World (option (EntryRef * Z)) :=
  content_type <-
    try_except_Exception
      (u <- getitem info "url" ;;
       headers <- (fun w => (w, get_header u)) ;;
       dict_get headers "CONTENT-TYPE" VNone)
      (fun _ => ret VNone) ;;
  if truthy content_type then
    app_or_image <- startswith content_type ["application/"; "image/"] ;;
    if app_or_image then
      ogg <- contains content_type "/ogg" ;;
      octet <- (if ogg then ret true
                else contains content_type "/octet-stream") ;;
      if negb octet
      then raise (ExtractionError "Invalid content type")
      else ret None
    else
      html <- startswith content_type ["text/html"] ;;
      if html && eq_str extractor "generic" then
        r <- add_stream_entry song_url info meta ;;
        ret (Some r)
      else
        _ <- startswith content_type ["audio/"; "video/"] ;;
        ret None
  else ret None.

(** The end of [add_entry]: the entry is built from [info] and
    queued (lines 182 to 191). *)
Definition add_url_entry (song_url : string) (info : Value)
           (head : bool) (meta : list (string * Z))
  : M World (EntryRef * Z) :=
  title <- dict_get info "title" (VStr "Untitled") ;;
  duration <- dict_get info "duration" VNone ;;
  expected <- (fun w => (w, prepare_filename info)) ;;
  entry <- new_URLPlaylistEntry (VStr song_url) title
             (py_or duration VNone) expected meta ;;
  _add_entry entry head ;;
  n <- len ;;
  ret (entry, if head then 1%Z else n).

Definition add_entry (song_url : string) (head : bool)
           (meta : list (string * Z)) : M World (EntryRef * Z) :=
  info <-
    try_except_Exception (extract song_url)
      (fun e => raise (ExtractionErrorFrom
                         "Could not extract information" e)) ;;
  if negb (truthy info)
  then raise (ExtractionError "Could not extract information")
  else
    type <- dict_get info "_type" VNone ;;
    if eq_str type "playlist" then
      webpage_url <- dict_get info "webpage_url" VNone ;;
      use_url <- (if truthy webpage_url then ret webpage_url
                  else dict_get info "url" VNone) ;;
      raise (WrongEntryTypeError "This is a playlist." true use_url)
    else
      live <- dict_get info "is_live" (VBool false) ;;
      if truthy live then add_stream_entry song_url info meta
      else
        extractor <- getitem info "extractor" ;;
        early <-
          (if eq_str extractor "generic" || eq_str extractor "Dropbox"
           then check_content_type song_url info extractor meta
           else ret None) ;;
        match early with
        | Some r => ret r
        | None => add_url_entry song_url info head meta
        end.

(** One turn of the loop of [import_from]; [acc] is
    [(entry_list, baditems)]. *)
Definition import_item (url_field : string) (head : bool)
           (meta : list (string * Z)) (acc : list EntryRef * nat)
           (item : Value) : M World (list EntryRef * nat) :=
  if truthy item then
    try_except_Exception
      (u <- getitem item url_field ;;
       title <- dict_get item "title" (VStr "Untitled") ;;
       duration <- dict_get item "duration" (VInt 0) ;;
       expected <- (fun w => (w, prepare_filename item)) ;;
       entry <- new_URLPlaylistEntry u title
                  (py_or duration (VInt 0)) expected meta ;;
       _add_entry entry head ;;
       ret (acc.1 ++ [entry], acc.2))
      (fun _ => ret (acc.1, S acc.2))
  else ret (acc.1, S acc.2).

Fixpoint import_items (url_field : string) (head : bool)
         (meta : list (string * Z)) (acc : list EntryRef * nat)
         (items : list Value) : M World (list EntryRef * nat) :=
  match items with
  | [] => ret acc
  | item :: items' =>
      acc' <- import_item url_field head meta acc item ;;
      import_items url_field head meta acc' items'
  end.

Definition import_from (playlist_url : string) (head : bool)
           (meta : list (string * Z)) : M World (list EntryRef * Z) :=
  n <- len ;;
  let position := if head then 1%Z else (n + 1)%Z in
  info <-
    try_except_Exception (safe_extract playlist_url)
      (fun e => raise (ExtractionErrorFrom
                         "Could not extract information" e)) ;;
  if negb (truthy info)
  then raise (ExtractionError "Could not extract information")
  else
    extractor <- dict_get info "extractor" VNone ;;
    let url_field :=
      if eq_str extractor "generic" then "url" else "webpage_url" in
    listed <- getitem info "entries" ;;
    entries <- iterate listed ;;
    (* [entries.reverse()] when [head]: the copy is not read again *)
    let entries := if head then rev entries else entries in
    listed <- getitem info "entries" ;;
    items <- iterate listed ;;
    done <- import_items url_field head meta ([], 0) items ;;
    let entry_list := if head then rev done.1 else done.1 in
    ret (entry_list, position).


(** [islice(self.entries, pos)]. *)
Definition islice (pos : Z) : M World (list EntryRef) :=
  if ((pos <? 0) || (maxsize <? pos))%Z then raise ValueError
  else w <- get ;; ret (take (Z.to_nat pos) (entries w)).

Fixpoint durations (rs : list EntryRef) : M World (list Value) :=
  match rs with
  | [] => ret []
  | r :: rs' =>
      e <- deref r ;;
      ds <- durations rs' ;;
      ret (duration e :: ds)
  end.

Definition estimate_time_until (pos : Z) (player : Player)
  : M World Z :=
  let pos := (pos - 1)%Z in
  before <- islice pos ;;
  ds <- durations before ;;
  if existsb is_None ds
  then raise (InvalidDataError "no duration data")
  else
    estimated_time <- py_sum 0 ds ;;
    estimated_time <-
      match current_entry player with
      | Some cur =>
          if negb (is_stopped player) then
            e <- deref cur ;;
            if is_None (duration e)
            then raise (InvalidDataError
                          "no duration data in current entry")
            else
              match number (duration e) with
              | Some d => ret (estimated_time + (d - progress player))%Z
              | None => raise TypeError
              end
          else ret estimated_time
      | None => ret estimated_time
      end ;;
    fun w => (w, timedelta estimated_time).

End Outside.

End Playlist.

(** ** Persistence: [musicbot/constructs.py] and the [_deserialize]
    class methods *)

Module Serializer.
Import Entry.

(** The classes of the modelled files that derive from [Serializable]. *)
Inductive Factory : Type :=
| Serializable
| BasePlaylistEntry
| EntryClass (c : Class)
| PlaylistClass.

(** What [pydoc.locate] answers: [None], an object that is not a class
    (with its truth value), a class outside [Serializable], or one of
    the classes above. *)
Inductive Located : Type :=
| NotFound
| NotAClass (truth : bool)
| OtherClass
| SerializableClass (f : Factory).

(** What [_get_variable] finds in the frames of the callers. *)
Inductive Handle : Type :=
| TheConfig (save_videos : bool)
| TheDownloader
| Opaque.

Definition _class_signature : list string :=
  ["__class__"; "__module__"; "data"].

(** The dotted names under which the modelled files define their
    classes, as [__module__] and [__qualname__] write them. *)
Definition known_names : list (string * Located) :=
  [ ("musicbot.entry.URLPlaylistEntry",
     SerializableClass (EntryClass URLPlaylistEntry));
    ("musicbot.entry.StreamPlaylistEntry",
     SerializableClass (EntryClass StreamPlaylistEntry));
    ("musicbot.entry.BasePlaylistEntry",
     SerializableClass BasePlaylistEntry);
    ("musicbot.playlist.Playlist", SerializableClass PlaylistClass);
    ("musicbot.constructs.Serializable", SerializableClass Serializable);
    ("musicbot.constructs.Serializer", OtherClass);
    ("musicbot.constructs.SkipState", OtherClass);
    ("musicbot.entry.EntryTypes", OtherClass);
    ("musicbot.downloader.Downloader", OtherClass);
    ("musicbot.lib.event_emitter.EventEmitter", OtherClass) ].

Section Decoding.
(** [utils._get_variable]. *)
Variable _get_variable : string -> option Handle.
(** [pydoc.locate] on every other dotted name. *)
Variable locate_elsewhere : string -> Located.
(** [int(s)] for a string: [None] is its [ValueError]. *)
Variable int_of_str : string -> option Z.

Definition locateObj (path : string) : Located :=
  match assoc path known_names with
  | Some x => x
  | None => locate_elsewhere path
  end.

(** [int(v)]. *)
Definition int (v : Value) : M World Z :=
  match v with
  | VInt z => ret z
  | VBool b => ret (if b then 1 else 0)%Z
  | VStr s =>
      match int_of_str s with
      | Some z => ret z
      | None => raise ValueError
      end
  | _ => raise TypeError
  end.

(** [a + b], for what has to be two strings. *)
Definition add_str (a b : Value) : M World Value :=
  match a, b with
  | VStr x, VStr y => ret (VStr (String.append x y))
  | _, _ => raise TypeError
  end.

(** [assert name is not None, cls._bad(name)]: the message is
    evaluated when the test fails, and [_bad] raises. *)
Definition require (name : string) : M World Handle :=
  match _get_variable name with
  | Some h => ret h
  | None => raise TypeError
  end.

Definition save_videos_of (config : Handle) : M World bool :=
  match config with
  | TheConfig b => ret b
  | _ => raise AttributeError
  end.

Definition download_folder_of (downloader : Handle) : M World unit :=
  match downloader with
  | TheDownloader => ret tt
  | _ => raise AttributeError
  end.

(** The [meta] of both entry classes. *)
Definition read_meta_key (data : Value) (key : string)
  : M World (list (string * Z)) :=
  m <- getitem data "meta" ;;
  present <- contains m key ;;
  if present then
    m <- getitem data "meta" ;;
    v <- getitem m key ;;
    z <- int v ;;
    ret [(key, z)]
  else ret [].

Definition read_meta (data : Value) : M World (list (string * Z)) :=
  channel <- read_meta_key data "channel" ;;
  author <- read_meta_key data "author" ;;
  ret (channel ++ author).

Definition URLPlaylistEntry_deserialize (data : Value) : M World Value :=
  _ <- require "aiosession" ;;
  config <- require "config" ;;
  downloader <- require "downloader" ;;
  _ <- require "loop" ;;
  try_except_Exception
    (url <- getitem data "url" ;;
     title <- getitem data "title" ;;
     duration <- getitem data "duration" ;;
     keep <- save_videos_of config ;;
     downloaded <- (if keep then getitem data "downloaded"
                    else ret (VBool false)) ;;
     filename <- (if truthy downloaded then getitem data "filename"
                  else ret VNone) ;;
     expected_filename <- getitem data "expected_filename" ;;
     meta <- read_meta data ;;
     (* [__init__] reads [downloader.download_folder] *)
     download_folder_of downloader ;;
     entry <- new_URLPlaylistEntry url title duration
                expected_filename meta ;;
     update entry (set_filename filename) ;;
     ret (VRef entry))
    (fun _ => ret VNone).        (* logged; the method returns [None] *)

Definition StreamPlaylistEntry_deserialize (data : Value)
  : M World Value :=
  _ <- require "aiosession" ;;
  _ <- require "config" ;;
  _ <- require "downloader" ;;
  _ <- require "loop" ;;
  try_except_Exception
    (url <- getitem data "url" ;;
     title <- getitem data "title" ;;
     destination <- getitem data "destination" ;;
     filename <- getitem data "filename" ;;
     meta <- read_meta data ;;
     entry <- new_StreamPlaylistEntry url title destination meta ;;
     (if negb (truthy destination) && truthy filename
      then update entry (set_filename destination)
      else ret tt) ;;
     ret (VRef entry))
    (fun _ => ret VNone).

Definition Playlist_deserialize (data : Value) : M World Value :=
  _ <- require "aiosession" ;;
  _ <- require "config" ;;
  _ <- require "downloader" ;;
  _ <- require "loop" ;;
  listed <- getitem data "entries" ;;
  items <- iterate listed ;;
  ret (VPlaylist items).

(** [Serializable._deserialize], which [BasePlaylistEntry] inherits. *)
Definition Serializable_deserialize (data : Value) : M World Value :=
  raise NotImplementedError.

Definition _deserialize (f : Factory) (data : Value) : M World Value :=
  match f with
  | Serializable | BasePlaylistEntry => Serializable_deserialize data
  | EntryClass URLPlaylistEntry => URLPlaylistEntry_deserialize data
  | EntryClass StreamPlaylistEntry =>
      StreamPlaylistEntry_deserialize data
  | PlaylistClass => Playlist_deserialize data
  end.

Fixpoint has_all (data : Value) (keys : list string) : M World bool :=
  match keys with
  | [] => ret true
  | k :: keys' =>
      b <- contains data k ;;
      if b then has_all data keys' else ret false
  end.

(** [Serializer.deserialize], the object hook. *)
Definition deserialize (data : Value) : M World Value :=
  signed <- has_all data _class_signature ;;
  if signed then
    m <- getitem data "__module__" ;;
    m <- add_str m (VStr ".") ;;
    c <- getitem data "__class__" ;;
    path <- add_str m c ;;
    match path with
    | VStr path =>
        match locateObj path with
        | NotFound | NotAClass false => ret data
        | NotAClass true => raise TypeError       (* [issubclass] *)
        | OtherClass => ret data
        | SerializableClass factory =>
            payload <- getitem data "data" ;;
            _deserialize factory payload
        end
    | _ => raise TypeError
    end
  else ret data.

(** [json.loads(text, object_hook=Serializer.deserialize)] on the
    parsed text: every dict is handed to the hook once its members
    are decoded, and what the hook returns takes its place. *)
Fixpoint loads (v : Value) : M World Value :=
  match v with
  | VList l =>
      l' <- map_in_order loads l ;;
      ret (VList l')
  | VDict d =>
      d' <- map_in_order (fun kv => match kv with
                                    | (k, x) => y <- loads x ;; ret (k, y)
                                    end) d ;;
      deserialize (VDict d')
  | _ => ret v
  end.

End Decoding.

(** A per-entry record as [_enclose_json] writes it. *)
Definition record (module class : string) (payload : Value) : Value :=
  VDict [("__class__", VStr class); ("__module__", VStr module);
         ("data", payload)].

(** The record of a queue. *)
Definition queue_record (records : list Value) : Value :=
  record "musicbot.playlist" "Playlist"
         (VDict [("entries", VList records)]).

End Serializer.

(** ** Access by index: [get_entry_at_index], [delete_entry_at_index]
    and [remove_entry] of [musicbot/playlist.py], and the command
    [remove] of [musicbot/bot.py] that is built on them *)

Module Index.
Import Entry Playlist.

(** The exceptions of this part of the code: [IndexError] of the deque,
    the two exceptions of a command, and the exceptions listed above.
    The two places that raise [CommandError] differ in their message. *)
Inductive Reason : Type :=
| NothingToRemove        (* the queue is empty *)
| InvalidNumber.         (* the position is beyond the queue *)

Inductive Error : Type :=
| IndexError
| CommandError (why : Reason)
| PermissionsError
| Builtin (e : Exn).

Inductive Outcome (A : Type) : Type :=
| Return (a : A)
| Fail (e : Error).
Arguments Return {A} a.
Arguments Fail {A} e.

(** A step on the world that returns or raises; as in [M], what was
    done before a raise stays done. *)
Definition Step (A : Type) : Type := World -> World * Outcome A.

Definition unit_ {A} (a : A) : Step A := fun w => (w, Return a).

Definition then_ {A B} (c : Step A) (k : A -> Step B) : Step B :=
  fun w =>
    match c w with
    | (w', Return a) => k a w'
    | (w', Fail e) => (w', Fail e)
    end.

Definition fail {A} (e : Error) : Step A := fun w => (w, Fail e).

Definition lift {A} (c : M World A) : Step A :=
  fun w =>
    match c w with
    | (w', Ok a) => (w', Return a)
    | (w', Raise e) => (w', Fail (Builtin e))
    end.

Declare Scope step_scope.
Delimit Scope step_scope with step.
Notation "x <- c ;; k" := (then_ c (fun x => k))
  (at level 100, c at next level, k at level 200, right associativity)
  : step_scope.
Notation "c ;; k" := (then_ c (fun _ => k))
  (at level 100, k at level 200, right associativity) : step_scope.
Local Open Scope step_scope.

(** *** [collections.deque] *)

(** What fits a [Py_ssize_t]. *)
Definition ssize_t (n : Z) : bool :=
  ((- maxsize - 1 <=? n) && (n <=? maxsize))%Z.

(** The deque [q] rotated [n] steps to the right (to the left for a
    negative [n]); an empty deque stays empty. *)
Definition rotated {A} (n : Z) (q : list A) : list A :=
  match q with
  | [] => []
  | _ =>
      let k := Z.to_nat (n mod Z.of_nat (length q)) in
      drop (length q - k) q ++ take (length q - k) q
  end.

(** [self.entries.rotate(n)]: the argument has to fit a [Py_ssize_t]. *)
Definition rotate (n : Z) : Step unit :=
  if ssize_t n
  then lift (modify (with_entries (rotated n)))
  else fail (Builtin OverflowError).

(** [self.entries[0]]. *)
Definition first : Step EntryRef :=
  fun w =>
    match entries w with
    | [] => (w, Fail IndexError)
    | entry :: _ => (w, Return entry)
    end.

(** [self.entries.popleft()]. *)
Definition popleft : Step EntryRef :=
  fun w =>
    match entries w with
    | [] => (w, Fail IndexError)
    | entry :: rest => (with_entries (fun _ => rest) w, Return entry)
    end.

(** *** The methods of [Playlist] *)

Definition get_entry_at_index (index : Z) : Step EntryRef :=
  rotate (- index) ;;
  entry <- first ;;
  rotate index ;;
  unit_ entry.

Definition delete_entry_at_index (index : Z) : Step EntryRef :=
  rotate (- index) ;;
  entry <- popleft ;;
  rotate index ;;
  unit_ entry.

(** [del self.entries[index]]: a negative index counts from the end,
    and an index outside the deque, or one that does not fit a
    [Py_ssize_t], is an [IndexError]. *)
Definition remove_entry (index : Z) : Step unit :=
  fun w =>
    let n := Z.of_nat (length (entries w)) in
    let i := (if index <? 0 then index + n else index)%Z in
    if ((0 <=? i) && (i <? n))%Z
    then (with_entries (delete (Z.to_nat i)) w, Return tt)
    else (w, Fail IndexError).

(** *** The command [remove]

    From the test for an empty queue to the deletion; what the command
    needs of the interaction is who asks ([inter.user.id]) and whether
    they may manage the channel. The command goes on to send a message
    that names the entry and its author, which are what is returned
    here. *)
Definition remove (index : option Z) (manage_channels : bool)
           (user_id : Z) : Step (EntryRef * option Z) :=
  w <- lift get ;;
  match entries w with
  | [] => fail (CommandError NothingToRemove)
  | _ =>
      let n := Z.of_nat (length (entries w)) in
      let index :=
        match index with
        | None => n
        | Some i => if (i =? 0)%Z then n else i      (* [not index] *)
        end in
      let index := (index - 1)%Z in
      if (index >? n)%Z then fail (CommandError InvalidNumber)
      else
        entry <- get_entry_at_index index ;;
        e <- lift (deref entry) ;;
        let author := assoc "author" (meta e) in
        if negb manage_channels
           && negb match author with
                   | Some a => (a =? user_id)%Z
                   | None => false
                   end
        then fail PermissionsError
        else
          entry <- delete_entry_at_index index ;;
          unit_ (entry, author)
  end.

End Index.

(** ** Votes to skip: [SkipState] of [musicbot/constructs.py] *)

Module SkipState.

(** The two sets of a [SkipState]: the ids of the members who voted, and
    the messages they voted with (a message is known by its id). *)
Record SkipState : Type := {
  skippers : gset Z;
  skip_msgs : gset nat;
}.

Definition init : SkipState := {| skippers := ∅; skip_msgs := ∅ |}.

(** The property [skip_count]. *)
Definition skip_count (s : SkipState) : Z :=
  Z.of_nat (size (skippers s)).

Definition reset (s : SkipState) : SkipState :=
  {| skippers := ∅; skip_msgs := ∅ |}.

(** [add_skipper] returns the new state and the count it returns. *)
Definition add_skipper (skipper : Z) (msg : nat) (s : SkipState)
  : SkipState * Z :=
  let s' := {| skippers := {[skipper]} ∪ skippers s;
               skip_msgs := {[msg]} ∪ skip_msgs s |} in
  (s', skip_count s').

End SkipState.

(** ** Writing the queue: the [__json__] methods of [musicbot/entry.py]
    and [musicbot/playlist.py], and [Serializer.default] and
    [Serializable.serialize] of [musicbot/constructs.py] *)

Module Encoder.
Import Entry Playlist.

(** What the [json] module raises when the objects are nested deeper
    than the interpreter lets it recurse: an exception from outside the
    repository. *)
Definition RecursionError : Exn := External 0.

(** [Serializable._enclose_json], for an object of the class
    [qualname] of the module [module]. *)
Definition _enclose_json (module qualname : string) (data : Value)
  : Value :=
  VDict [("__class__", VStr qualname); ("__module__", VStr module);
         ("data", data)].

(** The dict [meta] of an entry. *)
Definition meta_dict (meta : list (string * Z)) : Value :=
  VDict (map (fun kv => (kv.1, VInt kv.2)) meta).

Section Encoding.
(** [os.path.abspath], on a string. *)
Variable abspath : string -> string.

Definition URLPlaylistEntry_json (e : Entry) : M World Value :=
  full_filename <-
    (if truthy (filename e)
     then match filename e with
          | VStr s => ret (VStr (abspath s))
          | _ => raise TypeError
          end
     else ret (filename e)) ;;
  ret (_enclose_json "musicbot.entry" "URLPlaylistEntry"
         (VDict [("version", VInt 1);
                 ("url", url e);
                 ("title", title e);
                 ("duration", duration e);
                 ("downloaded", VBool (is_downloaded e));
                 ("expected_filename", expected_filename e);
                 ("filename", filename e);
                 ("full_filename", full_filename);
                 ("meta", meta_dict (meta e));
                 ("aoptions", VStr (aoptions e))])).

Definition StreamPlaylistEntry_json (e : Entry) : M World Value :=
  ret (_enclose_json "musicbot.entry" "StreamPlaylistEntry"
         (VDict [("version", VInt 1);
                 ("url", url e);
                 ("filename", filename e);
                 ("title", title e);
                 ("destination", destination e);
                 ("meta", meta_dict (meta e))])).

(** [Playlist.__json__], for a playlist whose deque holds [items]. *)
Definition Playlist_json (items : list Value) : M World Value :=
  ret (_enclose_json "musicbot.playlist" "Playlist"
         (VDict [("entries", VList items)])).

(** [Serializer.default]: the objects with a [__json__] are the entries
    and the playlists; on anything else [JSONEncoder.default] raises
    [TypeError]. *)
Definition default (o : Value) : M World Value :=
  match o with
  | VRef r =>
      e <- deref r ;;
      match class e with
      | URLPlaylistEntry => URLPlaylistEntry_json e
      | StreamPlaylistEntry => StreamPlaylistEntry_json e
      end
  | VPlaylist items => Playlist_json items
  | _ => raise TypeError
  end.

(** [json.dumps(o, cls=Serializer)], as far as the document it writes.
    A value of JSON is written as it is, member by member; an object is
    written as what [default] returns for it. [markers] are the objects
    that are being written, which must not come up again inside
    themselves ([ValueError], a circular reference); [depth] is how
    deep the interpreter lets the encoder recurse. *)
Fixpoint encode (depth : nat) (markers : list EntryRef) (o : Value)
  : M World Value :=
  match o with
  | VNone | VBool _ | VInt _ | VStr _ => ret o
  | _ =>
      match depth with
      | O => raise RecursionError
      | S depth' =>
          match o with
          | VList l =>
              l' <- map_in_order (encode depth' markers) l ;;
              ret (VList l')
          | VDict d =>
              d' <- map_in_order
                      (fun kv => match kv with
                                 | (k, x) =>
                                     y <- encode depth' markers x ;;
                                     ret (k, y)
                                 end) d ;;
              ret (VDict d')
          | VRef r =>
              if bool_decide (r ∈ markers) then raise ValueError
              else
                o' <- default o ;;
                encode depth' (r :: markers) o'
          | _ =>
              o' <- default o ;;
              encode depth' markers o'
          end
      end
  end.

(** [Serializable.serialize], with the encoder and the options it has
    by default: of an entry, and of the playlist of the world. *)
Definition serialize (depth : nat) (o : Value) : M World Value :=
  encode depth [] o.

Definition serialize_playlist (depth : nat) : M World Value :=
  w <- get ;;
  serialize depth (VPlaylist (map VRef (entries w))).

End Encoding.
End Encoder.

(** * Part II: what the properties are stated with

    Auxiliary definitions of the statements below, and the concrete
    inputs they are run on. *)

Module EmitterScenarios.
Import EventEmitter.
(** The callback [c] was got to by a publish with the effects [tr]: the
    body of a plain function was run, the coroutine of a coroutine
    function was scheduled. *)
Definition reached (spec_of : FnId -> FnSpec) (c : Callback)
           (tr : list Effect) : Prop :=
  match c with
  | Fn f =>
      if is_coroutine_function (spec_of f)
      then In (Scheduled f) tr
      else In (Ran f) tr
  | OnceCallback _ _ => True
  end.
(** Listeners that return normally. *)
Definition quiet : FnId -> FnSpec :=
  fun _ => {| is_coroutine_function := false; body := Returns |}.
(** [on], [on] and [once] with the same function for one event. *)
Definition on_on_once : M Emitter unit :=
  on "e" (Fn 0) ;; on "e" (Fn 0) ;; once "e" 0.
(** A stretch of effects without a call made by [emit]. *)
Definition silent (em em' : Emitter) : Prop :=
  exists tr, effects em' = effects em ++ tr /\ invocations tr = [].
End EmitterScenarios.

Module DownloaderScenarios.
Import Downloader.

(** Where [extract_info] sends the exception [e] for a callable hook. *)
Definition routed (h : Hook) (e : Exn) : Request :=
  if iscoroutinefunction h then EnsureFutureCall h e
  else CallSoonThreadsafe h e.
End DownloaderScenarios.

Module EntryScenarios.
Import Entry.

(** The world after [get_ready_future] on the entry [e] behind [r]. *)
Definition requested (r : EntryRef) (e : Entry) (w : World) : World :=
  if is_downloaded e
  then with_futures (fun fs => fs ++ [Result r]) w
  else
    with_ready (fun q => q ++ [Download r])
      (with_heap
         (fun h => <[r := set_waiting_futures
                            (_waiting_futures e ++ [length (futures w)])
                            e]> h)
         (with_futures (fun fs => fs ++ [Pending]) w)).

(** Between [w0] and [w] the readiness of [r] was asked for, and [f] is
    the future that was handed out: a future made after [w0], which is
    resolved with [r], or is pending among the waiters of [r] with a
    download of [r] scheduled after [w0]. *)
Definition readiness_requested (w0 w : World) (r : EntryRef)
           (f : FutureRef) : Prop :=
  length (futures w0) <= f /\
  (futures w !! f = Some (Result r)
   \/ (futures w !! f = Some Pending
       /\ (exists e, heap w !! r = Some e /\ In f (_waiting_futures e))
       /\ In (Download r) (drop (length (ready w0)) (ready w)))).

(** Every future an entry of the store waits on is in the store. *)
Definition waiters_known (w : World) : Prop :=
  Forall (fun e => Forall (fun f => f < length (futures w))
                          (_waiting_futures e)) (heap w).

(** What the loop of [_for_each_future] makes of the futures: each
    listed future that is pending takes the state [s]. *)
Fixpoint settle (s : FutureState) (fs : list FutureRef)
         (futs : list FutureState) : list FutureState :=
  match fs with
  | [] => futs
  | f :: fs' =>
      settle s fs' match futs !! f with
                   | Some Pending => <[f := s]> futs
                   | _ => futs
                   end
  end.
(** The loop of [_for_each_future] for one of the two callbacks,
    [future.set_result(self)] and [future.set_exception(e)]. *)
Definition loop_body (s : FutureState) (future : FutureRef) : M World unit :=
  c <- cancelled future ;;
  if c then ret tt
  else try_except (resolve future s) (fun x => tell (PrintExc x)).

(** No URL body gets to its end without waiting. *)
Definition never : EntryRef -> option URLOutcome := fun _ => None.

(** A stream entry built without a destination, as the default of the
    constructor has it. *)
Definition new_stream : M World EntryRef :=
  new_StreamPlaylistEntry (VStr "http://radio/live") (VStr "radio")
                          VNone [].

Definition new_url : M World EntryRef :=
  new_URLPlaylistEntry (VStr "http://video/1") (VStr "video") (VInt 30)
                       (VStr "audio_cache/video-1.m4a") [].

(** Two readiness requests on a new entry, then one turn of the loop. *)
Definition ask_twice (new : M World EntryRef) : M World unit :=
  r <- new ;;
  _ <- get_ready_future r ;;
  _ <- get_ready_future r ;;
  run_ready never.

(** What [extract_info] answers for the stream. *)
Definition live : Res Value :=
  Ok (VDict [("url", VStr "http://radio/stream.mp3")]).

(** Both extractions of the stream entry answer. *)
Definition stream_done : M World unit :=
  ask_twice new_stream ;;
  resume 0 (ExtractAnswer live) ;;
  resume 0 (ExtractAnswer live).

(** The one download of the URL entry ends. *)
Definition url_done : M World unit :=
  ask_twice new_url ;;
  resume 0 (URLAnswer (Finished "audio_cache/video-1.m4a" VNone "-vn")).
End EntryScenarios.

Module PlaylistScenarios.
Import Entry Playlist.

(** The duration of the entry behind [r]. *)
Definition duration_at (w : World) (r : EntryRef) : Value :=
  match heap w !! r with
  | Some e => duration e
  | None => VNone
  end.

(** The entry that [estimate_time_until] accounts as playing. *)
Definition accounted (p : Player) : option EntryRef :=
  if is_stopped p then None else current_entry p.

(** A duration as the type hint has it: [None] or an integer. *)
Definition optional_int (v : Value) : Prop :=
  v = VNone \/ exists z, v = VInt z.

Definition seconds (v : Value) : Z :=
  match number v with Some z => z | None => 0%Z end.

Definition total (vs : list Value) : Z :=
  foldr (fun v acc => (seconds v + acc)%Z) 0%Z vs.

Definition remaining (w : World) (p : Player) : Z :=
  match accounted p with
  | Some cur => (seconds (duration_at w cur) - progress p)%Z
  | None => 0%Z
  end.

Definition url_entry (u : string) (d : Value) : Entry :=
  {| class := URLPlaylistEntry; url := VStr u; title := VStr u;
     duration := d; expected_filename := VStr (String.append u ".m4a");
     destination := VNone; meta := []; aoptions := "-vn";
     filename := VNone; _is_downloading := false;
     _waiting_futures := [] |}.

Definition queue_of (es : list Entry) : World :=
  {| heap := es; futures := []; ready := []; suspended := [];
     journal := []; entries := seq 0 (length es);
     emitter := EventEmitter.init; loop := [] |}.

(** The queue [e1(30), e2(45), e3(unknown)]. *)
Definition queue3 : World :=
  queue_of [url_entry "e1" (VInt 30); url_entry "e2" (VInt 45);
            url_entry "e3" VNone].

(** A queue whose first entry lasts zero seconds. *)
Definition queue_zero : World :=
  queue_of [url_entry "e1" (VInt 0); url_entry "e2" (VInt 45);
            url_entry "e3" VNone].

(** A queue of two URL entries that are not downloaded. *)
Definition queue_ab : World :=
  queue_of [url_entry "a" (VInt 1); url_entry "b" (VInt 2)].

(** No entry is playing. *)
Definition idle (stopped : bool) (progress : Z) : Player :=
  {| is_stopped := stopped; current_entry := None; progress := progress |}.
End PlaylistScenarios.

Module AddScenarios.
Import Entry Playlist.

(** Listeners that return normally. *)
Definition quiet : EventEmitter.FnId -> EventEmitter.FnSpec :=
  fun _ => {| EventEmitter.is_coroutine_function := false;
              EventEmitter.body := EventEmitter.Returns |}.

(** What yt-dlp answers for the locator of a single video. *)
Definition video (u : string) : Value :=
  VDict [("extractor", VStr "youtube"); ("webpage_url", VStr u);
         ("title", VStr u); ("duration", VInt 10)].

(** A listing of three items, the second without the URL field. *)
Definition listing : Value :=
  VDict [("extractor", VStr "youtube:tab");
         ("entries",
          VList [VDict [("webpage_url", VStr "x1"); ("title", VStr "x1")];
                 VDict [("title", VStr "x2")];
                 VDict [("webpage_url", VStr "x3"); ("title", VStr "x3")]])].

Definition ytdl (y : Downloader.Ytdl) (a : Downloader.Args) : Res Value :=
  match Downloader.arg_url a with
  | VStr "list" => Ok listing
  | VStr u => Ok (video u)
  | _ => Raise (External 0)
  end.

Definition prepare (info : Value) : Res Value :=
  Ok (VStr "audio_cache/file.m4a").


Definition no_path (p : string) : bool := false.

(** The locators of the entries behind a list of references. *)
Definition urls (w : World) (rs : list EntryRef) : list Value :=
  map (fun r => match heap w !! r with
                | Some e => url e
                | None => VNone
                end) rs.

End AddScenarios.

Module SerializerScenarios.
Import Entry Serializer.

(** The dotted name [deserialize] builds from a record. *)
Definition dotted (module class : string) : string :=
  String.append (String.append module ".") class.

(** A dict carries the signature of a serialized object. *)
Definition signed (d : list (string * Value)) : bool :=
  match assoc "__class__" d, assoc "__module__" d, assoc "data" d with
  | Some _, Some _, Some _ => true
  | _, _, _ => false
  end.

(** No dict inside the value carries the signature: the object hook
    leaves the value as it is. *)
Fixpoint plain (v : Value) : bool :=
  match v with
  | VList l =>
      (fix each (l : list Value) : bool :=
         match l with
         | [] => true
         | x :: l' => plain x && each l'
         end) l
  | VDict d =>
      (fix each (d : list (string * Value)) : bool :=
         match d with
         | [] => true
         | (_, x) :: d' => plain x && each d'
         end) d && negb (signed d)
  | _ => true
  end.

(** [data[k]] when it does not raise. *)
Definition lookup_key (v : Value) (k : string) : option Value :=
  match v with
  | VDict d => assoc k d
  | _ => None
  end.

(** [k in m] when it does not raise. *)
Definition has_key (m : Value) (k : string) : option bool :=
  match m with
  | VDict d => Some (match assoc k d with Some _ => true | None => false end)
  | VList l => Some (existsb (fun x => eq_str x k) l)
  | VStr s =>
      Some (match String.index 0 k s with Some _ => true | None => false end)
  | _ => None
  end.

Section Outcomes.
Variable _get_variable : string -> option Handle.
Variable int_of_str : string -> option Z.

(** [int(v)] when it does not raise. *)
Definition int_of (v : Value) : option Z :=
  match v with
  | VInt z => Some z
  | VBool b => Some (if b then 1 else 0)%Z
  | VStr s => int_of_str s
  | _ => None
  end.

Definition meta_key_of (data : Value) (key : string)
  : option (list (string * Z)) :=
  m ← lookup_key data "meta";
  present ← has_key m key;
  if (present : bool) then
    m ← lookup_key data "meta";
    v ← lookup_key m key;
    z ← int_of v;
    Some [(key, z)]
  else Some [].

Definition meta_of (data : Value) : option (list (string * Z)) :=
  channel ← meta_key_of data "channel";
  author ← meta_key_of data "author";
  Some (channel ++ author).

(** The entry a URL payload is rebuilt into, if it is. *)
Definition url_entry_of (data : Value) : option Entry :=
  u ← lookup_key data "url";
  t ← lookup_key data "title";
  du ← lookup_key data "duration";
  keep ← match _get_variable "config" with
         | Some (TheConfig b) => Some b
         | _ => None
         end;
  downloaded ← (if (keep : bool) then lookup_key data "downloaded"
                else Some (VBool false));
  fn ← (if truthy downloaded then lookup_key data "filename"
        else Some VNone);
  ef ← lookup_key data "expected_filename";
  meta ← meta_of data;
  match _get_variable "downloader" with
  | Some TheDownloader =>
      Some {| class := URLPlaylistEntry; url := u; title := t;
              duration := du; expected_filename := ef;
              destination := VNone; meta := meta; aoptions := "-vn";
              filename := fn; _is_downloading := false;
              _waiting_futures := [] |}
  | _ => None
  end.

(** The entry a stream payload is rebuilt into, if it is. *)
Definition stream_entry_of (data : Value) : option Entry :=
  u ← lookup_key data "url";
  t ← lookup_key data "title";
  dest ← lookup_key data "destination";
  fn ← lookup_key data "filename";
  meta ← meta_of data;
  Some {| class := StreamPlaylistEntry; url := u; title := t;
          duration := VNone; expected_filename := VNone;
          destination := dest; meta := meta; aoptions := "-vn";
          filename := (if truthy dest then dest
                       else if truthy fn then dest else VNone);
          _is_downloading := false; _waiting_futures := [] |}.
End Outcomes.

(** A step that leaves the world alone and either returns what the
    option holds or raises an [Exception]. *)
Definition agrees {A} (c : M World A) (o : option A) : Prop :=
  forall w,
    match o with
    | Some a => c w = (w, Ok a)
    | None => exists x, c w = (w, Raise x) /\ is_exception x = true
    end.

(** The handles a decode finds when its caller supplies them all. *)
Definition supplied (keep : bool) (name : string) : option Handle :=
  if String.eqb name "config" then Some (TheConfig keep)
  else if String.eqb name "downloader" then Some TheDownloader
  else if String.eqb name "aiosession" then Some Opaque
  else if String.eqb name "loop" then Some Opaque
  else None.

Definition nowhere (path : string) : Located := NotFound.

Definition no_int (s : string) : option Z := None.

(** The payload of a URL entry, as [__json__] writes it. *)
Definition url_payload (u : string) : Value :=
  VDict [("version", VInt 1); ("url", VStr u); ("title", VStr u);
         ("duration", VInt 30); ("downloaded", VBool false);
         ("expected_filename", VStr "f.m4a"); ("filename", VNone);
         ("full_filename", VNone);
         ("meta", VDict [("channel", VInt 1); ("author", VInt 2)]);
         ("aoptions", VStr "-vn")].



(** Records whose discriminator names no entry class. *)
Definition unknown : Value :=
  record "musicbot.entry" "NoSuchEntry" (VDict []).


(** What becomes of a per-entry record. *)
Inductive Fate : Type :=
| Kept                      (* the dict stays in the queue as it is *)
| Dropped                   (* [None] takes its place *)
| Rebuilt (e : Entry)       (* an entry object takes its place *)
| Aborts.                   (* the hook raises *)

Definition fate (_get_variable : string -> option Handle)
           (locate_elsewhere : string -> Located)
           (int_of_str : string -> option Z)
           (module class : string) (payload : Value) : Fate :=
  match locateObj locate_elsewhere (dotted module class) with
  | NotFound | NotAClass false | OtherClass => Kept
  | SerializableClass (EntryClass URLPlaylistEntry) =>
      match url_entry_of _get_variable int_of_str payload with
      | Some e => Rebuilt e
      | None => Dropped
      end
  | SerializableClass (EntryClass StreamPlaylistEntry) =>
      match stream_entry_of int_of_str payload with
      | Some e => Rebuilt e
      | None => Dropped
      end
  | _ => Aborts
  end.


(** A record and what stands in its place in the decoded queue. *)
Definition decoded (_get_variable : string -> option Handle)
           (locate_elsewhere : string -> Located)
           (int_of_str : string -> option Z) (w' : World)
           (rec item : Value) : Prop :=
  exists module class payload,
    rec = record module class payload
    /\ match fate _get_variable locate_elsewhere int_of_str
                  module class payload with
       | Kept => item = rec
       | Dropped => item = VNone
       | Rebuilt e => exists r, item = VRef r /\ heap w' !! r = Some e
       | Aborts => False
       end.


End SerializerScenarios.

Module RegistryScenarios.
Import EventEmitter.

(** The listeners of an event, an event that is not registered having
    none. *)
Definition listeners (em : Emitter) (event : string) : list Callback :=
  default [] (_events em !! event).
End RegistryScenarios.

Module RequestScenarios.
Import Entry.

(** [n] readiness requests for one entry, made before the loop runs. *)
Fixpoint request (n : nat) (r : EntryRef) : M World (list FutureRef) :=
  match n with
  | O => ret []
  | S n' =>
      future <- get_ready_future r ;;
      rest <- request n' r ;;
      ret (future :: rest)
  end.

(** The world after [n] requests for an entry that is not downloaded:
    [n] new futures, all waited on by the entry, and [n] tasks. *)
Definition asked (n : nat) (r : EntryRef) (e : Entry) (w : World) : World :=
  {| heap := <[r := set_waiting_futures
                      (_waiting_futures e ++ seq (length (futures w)) n) e]>
             (heap w);
     futures := futures w ++ replicate n Pending;
     ready := ready w ++ replicate n (Download r);
     suspended := suspended w; journal := journal w;
     entries := entries w; emitter := emitter w; loop := loop w |}.
End RequestScenarios.

Module IndexScenarios.
Import Entry Playlist Index.
Local Open Scope Z_scope.

(** Who may remove an entry: whoever may manage the channel, and the
    one who queued it. *)
Definition permitted (manage_channels : bool) (user_id : Z) (e : Entry)
  : bool :=
  manage_channels
  || match assoc "author" (meta e) with
     | Some a => a =? user_id
     | None => false
     end.
End IndexScenarios.

Module QueueScenarios.
Import Entry Playlist.

(** The queue, the objects and the loop of tasks are as they were; only
    the record of what was asked of the downloader may have grown. *)
Definition untouched (w w' : World) : Prop :=
  heap w' = heap w /\ futures w' = futures w /\ ready w' = ready w
  /\ suspended w' = suspended w /\ journal w' = journal w
  /\ entries w' = entries w /\ emitter w' = emitter w.

(** One entry was built and queued, in front of the queue or behind it,
    and [pos] is its position, counted from 1; the entries there were
    are as they were. *)
Definition queued (front : bool) (w w' : World) (entry : EntryRef)
           (pos : Z) : Prop :=
  entry = length (heap w)
  /\ length (heap w') = S (length (heap w))
  /\ (forall r, r < length (heap w) -> heap w' !! r = heap w !! r)
  /\ entries w' = (if front then entry :: entries w
                   else entries w ++ [entry])
  /\ pos = (if front then 1%Z else Z.of_nat (length (entries w'))).

(** A step that leaves the queue untouched, whether it returns or
    raises. *)
Definition inert {A} (c : M World A) : Prop :=
  forall w, untouched w (c w).1.

(** A step that queues one entry when it returns and leaves the queue
    untouched when it raises. *)
Definition adds (front : bool) (c : M World (EntryRef * Z)) : Prop :=
  forall w,
    match c w with
    | (w', Ok (entry, pos)) => queued front w w' entry pos
    | (w', Raise _) => untouched w w'
    end.
End QueueScenarios.

Module ImportScenarios.
Import Entry Playlist.

Section Outside.
Variable prepare_filename : Value -> Res Value.

(** An item of a listing that the loop of [import_from] queues: a dict
    that is not empty and has the URL field, for which yt-dlp prepares
    a file name. *)
Definition importable (url_field : string) (item : Value) : bool :=
  match item with
  | VDict d =>
      truthy item
      && match assoc url_field d, prepare_filename item with
         | Some _, Ok _ => true
         | _, _ => false
         end
  | _ => false
  end.
End Outside.

(** The URL field of an item. *)
Definition locator (url_field : string) (item : Value) : Value :=
  match item with
  | VDict d => default VNone (assoc url_field d)
  | _ => VNone
  end.

(** The field [import_from] reads the locators from. *)
Definition url_field_of (info : list (string * Value)) : string :=
  if eq_str (default VNone (assoc "extractor" info)) "generic"
  then "url" else "webpage_url".
End ImportScenarios.

Module SkipScenarios.
Import SkipState.

(** A run of votes, each a member and a message. *)
Fixpoint add_skippers (votes : list (Z * nat)) (s : SkipState)
  : SkipState * Z :=
  match votes with
  | [] => (s, skip_count s)
  | (skipper, msg) :: votes' =>
      add_skippers votes' (add_skipper skipper msg s).1
  end.
End SkipScenarios.

Module RoundTripScenarios.
Import Entry Serializer SerializerScenarios Encoder.

(** A value that JSON writes as it is and that holds no other. *)
Definition scalar (v : Value) : bool :=
  match v with
  | VNone | VBool _ | VInt _ | VStr _ => true
  | _ => false
  end.

(** An entry as the playlist builds it and the downloads leave it: its
    locator, title, duration and file names are scalars, its file name
    is a string or [None], and its [meta] is not taken for a serialized
    object (it does not have all of the keys ['__class__'],
    ['__module__'] and ['data']). *)
Definition writable (e : Entry) : bool :=
  scalar (url e) && scalar (title e) && scalar (duration e)
  && scalar (expected_filename e) && scalar (destination e)
  && match filename e with VNone | VStr _ => true | _ => false end
  && plain (meta_dict (meta e)).

(** The [meta] that a decoder keeps: the channel and the author. *)
Definition kept (meta : list (string * Z)) : list (string * Z) :=
  match assoc "channel" meta with
  | Some z => [("channel", z)]
  | None => []
  end
  ++ match assoc "author" meta with
     | Some z => [("author", z)]
     | None => []
     end.

(** The entry that comes back for a written entry. A URL entry keeps
    its file name when it was downloaded and the configuration saves
    the downloads; a stream entry has its destination for a file name;
    the filter options, the mark of a download in progress and the
    waiters are those of a new entry. *)
Definition restored (keep : bool) (e : Entry) : Entry :=
  match class e with
  | URLPlaylistEntry =>
      {| class := URLPlaylistEntry; url := url e; title := title e;
         duration := duration e;
         expected_filename := expected_filename e;
         destination := VNone; meta := kept (meta e); aoptions := "-vn";
         filename := (if keep && is_downloaded e then filename e
                      else VNone);
         _is_downloading := false; _waiting_futures := [] |}
  | StreamPlaylistEntry =>
      {| class := StreamPlaylistEntry; url := url e; title := title e;
         duration := VNone; expected_filename := VNone;
         destination := destination e; meta := kept (meta e);
         aoptions := "-vn";
         filename := (if truthy (destination e) then destination e
                      else if truthy (filename e) then destination e
                           else VNone);
         _is_downloading := false; _waiting_futures := [] |}
  end.

Section Written.
Variable abspath : string -> string.

(** What is written for an entry: the payload, and the record around
    it. *)
Definition payload (e : Entry) : Value :=
  match class e with
  | URLPlaylistEntry =>
      VDict [("version", VInt 1);
             ("url", url e);
             ("title", title e);
             ("duration", duration e);
             ("downloaded", VBool (is_downloaded e));
             ("expected_filename", expected_filename e);
             ("filename", filename e);
             ("full_filename",
              match filename e with
              | VStr s => if truthy (VStr s) then VStr (abspath s)
                          else VStr s
              | v => v
              end);
             ("meta", meta_dict (meta e));
             ("aoptions", VStr (aoptions e))]
  | StreamPlaylistEntry =>
      VDict [("version", VInt 1);
             ("url", url e);
             ("filename", filename e);
             ("title", title e);
             ("destination", destination e);
             ("meta", meta_dict (meta e))]
  end.

Definition qualname (c : Class) : string :=
  match c with
  | URLPlaylistEntry => "URLPlaylistEntry"
  | StreamPlaylistEntry => "StreamPlaylistEntry"
  end.

Definition document (e : Entry) : Value :=
  record "musicbot.entry" (qualname (class e)) (payload e).
End Written.

(** The handles of a decode whose configuration says whether the
    downloads are saved. *)
Definition supplies (gv : string -> option Handle) (keep : bool) : Prop :=
  is_Some (gv "aiosession") /\ gv "config" = Some (TheConfig keep)
  /\ gv "downloader" = Some TheDownloader /\ is_Some (gv "loop").
End RoundTripScenarios.

(** * Part III: properties *)

Module WorldFacts.
Import Entry EntryScenarios.

(** A step that returns normally hands over to what follows it. *)
Lemma bind_ok {S A B} (c : M S A) (k : A -> M S B) s s' a :
  c s = (s', Ok a) -> bind c k s = k a s'.
Proof. intros H. unfold bind. by rewrite H. Qed.

Lemma lookup_snoc_length {A} (l : list A) (x : A) :
  (l ++ [x]) !! length l = Some x.
Proof. by rewrite lookup_app_r, Nat.sub_diag. Qed.

Lemma insert_snoc_length {A} (l : list A) (x y : A) :
  <[length l := y]> (l ++ [x]) = l ++ [y].
Proof.
  rewrite insert_app_r_alt, Nat.sub_diag; [done|lia].
Qed.

Lemma get_ready_future_spec r e w :
  heap w !! r = Some e ->
  get_ready_future r w = (requested r e w, Ok (length (futures w))).
Proof.
  intros He.
  unfold get_ready_future, requested, bind, new_future, deref.
  cbn [heap with_futures futures]. rewrite He.
  destruct (is_downloaded e).
  - unfold set_result, resolve, bind, get. cbn [futures with_futures].
    rewrite lookup_snoc_length. unfold modify, with_futures. cbn.
    by rewrite insert_snoc_length.
  - unfold update, bind, deref, modify, ensure_future, ret.
    cbn. rewrite He. cbn. done.
Qed.

Lemma requested_entries r e w : entries (requested r e w) = entries w.
Proof. unfold requested. by destruct (is_downloaded e). Qed.

Lemma requested_emitter r e w : emitter (requested r e w) = emitter w.
Proof. unfold requested. by destruct (is_downloaded e). Qed.

Lemma requested_heap_length r e w :
  length (heap (requested r e w)) = length (heap w).
Proof.
  unfold requested. destruct (is_downloaded e); cbn; [done|].
  by rewrite length_insert.
Qed.


Lemma requested_heap_other r e w r' :
  r' <> r -> heap (requested r e w) !! r' = heap w !! r'.
Proof.
  intros Hne. unfold requested. destruct (is_downloaded e); cbn; [done|].
  by rewrite list_lookup_insert_ne.
Qed.


(** The future handed out answers the request. *)
Lemma requested_is_requested r e w :
  heap w !! r = Some e ->
  readiness_requested w (requested r e w) r (length (futures w)).
Proof.
  intros He. split; [done|]. unfold requested.
  destruct (is_downloaded e); cbn.
  - left. apply lookup_snoc_length.
  - right. split; [apply lookup_snoc_length|]. split.
    + eexists. split.
      * apply list_lookup_insert_eq. by eapply lookup_lt_Some.
      * cbn. apply in_app_iff. right. by left.
    + rewrite drop_app_length. by left.
Qed.
End WorldFacts.

Module EventEmitterFacts.
Import EventEmitter. Import EmitterScenarios.

Lemma silent_same em em' : effects em' = effects em -> silent em em'.
Proof. intros E. exists []. by rewrite app_nil_r. Qed.

Lemma silent_trans em1 em2 em3 :
  silent em1 em2 -> silent em2 em3 -> silent em1 em3.
Proof.
  intros [t1 [E1 I1]] [t2 [E2 I2]]. exists (t1 ++ t2). split.
  - by rewrite E2, E1, app_assoc.
  - clear E1 E2. induction t1 as [|x t1 IH]; simpl in *; [done|].
    destruct x; try done; auto.
Qed.

Lemma invocations_app t1 t2 :
  invocations (t1 ++ t2) = invocations t1 ++ invocations t2.
Proof.
  induction t1 as [|x t1 IH]; simpl; [done|].
  destruct x; simpl; by rewrite ?IH.
Qed.

Lemma off_silent event cb em :
  silent em (off event cb em).1.
Proof.
  unfold off, events_getitem, bind, get, set_events, modify, ret, raise.
  simpl. destruct (_events em !! event) as [l|]; simpl.
  - destruct (list_remove cb l) as [[|y l']|]; simpl; by apply silent_same.
  - by apply silent_same.
Qed.

Lemma call_silent spec_of c em :
  silent em (call spec_of c em).1.
Proof.
  destruct c as [f|event cb]; simpl.
  - unfold run_body, bind, tell, modify. simpl.
    exists [Ran f]. destruct (body (spec_of f)); simpl; done.
  - unfold bind. pose proof (off_silent event (Fn cb) em) as Hoff.
    destruct (off event (Fn cb) em) as [em1 [[]|e]]; simpl in *; [|done].
    eapply silent_trans; [exact Hoff|].
    destruct (is_coroutine_function (spec_of cb)).
    + exists [NeverAwaited cb]. done.
    + unfold run_body, bind, tell, modify. simpl.
      exists [RanFromOnce event cb].
      destruct (body (spec_of cb)); simpl; done.
Qed.

(** One turn of the loop of [emit] ends normally, and the one call it
    records is the call of its callback; a plain function has its body
    run, a coroutine function its coroutine scheduled. *)
Lemma emit_one_spec spec_of c em :
  exists em' tr,
    emit_one spec_of c em = (em', Ok tt) /\
    effects em' = effects em ++ tr /\
    invocations tr = [c] /\
    reached spec_of c tr.
Proof.
  unfold emit_one, try_except, bind. unfold tell at 1. unfold modify.
  set (em0 := {| _events := _events em; effects := effects em ++ [Invoked c] |}).
  assert (Hgo : forall (k : M Emitter unit),
             silent em0 (k em0).1 ->
             exists em' tr,
               match k em0 with
               | (s', Ok a) => (s', Ok a)
               | (s', Raise e) => tell (PrintExc e) s'
               end = (em', Ok tt) /\
               effects em' = effects em ++ tr /\ invocations tr = [c] /\
               forall x, In x (drop (length (effects em0)) (effects (k em0).1)) ->
                         In x tr).
  { intros k [tr [E I]]. destruct (k em0) as [em1 [[]|e]] eqn:Hk;
      simpl in *.
    - exists em1, (Invoked c :: tr). split; [done|]. split; [|split].
      + rewrite E. simpl. by rewrite <- app_assoc.
      + simpl. by rewrite I.
      + intros x. rewrite E, drop_app_length. simpl. auto.
    - eexists _, (Invoked c :: tr ++ [PrintExc e]). split; [reflexivity|].
      split; [|split].
      + simpl. rewrite E. simpl. by rewrite <- !app_assoc.
      + simpl. rewrite invocations_app, I. done.
      + intros x. rewrite E, drop_app_length. simpl. rewrite in_app_iff.
        auto. }
  destruct (iscoroutinefunction spec_of c) eqn:Hco.
  - destruct c as [f|ev cb]; [|done].
    destruct (Hgo (tell (Scheduled f))) as (em' & tr & E & F & I & R).
    { exists [Scheduled f]. done. }
    exists em', tr. repeat split; try done.
    simpl in *. rewrite Hco. apply R.
    unfold tell, modify. simpl. rewrite drop_app_length. by left.
  - destruct (Hgo (call spec_of c)) as (em' & tr & E & F & I & R).
    { apply call_silent. }
    exists em', tr. repeat split; try done.
    destruct c as [f|ev cb]; [|done]. simpl in *. rewrite Hco.
    apply R. unfold run_body, bind, tell, modify. simpl.
    destruct (body (spec_of f)); simpl; rewrite drop_app_length;
      by left.
Qed.

Lemma reached_app_l spec_of c t1 t2 :
  reached spec_of c t1 -> reached spec_of c (t1 ++ t2).
Proof.
  destruct c as [f|]; [|done]. simpl.
  destruct (is_coroutine_function (spec_of f)); rewrite in_app_iff; auto.
Qed.

Lemma reached_app_r spec_of c t1 t2 :
  reached spec_of c t2 -> reached spec_of c (t1 ++ t2).
Proof.
  destruct c as [f|]; [|done]. simpl.
  destruct (is_coroutine_function (spec_of f)); rewrite in_app_iff; auto.
Qed.

Lemma for_each_emit_one spec_of cbs em :
  exists em' tr,
    for_each cbs (emit_one spec_of) em = (em', Ok tt) /\
    effects em' = effects em ++ tr /\
    invocations tr = cbs /\
    Forall (fun c => reached spec_of c tr) cbs.
Proof.
  revert em. induction cbs as [|c cbs IH]; intros em; simpl.
  - exists em, []. by rewrite app_nil_r.
  - destruct (emit_one_spec spec_of c em)
      as (em1 & t1 & E1 & F1 & I1 & R1).
    destruct (IH em1) as (em2 & t2 & E2 & F2 & I2 & R2).
    exists em2, (t1 ++ t2). unfold bind. rewrite E1, E2. split; [done|].
    split; [|split].
    + by rewrite F2, F1, app_assoc.
    + by rewrite invocations_app, I1, I2.
    + constructor; [by apply reached_app_l|].
      eapply Forall_impl; [exact R2|]. intros c' Hc'.
      by apply reached_app_r.
Qed.

(** [emit] ends normally whatever the listeners do. *)
Lemma emit_total spec_of event em :
  exists em', emit spec_of event em = (em', Ok tt).
Proof.
  unfold emit, bind, get. simpl.
  destruct (_events em !! event) as [cbs|].
  - destruct (for_each_emit_one spec_of cbs em) as (em' & tr & E & _).
    eauto.
  - by exists em.
Qed.

(** C8. Publishing calls every callback registered for the event, in
    the order of registration; a callback that raises (the [ValueError]
    of the closure of [once] included) neither makes [emit] raise nor
    keeps the later callbacks from being called; the body of every
    registered plain function is run. Publishing an event without
    callbacks changes nothing. *)
Theorem emit_invokes_every_callback spec_of event em :
  exists em',
    emit spec_of event em = (em', Ok tt) /\
    match _events em !! event with
    | None => em' = em
    | Some cbs =>
        exists tr,
          effects em' = effects em ++ tr /\
          invocations tr = cbs /\
          Forall (fun c => reached spec_of c tr) cbs
    end.
Proof.
  unfold emit, bind, get. simpl.
  destruct (_events em !! event) as [cbs|].
  - destruct (for_each_emit_one spec_of cbs em)
      as (em' & tr & E & F & I & R).
    exists em'. split; [done|]. by exists tr.
  - by exists em.
Qed.

(** C7, on the code. After [on], [on], [once] with the same function
    for the event [e], the first publish leaves the function and the
    closure of [once] registered, the second leaves the closure
    registered, and the closure has run the body of the function on
    both publishes: it removes the function it wraps from the list, not
    itself. Alone on its event, the closure raises the [ValueError] of
    [list.remove] on every publish, stays registered, and the body of
    the function never runs. *)
Theorem once_closure_stays_registered :
  let em0 := (on_on_once init).1 in
  let em1 := (emit quiet "e" em0).1 in
  let em2 := (emit quiet "e" em1).1 in
  let solo := (emit quiet "e" (once "e" 0 init).1).1 in
  _events em1 !! "e" = Some [Fn 0; OnceCallback "e" 0] /\
  _events em2 !! "e" = Some [OnceCallback "e" 0] /\
  runs_from_once "e" 0 (effects em2) = 2 /\
  _events solo !! "e" = Some [OnceCallback "e" 0] /\
  effects solo = [Invoked (OnceCallback "e" 0); PrintExc ValueError].
Proof. vm_compute. repeat split. Qed.
End EventEmitterFacts.

Module DownloaderFacts.
Import Downloader DownloaderScenarios.

(** C10. With a callable [on_error] and [retry_on_error] unset, an
    [Exception] raised by the extraction is handed to the hook, nothing
    else is asked of the thread pool (no second extraction), and the
    call returns [None] instead of raising. *)
Theorem extract_info_routes_error_to_hook
        (ytdl : Ytdl -> Args -> Res Value) (a : Args) (h : Hook)
        (e : Exn) (l : Loop) :
  callable h = true ->
  ytdl unsafe_ytdl a = Raise e ->
  is_exception e = true ->
  extract_info ytdl a h false l
  = (l ++ [RunInExecutor unsafe_ytdl a] ++ [routed h e], Ok VNone).
Proof.
  intros Hc He Hx.
  unfold extract_info, try_except_Exception, run_in_executor, bind, ask,
    modify, ret, routed.
  rewrite Hc. simpl. rewrite He, Hx.
  destruct h; simpl in *; try discriminate; by rewrite <- app_assoc.
Qed.

Lemma extract_info_routes_error_to_hook_witness :
  extract_info (fun _ _ => Raise (External 7))
               {| arg_url := VStr "u"; download := true; process := true |}
               (Function 1) false []
  = ([RunInExecutor unsafe_ytdl
        {| arg_url := VStr "u"; download := true; process := true |};
      CallSoonThreadsafe (Function 1) (External 7)],
     Ok VNone).
Proof.
  apply (extract_info_routes_error_to_hook
           (fun _ _ => Raise (External 7))
           {| arg_url := VStr "u"; download := true; process := true |}
           (Function 1) (External 7) []); reflexivity.
Defined.
End DownloaderFacts.

Module FinishFacts.
Import Entry EntryScenarios WorldFacts.

Lemma settle_length s fs futs : length (settle s fs futs) = length futs.
Proof.
  revert futs. induction fs as [|g fs IH]; intros futs; [done|].
  cbn [settle]. rewrite IH.
  destruct (futs !! g) as [[]|]; by rewrite ?length_insert.
Qed.

Lemma settle_keeps s fs futs f s0 :
  futs !! f = Some s0 -> s0 <> Pending ->
  settle s fs futs !! f = Some s0.
Proof.
  revert futs. induction fs as [|g fs IH]; intros futs Hf Hs; [done|].
  cbn [settle]. apply IH; [|done].
  destruct (futs !! g) as [[]|] eqn:Hg; try done.
  destruct (decide (g = f)) as [->|Hne]; [congruence|].
  by rewrite list_lookup_insert_ne.
Qed.

Lemma settle_other s fs futs f :
  ~ In f fs -> settle s fs futs !! f = futs !! f.
Proof.
  revert futs. induction fs as [|g fs IH]; intros futs Hf; [done|].
  cbn [settle].
  rewrite IH; [|intros H; apply Hf; by right].
  destruct (futs !! g) as [[]|] eqn:Hg; try done.
  rewrite list_lookup_insert_ne; [done|]. intros ->. apply Hf. by left.
Qed.

(** A pending future of the list takes the state the loop sets. *)
Lemma settle_pending s fs futs f :
  s <> Pending -> In f fs -> futs !! f = Some Pending ->
  settle s fs futs !! f = Some s.
Proof.
  intros Hs. revert futs. induction fs as [|g fs IH]; intros futs Hin Hf;
    [done|].
  cbn [settle].
  destruct (decide (g = f)) as [->|Hne].
  - rewrite Hf. apply settle_keeps; [|done].
    apply list_lookup_insert_eq. by eapply lookup_lt_Some.
  - destruct Hin as [->|Hin]; [done|]. apply IH; [done|].
    destruct (futs !! g) as [[]|] eqn:Hg; try done.
    by rewrite list_lookup_insert_ne.
Qed.

Lemma cancelled_spec f w st :
  futures w !! f = Some st ->
  cancelled f w
  = (w, Ok match st with Cancelled => true | _ => false end).
Proof.
  intros Hst. unfold cancelled, bind, get. rewrite Hst. by destruct st.
Qed.

Lemma resolve_spec f s w st :
  futures w !! f = Some st ->
  resolve f s w
  = match st with
    | Pending => (with_futures (fun fs => <[f := s]> fs) w, Ok tt)
    | _ => (w, Raise InvalidStateError)
    end.
Proof.
  intros Hst. unfold resolve, bind, get. rewrite Hst. by destruct st.
Qed.

Lemma loop_settles s fs w :
  Forall (fun f => f < length (futures w)) fs ->
  exists j,
    for_each fs (loop_body s) w
    = (with_journal (fun j0 => j0 ++ j) (with_futures (settle s fs) w),
       Ok tt).
Proof.
  revert w. induction fs as [|f fs IH]; intros w Hfs.
  - exists []. destruct w. unfold with_journal, with_futures, ret. cbn.
    by rewrite app_nil_r.
  - inversion Hfs as [|? ? Hf Hfs']; subst.
    destruct (lookup_lt_is_Some_2 _ _ Hf) as [st Hst].
    cbn [for_each]. unfold bind at 1.
    assert (Hstep : exists j1,
               loop_body s f w
               = (with_journal (fun j0 => j0 ++ j1)
                    (with_futures (settle s [f]) w), Ok tt)).
    { unfold loop_body, bind. rewrite (cancelled_spec f w st Hst).
      cbn [settle]. pose proof (resolve_spec f s w st Hst) as Hres.
      destruct st; unfold try_except; rewrite ?Hres;
        unfold tell, modify, ret, with_journal, with_futures;
        destruct w; cbn in *; rewrite Hst.
      - exists []. by rewrite app_nil_r.
      - by exists [PrintExc InvalidStateError].
      - by exists [PrintExc InvalidStateError].
      - exists []. by rewrite app_nil_r. }
    destruct Hstep as [j1 ->].
    destruct (IH (with_journal (fun j0 => j0 ++ j1)
                    (with_futures (settle s [f]) w))) as [j2 ->].
    { cbn [futures with_journal with_futures]. rewrite settle_length.
      done. }
    exists (j1 ++ j2). unfold with_journal, with_futures. cbn.
    by rewrite app_assoc.
Qed.

Lemma _for_each_future_settles r e s w :
  heap w !! r = Some e ->
  Forall (fun f => f < length (futures w)) (_waiting_futures e) ->
  exists j,
    _for_each_future r (fun future => resolve future s) w
    = (with_journal (fun j0 => j0 ++ j)
         (with_futures (settle s (_waiting_futures e))
            (with_heap (fun h => <[r := set_waiting_futures [] e]> h) w)),
       Ok tt).
Proof.
  intros He Hfs. unfold _for_each_future, bind at 1, deref. rewrite He.
  unfold bind at 1, update, bind at 1, deref. rewrite He.
  unfold modify.
  destruct (loop_settles s (_waiting_futures e)
              (with_heap (fun h => <[r := set_waiting_futures [] e]> h) w))
    as [j Hj]; [done|].
  exists j. exact Hj.
Qed.

Lemma update_spec r g e w :
  heap w !! r = Some e ->
  update r g w = (with_heap (fun h => <[r := g e]> h) w, Ok tt).
Proof. intros He. unfold update, bind, deref. by rewrite He. Qed.

Lemma heap_after_update r (x : Entry) w :
  r < length (heap w) ->
  heap (with_heap (fun h => <[r := x]> h) w) !! r = Some x.
Proof. intros Hr. cbn. by apply list_lookup_insert_eq. Qed.

Lemma probe_waiting d e :
  _waiting_futures (probe d e) = _waiting_futures e.
Proof. unfold probe. by destruct (is_None _). Qed.

(** The end of a URL download that went well: every waiter that is
    pending is resolved with the entry, and the flag is cleared. *)
Lemma url_finish_finished r e fname probed aopts w :
  heap w !! r = Some e ->
  Forall (fun f => f < length (futures w)) (_waiting_futures e) ->
  exists w',
    url_finish r (Finished fname probed aopts) w = (w', Ok tt) /\
    futures w' = settle (Result r) (_waiting_futures e) (futures w) /\
    heap w'
    = <[r := set_is_downloading false
               (set_waiting_futures []
                  (set_aoptions aopts
                     (probe probed (set_filename (VStr fname) e))))]>
        (heap w) /\
    ready w' = ready w /\ suspended w' = suspended w /\
    entries w' = entries w.
Proof.
  intros He Hfs. pose proof (lookup_lt_Some _ _ _ He) as Hr.
  unfold url_finish, try_finally, try_except_Exception.
  unfold bind at 1. rewrite (update_spec r _ e w He).
  set (w1 := with_heap _ w).
  unfold bind at 1.
  rewrite (update_spec r _ _ w1 (heap_after_update r _ w Hr)).
  set (w2 := with_heap _ w1).
  assert (Hr1 : r < length (heap w1)).
  { subst w1. cbn. by rewrite length_insert. }
  unfold bind at 1.
  rewrite (update_spec r _ _ w2 (heap_after_update r _ w1 Hr1)).
  set (w3 := with_heap _ w2).
  assert (Hr2 : r < length (heap w2)).
  { subst w2. cbn. by rewrite length_insert. }
  destruct (_for_each_future_settles r _ (Result r) w3
              (heap_after_update r _ w2 Hr2)) as [j Hj].
  { cbn. rewrite probe_waiting. exact Hfs. }
  unfold set_result. rewrite Hj.
  set (w4 := with_journal _ _).
  erewrite (update_spec r _ _ w4).
  2:{ subst w4. cbn. apply list_lookup_insert_eq.
      rewrite !length_insert. done. }
  eexists. split; [reflexivity|]. cbn. rewrite probe_waiting. cbn.
  rewrite !list_insert_insert_eq. done.
Qed.

(** The end of a URL download that raised an [Exception]: every waiter
    that is pending gets the exception. *)
Lemma url_finish_raised r e x fname probed w :
  heap w !! r = Some e ->
  Forall (fun f => f < length (futures w)) (_waiting_futures e) ->
  is_exception x = true ->
  exists w',
    url_finish r (Raised x fname probed) w = (w', Ok tt) /\
    futures w' = settle (Failed x) (_waiting_futures e) (futures w) /\
    (exists e', heap w' !! r = Some e' /\ _is_downloading e' = false
                /\ _waiting_futures e' = []) /\
    ready w' = ready w /\ suspended w' = suspended w /\
    entries w' = entries w.
Proof.
  intros He Hfs Hx. pose proof (lookup_lt_Some _ _ _ He) as Hr.
  unfold url_finish, try_finally, try_except_Exception.
  assert (Hpre : exists e1,
             (match fname with
              | Some n => update r (set_filename (VStr n))
              | None => ret tt
              end ;;
              match probed with
              | Some d => update r (probe d)
              | None => ret tt
              end ;;
              (raise x : M World unit)) w
             = (with_heap (fun h => <[r := e1]> h) w, Raise x)
             /\ _waiting_futures e1 = _waiting_futures e).
  { unfold bind.
    destruct fname as [n|], probed as [d|]; unfold ret, raise.
    - rewrite (update_spec r _ e w He).
      erewrite update_spec; [|by apply heap_after_update].
      eexists. split.
      + unfold with_heap. cbn. rewrite list_insert_insert_eq. reflexivity.
      + unfold probe. by destruct (is_None _).
    - rewrite (update_spec r _ e w He). eexists. split; [reflexivity|done].
    - rewrite (update_spec r _ e w He). eexists. split; [reflexivity|].
      unfold probe. by destruct (is_None _).
    - exists e. split; [|done]. destruct w. unfold with_heap. cbn in *.
      by rewrite list_insert_id. }
  destruct Hpre as (e1 & -> & Hw1). rewrite Hx.
  set (w1 := with_heap _ w).
  unfold bind at 1. unfold tell at 1, modify.
  set (w2 := with_journal _ w1).
  destruct (_for_each_future_settles r e1 (Failed x) w2) as [j Hj].
  { subst w2 w1. cbn. by apply list_lookup_insert_eq. }
  { rewrite Hw1. exact Hfs. }
  unfold set_exception. rewrite Hj.
  set (w3 := with_journal _ _).
  erewrite (update_spec r _ _ w3).
  2:{ subst w3. cbn. apply list_lookup_insert_eq.
      rewrite !length_insert. done. }
  eexists. split; [reflexivity|]. cbn. rewrite Hw1.
  split; [done|]. split; [|done].
  eexists. split.
  - apply list_lookup_insert_eq. rewrite !length_insert. done.
  - done.
Qed.
End FinishFacts.

Module DownloadFacts.
Import Entry EntryScenarios WorldFacts FinishFacts.

Lemma executions_app r j1 j2 :
  executions r (j1 ++ j2) = executions r j1 + executions r j2.
Proof.
  induction j1 as [|x j1 IH]; [done|].
  destruct x; cbn [app executions]; rewrite IH; lia.
Qed.

(** The guard of the URL class: a download started while one is in
    progress does nothing. *)
Lemma url_download_guard now r e w :
  heap w !! r = Some e -> _is_downloading e = true ->
  url_download now r w = (w, Ok tt).
Proof.
  intros He Hflag. unfold url_download, bind, deref. by rewrite He, Hflag.
Qed.

(** The stream class has no guard: every start asks for an extraction,
    whatever the flag says, and leaves the futures alone. *)
Lemma stream_download_unguarded r e fallback w :
  heap w !! r = Some e ->
  exists w',
    stream_download r fallback w = (w', Ok tt) /\
    executions r (journal w') = S (executions r (journal w)) /\
    in_flight r w' = S (in_flight r w) /\
    futures w' = futures w.
Proof.
  intros He. pose proof (lookup_lt_Some _ _ _ He) as Hr.
  unfold stream_download.
  rewrite (bind_ok _ _ w _ tt (update_spec r _ e w He)).
  erewrite (bind_ok (deref r) _ _ _ _).
  2:{ unfold deref. cbn. by rewrite list_lookup_insert_eq. }
  eexists. split; [reflexivity|]. cbn.
  split; [|split; [|done]].
  - rewrite executions_app. cbn. rewrite bool_decide_true by done. lia.
  - unfold in_flight. cbn. rewrite filter_app, length_app. cbn.
    rewrite decide_True by done. cbn. lia.
Qed.

(** C1: the stream class against its sibling. Two readiness requests
    on a stream entry that is not downloaded start two extractions, both
    in flight at once; when both have answered the entry has its file
    name and neither future is resolved. The same requests on a URL
    entry start one download, and its end resolves both futures with
    the entry. *)
Theorem stream_requests_start_two_downloads :
  let w := (ask_twice new_stream empty_world).1 in
  let w' := (stream_done empty_world).1 in
  let u := (ask_twice new_url empty_world).1 in
  let u' := (url_done empty_world).1 in
  (in_flight 0 w = 2 /\ executions 0 (journal w) = 2)
  /\ (suspended w' = []
      /\ (filename <$> heap w' !! 0)
         = Some (VStr "http://radio/stream.mp3")
      /\ (_is_downloading <$> heap w' !! 0) = Some false
      /\ futures w' = [Pending; Pending])
  /\ (in_flight 0 u = 1 /\ executions 0 (journal u) = 1)
  /\ futures u' = [Result 0; Result 0].
Proof. vm_compute. repeat split. Qed.
End DownloadFacts.

Module AddFacts.
Import Entry Playlist EntryScenarios AddScenarios WorldFacts.

Lemma lift_emit spec_of event w :
  exists em',
    lift_emitter (EventEmitter.emit spec_of event) w
    = ({| heap := heap w; futures := futures w; ready := ready w;
          suspended := suspended w; journal := journal w;
          entries := entries w; emitter := em'; loop := loop w |},
       Ok tt).
Proof.
  destruct (EventEmitterFacts.emit_total spec_of event (emitter w))
    as [em' Hem].
  exists em'. unfold lift_emitter. by rewrite Hem.
Qed.

(** [_add_entry] puts the entry at the front or at the back, and
    changes no other object than the entry. *)
Lemma _add_entry_spec spec_of entry (front : bool) w e :
  heap w !! entry = Some e ->
  exists w',
    _add_entry spec_of entry front w = (w', Ok tt) /\
    entries w' = (if front then entry :: entries w
                  else entries w ++ [entry]) /\
    length (heap w') = length (heap w) /\
    (forall r, r <> entry -> heap w' !! r = heap w !! r) /\
    (exists e', heap w' !! entry = Some e' /\ url e' = url e).
Proof.
  intros He. unfold _add_entry.
  set (q := if front then entry :: entries w else entries w ++ [entry]).
  set (w1 := with_entries (fun _ => q) w).
  assert (H1 : (if front
                then modify (with_entries (fun q => entry :: q))
                else modify (with_entries (fun q => q ++ [entry]))) w
               = (w1, Ok tt)).
  { subst w1 q. by destruct front. }
  unfold bind at 1. rewrite H1.
  destruct (lift_emit spec_of "entry-added" w1) as [em' Hem].
  unfold bind at 1. rewrite Hem. cbn [heap futures ready suspended journal entries loop w1 with_entries].
  set (w2 := {| heap := heap w; futures := futures w; ready := ready w;
                suspended := suspended w; journal := journal w;
                entries := q; emitter := em'; loop := loop w |}).
  unfold bind at 1. unfold peek at 1. unfold bind at 1, get, ret.
  cbn [entries w2].
  destruct (bool_decide (head q = Some entry)).
  - unfold bind. rewrite (get_ready_future_spec entry e w2 He).
    eexists. split; [reflexivity|]. rewrite requested_entries.
    split; [done|]. split; [by rewrite requested_heap_length|].
    split.
    + intros r Hr. by rewrite requested_heap_other.
    + unfold requested. destruct (is_downloaded e); cbn; [eauto|].
      eexists. split; [apply list_lookup_insert_eq; by eapply lookup_lt_Some|done].
  - exists w2. repeat split; eauto.
Qed.


End AddFacts.

Module ImportFacts.
Import Entry Playlist AddScenarios.

(** C2 on the listing [x1, x2, x3] whose second item cannot be built.
    Imported at the tail of an empty queue, the survivors come back, and
    are queued, as [x1, x3]. Imported at the head they come back, and
    are queued, as [x3, x1]: the loop runs over the listing itself and
    not over its reversed copy, so each survivor is put in front of the
    one before it, and the list that is returned is reversed at the
    end. *)
Theorem import_from_at_head_reverses :
  let at_tail := import_from quiet ytdl prepare "list" false [] empty_world in
  let at_head := import_from quiet ytdl prepare "list" true [] empty_world in
  (exists l, at_tail.2 = Ok (l, 1%Z)
             /\ urls at_tail.1 l = [VStr "x1"; VStr "x3"])
  /\ urls at_tail.1 (entries at_tail.1) = [VStr "x1"; VStr "x3"]
  /\ (exists l, at_head.2 = Ok (l, 1%Z)
                /\ urls at_head.1 l = [VStr "x3"; VStr "x1"])
  /\ urls at_head.1 (entries at_head.1) = [VStr "x3"; VStr "x1"].
Proof.
  vm_compute. split; [|split; [|split]]; try reflexivity;
    eexists; split; reflexivity.
Qed.
End ImportFacts.

Module EstimateFacts.
Import Entry Playlist PlaylistScenarios.

Lemma durations_ok w rs :
  Forall (fun r => is_Some (heap w !! r)) rs ->
  durations rs w = (w, Ok (map (duration_at w) rs)).
Proof.
  induction 1 as [|r rs [e He] _ IH]; [done|].
  assert (Hd : duration_at w r = duration e).
  { unfold duration_at. by rewrite He. }
  cbn [durations map]. unfold bind at 1. unfold deref at 1. rewrite He.
  unfold bind. rewrite IH, Hd. done.
Qed.

Lemma existsb_is_None vs :
  existsb is_None vs = true <-> Exists (fun v => v = VNone) vs.
Proof.
  rewrite existsb_exists, Exists_exists. split.
  - intros (v & Hin & Hv). exists v. split; [by apply list_elem_of_In|].
    by destruct v.
  - intros (v & Hin & ->). exists VNone. split; [by apply list_elem_of_In|done].
Qed.

Lemma py_sum_known {S} (vs : list Value) (acc : Z) (s : S) :
  Forall optional_int vs ->
  ~ Exists (fun v => v = VNone) vs ->
  py_sum acc vs s = (s, Ok (acc + total vs)%Z).
Proof.
  revert acc. induction vs as [|v vs IH]; intros acc Ht Hn; simpl.
  - unfold ret. by rewrite Z.add_0_r.
  - inversion Ht as [|? ? Hv Hvs]; subst.
    destruct Hv as [->|[z ->]].
    + exfalso. apply Hn. by left.
    + simpl. rewrite IH; [|done|].
      * unfold seconds. simpl. by rewrite Z.add_assoc.
      * intros H. apply Hn. by right.
Qed.

Lemma timedelta_not_invalid s m : timedelta s <> Raise (InvalidDataError m).
Proof. unfold timedelta. by destruct (_ && _). Qed.

(** C4. For a position from 1 on, over a queue whose durations are
    [None] or integers: [estimate_time_until] fails with
    [InvalidDataError] exactly when an entry strictly before the position
    has the duration [None], or an entry is accounted as playing (the
    player is not stopped and has a current entry) and its duration is
    [None]; otherwise it returns the sum of the durations strictly before
    the position, plus what is left of the entry accounted as playing. A
    duration of zero is a known duration. *)
Theorem estimate_time_until_spec (w : World) (pos : Z) (player : Player) :
  (1 <= pos <= maxsize + 1)%Z ->
  let before := take (Z.to_nat (pos - 1)) (entries w) in
  Forall (fun r => is_Some (heap w !! r)
                   /\ optional_int (duration_at w r)) before ->
  (forall cur, accounted player = Some cur ->
               is_Some (heap w !! cur)
               /\ optional_int (duration_at w cur)) ->
  let unknown :=
    Exists (fun r => duration_at w r = VNone) before
    \/ (exists cur, accounted player = Some cur
                    /\ duration_at w cur = VNone) in
  ((exists m, estimate_time_until pos player w
              = (w, Raise (InvalidDataError m))) <-> unknown)
  /\ (~ unknown ->
      estimate_time_until pos player w
      = (w, timedelta (total (map (duration_at w) before)
                       + remaining w player))).
Proof.
  intros Hpos before Hq Hc unknown.
  assert (Hrun :
    estimate_time_until pos player w =
    if existsb is_None (map (duration_at w) before)
    then (w, Raise (InvalidDataError "no duration data"))
    else match accounted player with
         | Some cur =>
             if is_None (duration_at w cur)
             then (w, Raise (InvalidDataError
                               "no duration data in current entry"))
             else (w, timedelta (total (map (duration_at w) before)
                                 + remaining w player))
         | None => (w, timedelta (total (map (duration_at w) before)
                                  + remaining w player))
         end).
  { unfold estimate_time_until, islice, bind.
    replace ((pos - 1 <? 0)%Z || (maxsize <? pos - 1)%Z) with false.
    2:{ symmetry. apply orb_false_iff. split; [apply Z.ltb_ge|apply Z.ltb_ge]; lia. }
    unfold get, ret. simpl. fold before.
    rewrite durations_ok.
    2:{ eapply Forall_impl; [exact Hq|]. by intros r [H _]. }
    destruct (existsb is_None (map (duration_at w) before)) eqn:Hex; [done|].
    rewrite py_sum_known.
    2:{ apply Forall_map. eapply Forall_impl; [exact Hq|]. by intros r [_ H]. }
    2:{ intros H. apply existsb_is_None in H. congruence. }
    unfold remaining, accounted in *.
    destruct (current_entry player) as [cur|] eqn:Hcur.
    - destruct (is_stopped player) eqn:Hst; simpl.
      + by rewrite Z.add_0_r.
      + destruct (Hc cur eq_refl) as [[e He] Ht].
        unfold deref, duration_at in *. rewrite He in *.
        destruct Ht as [->|[z ->]]; simpl; [done|].
        unfold seconds. simpl. done.
    - destruct (is_stopped player); simpl; by rewrite Z.add_0_r. }
  assert (Hbefore : existsb is_None (map (duration_at w) before) = true
                    <-> Exists (fun r => duration_at w r = VNone) before).
  { rewrite existsb_is_None, Exists_exists, Exists_exists. split.
    - intros (v & Hin & ->). apply list_elem_of_fmap in Hin as (r & Hr & Hin).
      eauto.
    - intros (r & Hin & Hr). exists VNone. split; [|done].
      apply list_elem_of_fmap. eauto. }
  split; [split|].
  - intros [m Hm]. rewrite Hrun in Hm.
    destruct (existsb is_None _) eqn:Hex.
    + left. by apply Hbefore.
    + destruct (accounted player) as [cur|] eqn:Hacc.
      * destruct (is_None (duration_at w cur)) eqn:Hn.
        -- right. exists cur. split; [done|].
           by destruct (duration_at w cur).
        -- inversion Hm as [Ht]. by apply timedelta_not_invalid in Ht.
      * inversion Hm as [Ht]. by apply timedelta_not_invalid in Ht.
  - intros [Hb|(cur & Hacc & Hcur)]; rewrite Hrun.
    + apply Hbefore in Hb. rewrite Hb. eauto.
    + destruct (existsb is_None _); [eauto|].
      rewrite Hacc, Hcur. simpl. eauto.
  - intros Hno. rewrite Hrun.
    destruct (existsb is_None _) eqn:Hex.
    + exfalso. apply Hno. left. by apply Hbefore.
    + destruct (accounted player) as [cur|] eqn:Hacc; [|done].
      destruct (is_None (duration_at w cur)) eqn:Hn; [|done].
      exfalso. apply Hno. right. exists cur. split; [done|].
      by destruct (duration_at w cur).
Qed.

Lemma estimate_time_until_spec_witness :
  estimate_time_until 3 (idle true 7) queue_zero = (queue_zero, Ok 45%Z).
Proof.
  destruct (estimate_time_until_spec queue_zero 3 (idle true 7))
    as [_ Hsum].
  - unfold maxsize. lia.
  - vm_compute.
    constructor; [split; [by eexists|right; by eexists]|].
    constructor; [split; [by eexists|right; by eexists]|].
    constructor.
  - intros cur Hcur. vm_compute in Hcur. discriminate.
  - rewrite Hsum; [reflexivity|].
    intros [Hq|(cur & Hcur & _)].
    + vm_compute in Hq. inversion Hq as [? ? H0|? ? Hq1]; subst.
      * discriminate.
      * inversion Hq1 as [? ? H1|? ? Hq2]; subst; [discriminate|].
        inversion Hq2.
    + vm_compute in Hcur. discriminate.
Defined.

(** C3, as the code has it. On the queue [e1(30), e2(45), e3(unknown)]
    with no entry accounted as playing, the wait for position 1 is 0
    seconds, for position 2 it is 30 seconds, for position 3 it is 75
    seconds (e3 is not before position 3), and the wait for position 4
    fails with [InvalidDataError]. *)
Theorem estimate_time_until_queue3 (stopped : bool) (progress : Z) :
  estimate_time_until 1 (idle stopped progress) queue3 = (queue3, Ok 0%Z)
  /\ estimate_time_until 2 (idle stopped progress) queue3
     = (queue3, Ok 30%Z)
  /\ estimate_time_until 3 (idle stopped progress) queue3
     = (queue3, Ok 75%Z)
  /\ estimate_time_until 4 (idle stopped progress) queue3
     = (queue3, Raise (InvalidDataError "no duration data")).
Proof. repeat split; reflexivity. Qed.

(** C3 as stated fails at position 3: the call returns 75 seconds. *)
Lemma estimate_time_until_queue3_position3 :
  estimate_time_until 3 (idle true 0) queue3 = (queue3, Ok 75%Z).
Proof. reflexivity. Qed.
End EstimateFacts.

Module NextFacts.
Import Entry Playlist EntryScenarios PlaylistScenarios WorldFacts FinishFacts.






End NextFacts.

Module SerializerFacts.
Import Entry Serializer SerializerScenarios WorldFacts FinishFacts.

Lemma agrees_ret {A} (a : A) : agrees (ret a) (Some a).
Proof. by intros w. Qed.

Lemma agrees_bind {A B} (c : M World A) (k : A -> M World B) o f :
  agrees c o -> (forall a, agrees (k a) (f a)) ->
  agrees (bind c k) (o ≫= f).
Proof.
  intros Hc Hk w. unfold bind. specialize (Hc w).
  destruct o as [a|]; simpl.
  - rewrite Hc. apply Hk.
  - destruct Hc as (x & -> & Hx). eauto.
Qed.

Lemma agrees_getitem data k : agrees (getitem data k) (lookup_key data k).
Proof.
  intros w. unfold getitem, lookup_key, ret, raise.
  destruct data; try (eexists; split; [reflexivity|done]).
  destruct (assoc k d); [done|]. eexists; split; [reflexivity|done].
Qed.

Lemma agrees_contains m k : agrees (contains m k) (has_key m k).
Proof.
  intros w. unfold contains, has_key, ret, raise.
  destruct m; try done; eexists; split; try reflexivity; done.
Qed.

Lemma agrees_if {A} (b : bool) (c1 c2 : M World A) o1 o2 :
  agrees c1 o1 -> agrees c2 o2 ->
  agrees (if b then c1 else c2) (if b then o1 else o2).
Proof. by destruct b. Qed.

(** Running a step that agrees with an option. *)
Lemma agrees_run {A B} (c : M World A) (k : A -> M World B) o w :
  agrees c o ->
  match o with
  | Some a => bind c k w = k a w
  | None => exists x, bind c k w = (w, Raise x) /\ is_exception x = true
  end.
Proof.
  intros Hc. specialize (Hc w). unfold bind. destruct o as [a|].
  - by rewrite Hc.
  - destruct Hc as (x & -> & Hx). eauto.
Qed.

Lemma agrees_save_videos h :
  agrees (save_videos_of h)
         match h with TheConfig b => Some b | _ => None end.
Proof.
  intros w. destruct h; try done; eexists; split; try reflexivity; done.
Qed.

Lemma agrees_download_folder h :
  agrees (download_folder_of h)
         match h with TheDownloader => Some tt | _ => None end.
Proof.
  intros w. destruct h; try done; eexists; split; try reflexivity; done.
Qed.

(** One step of a decoder body under its [try]: either the step
    raises, and the [except] clause answers [None], or the body goes
    on. *)
Ltac step lem :=
  let H := fresh "H" in
  match goal with
  | |- context [bind ?c ?k ?w] =>
      pose proof (agrees_run c k _ w lem) as H
  end;
  match type of H with
  | match ?o with _ => _ end =>
      let x := fresh "x" in
      destruct o as [x|]; simpl;
      [rewrite H; clear H
      |destruct H as (? & -> & ->); eexists; split; [reflexivity|done]]
  end.

Section Context.
Variable gv : string -> option Handle.
Variable le : string -> Located.
Variable ios : string -> option Z.
Hypothesis Hs : is_Some (gv "aiosession").
Hypothesis Hc : is_Some (gv "config").
Hypothesis Hd : is_Some (gv "downloader").
Hypothesis Hl : is_Some (gv "loop").

Lemma agrees_int v : agrees (int ios v) (int_of ios v).
Proof.
  intros w. unfold int, int_of, ret, raise.
  destruct v; try done; try (eexists; split; [reflexivity|done]).
  destruct (ios s); [done|]. eexists; split; [reflexivity|done].
Qed.

Lemma agrees_read_meta_key data key :
  agrees (read_meta_key ios data key) (meta_key_of ios data key).
Proof.
  unfold read_meta_key, meta_key_of.
  apply agrees_bind; [apply agrees_getitem|]. intros m.
  apply agrees_bind; [apply agrees_contains|]. intros [|].
  - apply agrees_bind; [apply agrees_getitem|]. intros m'.
    apply agrees_bind; [apply agrees_getitem|]. intros v.
    apply agrees_bind; [apply agrees_int|]. intros z.
    apply agrees_ret.
  - apply agrees_ret.
Qed.

Lemma agrees_read_meta data :
  agrees (read_meta ios data) (meta_of ios data).
Proof.
  unfold read_meta, meta_of.
  apply agrees_bind; [apply agrees_read_meta_key|]. intros c.
  apply agrees_bind; [apply agrees_read_meta_key|]. intros a.
  apply agrees_ret.
Qed.

(** The decoder of the URL class never raises: it rebuilds the entry
    [url_entry_of] describes, or returns [None] and changes nothing. *)
Lemma URLPlaylistEntry_deserialize_spec data w :
  exists w',
    URLPlaylistEntry_deserialize gv ios data w
    = (w', Ok match url_entry_of gv ios data with
              | Some _ => VRef (length (heap w))
              | None => VNone
              end)
    /\ heap w' = match url_entry_of gv ios data with
                 | Some e => heap w ++ [e]
                 | None => heap w
                 end.
Proof.
  destruct Hs as [hs Es], Hc as [hc Ec], Hd as [hd Ed], Hl as [hl El].
  unfold URLPlaylistEntry_deserialize, require, url_entry_of.
  rewrite Es, Ec, Ed, El.
  rewrite (bind_ok (ret hs) _ w w hs eq_refl).
  rewrite (bind_ok (ret hc) _ w w hc eq_refl).
  rewrite (bind_ok (ret hd) _ w w hd eq_refl).
  rewrite (bind_ok (ret hl) _ w w hl eq_refl).
  unfold try_except_Exception.
  step (agrees_getitem data "url").
  step (agrees_getitem data "title").
  step (agrees_getitem data "duration").
  step (agrees_save_videos hc).
  match goal with
  | |- context [bind (if ?b then _ else _) _ _] =>
      step (agrees_if b _ _ _ _ (agrees_getitem data "downloaded")
                      (agrees_ret (VBool false)))
  end.
  match goal with
  | |- context [bind (if ?b then _ else _) _ _] =>
      step (agrees_if b _ _ _ _ (agrees_getitem data "filename")
                      (agrees_ret VNone))
  end.
  step (agrees_getitem data "expected_filename").
  step (agrees_read_meta data).
  destruct hd;
    try (eexists; split; [reflexivity|done]).
  rewrite (bind_ok (download_folder_of TheDownloader) _ w w tt eq_refl).
  unfold new_URLPlaylistEntry.
  rewrite (bind_ok (alloc _) _ w _ _ eq_refl).
  erewrite (bind_ok (update _ _) _ _ _ tt).
  2:{ apply update_spec. cbn. apply lookup_snoc_length. }
  eexists. split; [reflexivity|]. cbn.
  by rewrite insert_snoc_length.
Qed.

Lemma StreamPlaylistEntry_deserialize_spec data w :
  exists w',
    StreamPlaylistEntry_deserialize gv ios data w
    = (w', Ok match stream_entry_of ios data with
              | Some _ => VRef (length (heap w))
              | None => VNone
              end)
    /\ heap w' = match stream_entry_of ios data with
                 | Some e => heap w ++ [e]
                 | None => heap w
                 end.
Proof.
  destruct Hs as [hs Es], Hc as [hc Ec], Hd as [hd Ed], Hl as [hl El].
  unfold StreamPlaylistEntry_deserialize, require, stream_entry_of.
  rewrite Es, Ec, Ed, El.
  rewrite (bind_ok (ret hs) _ w w hs eq_refl).
  rewrite (bind_ok (ret hc) _ w w hc eq_refl).
  rewrite (bind_ok (ret hd) _ w w hd eq_refl).
  rewrite (bind_ok (ret hl) _ w w hl eq_refl).
  unfold try_except_Exception.
  step (agrees_getitem data "url").
  step (agrees_getitem data "title").
  step (agrees_getitem data "destination").
  step (agrees_getitem data "filename").
  step (agrees_read_meta data).
  unfold new_StreamPlaylistEntry.
  rewrite (bind_ok (alloc _) _ w _ _ eq_refl).
  destruct (truthy x1); cbn [negb andb].
  - rewrite (bind_ok (ret tt) _ _ _ tt eq_refl).
    eexists. split; reflexivity.
  - destruct (truthy x2).
    + erewrite (bind_ok (update _ _) _ _ _ tt).
      2:{ apply update_spec. cbn. apply lookup_snoc_length. }
      eexists. split; [reflexivity|]. cbn.
      by rewrite insert_snoc_length.
    + rewrite (bind_ok (ret tt) _ _ _ tt eq_refl).
      eexists. split; reflexivity.
Qed.

Lemma has_all_signed d w :
  has_all (VDict d) _class_signature w = (w, Ok (signed d)).
Proof.
  unfold has_all, _class_signature, signed, bind, contains, ret.
  destruct (assoc "__class__" d); [|done].
  destruct (assoc "__module__" d); [|done].
  by destruct (assoc "data" d).
Qed.

(** The hook leaves a dict without the signature as it is. *)
Lemma deserialize_unsigned d w :
  signed d = false -> deserialize gv le ios (VDict d) w = (w, Ok (VDict d)).
Proof.
  intros Hd'. unfold deserialize.
  rewrite (bind_ok _ _ w w _ (has_all_signed d w)). by rewrite Hd'.
Qed.

Lemma map_in_order_id {A} (f : A -> M World A) (xs : list A) :
  Forall (fun x => forall w, f x w = (w, Ok x)) xs ->
  forall w, map_in_order f xs w = (w, Ok xs).
Proof.
  induction 1 as [|x xs Hx _ IH]; intros w; [done|].
  cbn [map_in_order]. rewrite (bind_ok _ _ w w x (Hx w)).
  by rewrite (bind_ok _ _ w w xs (IH w)).
Qed.

(** [json.loads] gives back a value none of whose dicts is signed. *)
Lemma loads_plain :
  forall v, plain v = true -> forall w, loads gv le ios v w = (w, Ok v).
Proof.
  fix IH 1. intros v Hv w. destruct v as [| | | |l|d| |]; try done.
  - cbn [loads]. erewrite bind_ok; [reflexivity|].
    apply map_in_order_id. cbn [plain] in Hv. clear w.
    induction l as [|x l IHl]; constructor.
    + intros w. apply IH. by apply andb_prop in Hv as [? _].
    + apply IHl. by apply andb_prop in Hv as [_ ?].
  - cbn [loads]. cbn [plain] in Hv. apply andb_prop in Hv as [Hv Hsig].
    erewrite bind_ok.
    + apply deserialize_unsigned. by apply negb_true_iff.
    + apply map_in_order_id. clear w Hsig.
      induction d as [|[k x] d IHd]; constructor.
      * intros w. apply andb_prop in Hv as [Hx _].
        by rewrite (bind_ok _ _ w w x (IH x Hx w)).
      * apply IHd. by apply andb_prop in Hv as [_ ?].
Qed.

(** The hook on a per-entry record. *)
Lemma deserialize_record module class payload w :
  deserialize gv le ios (record module class payload) w
  = match locateObj le (dotted module class) with
    | NotFound | NotAClass false | OtherClass =>
        (w, Ok (record module class payload))
    | NotAClass true => (w, Raise TypeError)
    | SerializableClass f => _deserialize gv ios f payload w
    end.
Proof.
  unfold deserialize, record.
  rewrite (bind_ok _ _ w w _ (has_all_signed _ w)). cbn.
  unfold bind, ret, dotted. cbn.
  by destruct (locateObj le _) as [|[]| |].
Qed.

Lemma loads_record module class payload w :
  plain payload = true ->
  loads gv le ios (record module class payload) w
  = deserialize gv le ios (record module class payload) w.
Proof.
  intros Hp. unfold record at 1. cbn [loads].
  erewrite bind_ok; [reflexivity|].
  apply map_in_order_id.
  repeat constructor; intros w';
    by rewrite (bind_ok _ _ w' w' _ (loads_plain _ ltac:(done) w')).
Qed.

(** A tolerated record is decoded without raising, and adds at most
    its own entry to the store. *)
Lemma loads_tolerated module class payload w :
  plain payload = true ->
  fate gv le ios module class payload <> Aborts ->
  exists w' item,
    loads gv le ios (record module class payload) w = (w', Ok item)
    /\ match fate gv le ios module class payload with
       | Kept => item = record module class payload
                 /\ heap w' = heap w
       | Dropped => item = VNone /\ heap w' = heap w
       | Rebuilt e => item = VRef (length (heap w))
                      /\ heap w' = heap w ++ [e]
       | Aborts => False
       end.
Proof.
  intros Hp Hf. rewrite (loads_record _ _ _ _ Hp), deserialize_record.
  unfold fate in *.
  destruct (locateObj le (dotted module class)) as [|[]| |[| |[]|]];
    try done; try by eexists _, _.
  - cbn [_deserialize].
    destruct (URLPlaylistEntry_deserialize_spec payload w)
      as (w' & -> & Hh).
    exists w'. destruct (url_entry_of gv ios payload); by eexists.
  - cbn [_deserialize].
    destruct (StreamPlaylistEntry_deserialize_spec payload w)
      as (w' & -> & Hh).
    exists w'. destruct (stream_entry_of ios payload); by eexists.
Qed.

Lemma decoded_later w' rec item extra :
  decoded gv le ios w' rec item ->
  decoded gv le ios (with_heap (fun h => h ++ extra) w') rec item.
Proof.
  intros (m & c & p & -> & Hf). exists m, c, p. split; [done|].
  destruct (fate gv le ios m c p); try done.
  destruct Hf as (r & -> & Hr). exists r. split; [done|].
  cbn. by apply lookup_app_l_Some.
Qed.




Lemma loads_entries_dict records w w' items :
  map_in_order (loads gv le ios) records w = (w', Ok items) ->
  loads gv le ios (VDict [("entries", VList records)]) w
  = (w', Ok (VDict [("entries", VList items)])).
Proof.
  intros Hrun. cbn [loads map_in_order]. unfold bind at 1.
  unfold bind at 1. unfold bind at 1. unfold bind at 1.
  rewrite Hrun. unfold ret at 1. unfold ret at 1. unfold bind at 1.
  unfold ret at 1. unfold ret at 1.
  by apply deserialize_unsigned.
Qed.

Lemma loads_queue_record records w w' items :
  map_in_order (loads gv le ios) records w = (w', Ok items) ->
  loads gv le ios (queue_record records) w = (w', Ok (VPlaylist items)).
Proof.
  intros Hrun. unfold queue_record, record.
  change (loads gv le ios (VDict ?d))
    with (d' <- map_in_order
                  (fun kv => match kv with
                             | (k, x) => y <- loads gv le ios x ;;
                                         ret (k, y)
                             end) d ;;
          deserialize gv le ios (VDict d')).
  cbn [map_in_order].
  rewrite (bind_ok _ _ w w'
             [("__class__", VStr "Playlist");
              ("__module__", VStr "musicbot.playlist");
              ("data", VDict [("entries", VList items)])]).
  - fold (record "musicbot.playlist" "Playlist"
                 (VDict [("entries", VList items)])).
    rewrite deserialize_record.
    change (locateObj le (dotted "musicbot.playlist" "Playlist"))
      with (SerializableClass PlaylistClass).
    cbn [_deserialize]. unfold Playlist_deserialize, require.
    destruct Hs as [hs ->], Hc as [hc ->], Hd as [hd ->], Hl as [hl ->].
    reflexivity.
  - rewrite (bind_ok _ _ w w ("__class__", VStr "Playlist") eq_refl).
    erewrite bind_ok; [reflexivity|].
    rewrite (bind_ok _ _ w w ("__module__", VStr "musicbot.playlist")
                     eq_refl).
    erewrite bind_ok; [reflexivity|].
    erewrite bind_ok; [reflexivity|].
    erewrite bind_ok; [reflexivity|].
    by apply loads_entries_dict.
Qed.

End Context.


End SerializerFacts.


(** ** Further properties of the code *)

Module RegistryFacts.
Import EventEmitter EmitterScenarios RegistryScenarios EventEmitterFacts.

Lemma list_remove_absent cb l : cb ∉ l -> list_remove cb l = None.
Proof.
  induction l as [|y l IH]; intros Hn; [done|].
  apply not_elem_of_cons in Hn as [Hne Hn]. cbn.
  destruct (decide (y = cb)) as [->|_]; [done|]. by rewrite IH.
Qed.

Lemma list_remove_first cb l1 l2 :
  cb ∉ l1 -> list_remove cb (l1 ++ cb :: l2) = Some (l1 ++ l2).
Proof.
  induction l1 as [|y l1 IH]; intros Hn; cbn.
  - by destruct (decide (cb = cb)).
  - apply not_elem_of_cons in Hn as [Hne Hn].
    destruct (decide (y = cb)) as [->|_]; [done|]. by rewrite IH.
Qed.

(** X1. [off] takes the earliest registration of the callback out of the
    list of its event and keeps the other registrations in their order;
    a list that becomes empty is deleted with its key. No callback is
    called. *)
Theorem off_removes_earliest_registration
        (event : string) (cb : Callback) (l1 l2 : list Callback)
        (em : Emitter) :
  _events em !! event = Some (l1 ++ cb :: l2) ->
  cb ∉ l1 ->
  off event cb em
  = ({| _events := match l1 ++ l2 with
                   | [] => delete event (_events em)
                   | _ => <[event := l1 ++ l2]> (_events em)
                   end;
        effects := effects em |}, Ok tt).
Proof.
  intros He Hn.
  unfold off, events_getitem, bind, get, set_events, modify, ret. cbn.
  rewrite He, (list_remove_first _ _ _ Hn). cbn.
  destruct (l1 ++ l2) as [|c l]; cbn; [|done].
  by rewrite delete_insert_eq.
Qed.

Lemma off_removes_earliest_registration_witness :
  off "e" (Fn 1) (on "e" (Fn 1) (on "e" (Fn 0) (on "e" (Fn 1) init).1).1).1
  = ({| _events := {["e" := [Fn 0; Fn 1]]}; effects := [] |}, Ok tt).
Proof.
  rewrite (off_removes_earliest_registration "e" (Fn 1) [] [Fn 0; Fn 1]).
  - reflexivity.
  - reflexivity.
  - apply not_elem_of_nil.
Defined.

(** X2. [off] for a callback that is not registered for the event raises
    [ValueError]. When the event itself was not registered, the lookup
    in the [defaultdict] has by then registered it with an empty list,
    and the exception leaves that behind. *)
Theorem off_of_unregistered_callback_raises
        (event : string) (cb : Callback) (em : Emitter) :
  cb ∉ listeners em event ->
  off event cb em
  = ({| _events := match _events em !! event with
                   | Some _ => _events em
                   | None => <[event := []]> (_events em)
                   end;
        effects := effects em |}, Raise ValueError).
Proof.
  unfold listeners. intros Hn.
  unfold off, events_getitem, bind, get, set_events, modify, ret, raise.
  cbn. destruct (_events em !! event) as [l|] eqn:He; cbn in *.
  - rewrite (list_remove_absent _ _ Hn). by destruct em.
  - done.
Qed.

Lemma off_of_unregistered_callback_raises_witness :
  off "e" (Fn 0) init
  = ({| _events := {["e" := []]}; effects := [] |}, Raise ValueError).
Proof.
  rewrite (off_of_unregistered_callback_raises "e" (Fn 0) init).
  - reflexivity.
  - apply not_elem_of_nil.
Defined.

(** X3. Registering a callback that the event does not have yet and
    unregistering it again gives back the emitter as it was, whether the
    event had listeners or was not registered at all. *)
Theorem on_then_off_restores
        (event : string) (cb : Callback) (em : Emitter) :
  _events em !! event <> Some [] ->
  cb ∉ listeners em event ->
  (on event cb ;; off event cb) em = (em, Ok tt).
Proof.
  unfold listeners. intros Hne Hn.
  unfold on, off, events_getitem, bind, get, set_events, modify, ret.
  cbn. destruct em as [ev fx]. cbn in *.
  destruct (ev !! event) as [l|] eqn:He; cbn in *.
  - rewrite lookup_insert_eq.
    replace (l ++ [cb]) with (l ++ cb :: []) by done.
    rewrite (list_remove_first _ _ _ Hn), app_nil_r. cbn.
    destruct l as [|c l]; [done|]. cbn.
    by rewrite insert_insert_eq, insert_id.
  - rewrite lookup_insert_eq. cbn.
    destruct (decide (cb = cb)); [|done]. cbn.
    rewrite delete_insert_eq, delete_insert_eq, delete_insert_eq.
    by rewrite delete_id.
Qed.

Lemma on_then_off_restores_witness :
  (on "e" (Fn 0) ;; off "e" (Fn 0)) init = (init, Ok tt).
Proof.
  apply (on_then_off_restores "e" (Fn 0) init).
  - discriminate.
  - apply not_elem_of_nil.
Defined.

(** X5. A callback registered with [on] is called after the callbacks the
    event had before: the publish that follows calls those in their
    order, then the new one, and gets to it whatever the others did. *)
Theorem on_registers_last
        (spec_of : FnId -> FnSpec) (event : string) (cb : Callback)
        (em : Emitter) :
  exists em' tr,
    (on event cb ;; emit spec_of event) em = (em', Ok tt)
    /\ effects em' = effects em ++ tr
    /\ invocations tr = listeners em event ++ [cb]
    /\ reached spec_of cb tr.
Proof.
  unfold listeners.
  assert (Hon : exists em1,
             on event cb em = (em1, Ok tt)
             /\ effects em1 = effects em
             /\ _events em1 !! event
                = Some (default [] (_events em !! event) ++ [cb])).
  { unfold on, events_getitem, bind, get, set_events, modify, ret. cbn.
    destruct (_events em !! event) as [l|]; cbn;
      (eexists; split; [reflexivity|]; split; [done|]; cbn;
       by rewrite lookup_insert_eq). }
  destruct Hon as (em1 & Hon & Hfx & Hev).
  rewrite (WorldFacts.bind_ok _ _ _ _ _ Hon).
  unfold emit, bind, get. cbn. rewrite Hev.
  destruct (for_each_emit_one spec_of
              (default [] (_events em !! event) ++ [cb]) em1)
    as (em' & tr & Hrun & Heff & Hinv & Hall).
  exists em', tr. rewrite Hrun, Heff, Hfx. repeat split; try done.
  apply Forall_app in Hall as [_ Hcb]. by inversion Hcb.
Qed.
End RegistryFacts.

Module RetryFacts.
Import Downloader DownloaderScenarios.

(** X6. With a callable [on_error] and [retry_on_error] set, an [Exception]
    raised by the extraction goes to the hook and the extraction is then
    asked again, once, of the [YoutubeDL] object that ignores errors;
    what that second extraction returns or raises is the outcome of the
    call. *)
Theorem extract_info_retries_with_safe_ytdl
        (ytdl : Ytdl -> Args -> Res Value) (a : Args) (h : Hook)
        (e : Exn) (l : Loop) :
  callable h = true ->
  ytdl unsafe_ytdl a = Raise e ->
  is_exception e = true ->
  extract_info ytdl a h true l
  = (l ++ [RunInExecutor unsafe_ytdl a; routed h e;
           RunInExecutor safe_ytdl a],
     ytdl safe_ytdl a).
Proof.
  intros Hc He Hx.
  unfold extract_info, try_except_Exception, safe_extract_info,
    run_in_executor, bind, ask, modify, ret, routed.
  rewrite Hc. simpl. rewrite He, Hx.
  destruct h; simpl in *; try discriminate;
    rewrite <- !app_assoc; simpl; by destruct (ytdl safe_ytdl a).
Qed.

Lemma extract_info_retries_with_safe_ytdl_witness :
  extract_info (fun y _ => match y with
                           | unsafe_ytdl => Raise (External 7)
                           | safe_ytdl => Ok VNone
                           end)
               {| arg_url := VStr "u"; download := true; process := true |}
               (CoroutineFunction 1) true []
  = ([RunInExecutor unsafe_ytdl
        {| arg_url := VStr "u"; download := true; process := true |};
      EnsureFutureCall (CoroutineFunction 1) (External 7);
      RunInExecutor safe_ytdl
        {| arg_url := VStr "u"; download := true; process := true |}],
     Ok VNone).
Proof.
  apply (extract_info_retries_with_safe_ytdl
           (fun y _ => match y with
                       | unsafe_ytdl => Raise (External 7)
                       | safe_ytdl => Ok VNone
                       end)
           {| arg_url := VStr "u"; download := true; process := true |}
           (CoroutineFunction 1) (External 7) []); reflexivity.
Defined.

(** X7. The hook comes in only for an [Exception] and only when it is
    callable. Without a callable [on_error], and also with one when the
    extraction returns or ends in an exception outside [Exception] (a
    cancellation, an interrupt), the call is the extraction itself: one
    request to the thread pool, whose result or exception is the
    outcome, and [retry_on_error] has no effect. *)
Theorem extract_info_passes_through
        (ytdl : Ytdl -> Args -> Res Value) (a : Args) (h : Hook)
        (retry_on_error : bool) (l : Loop) :
  callable h = false
  \/ match ytdl unsafe_ytdl a with
     | Ok _ => True
     | Raise e => is_exception e = false
     end ->
  extract_info ytdl a h retry_on_error l
  = (l ++ [RunInExecutor unsafe_ytdl a], ytdl unsafe_ytdl a).
Proof.
  intros Hr.
  unfold extract_info, try_except_Exception, run_in_executor, bind, ask,
    modify.
  destruct (callable h); simpl;
    destruct (ytdl unsafe_ytdl a) as [v|e]; try done.
  destruct Hr as [?|Hr]; [done|]. by rewrite Hr.
Qed.

Lemma extract_info_passes_through_witness :
  extract_info (fun _ _ => Raise (BaseExternal 2))
               {| arg_url := VStr "u"; download := false; process := true |}
               (Function 1) true []
  = ([RunInExecutor unsafe_ytdl
        {| arg_url := VStr "u"; download := false; process := true |}],
     Raise (BaseExternal 2)).
Proof.
  apply (extract_info_passes_through
           (fun _ _ => Raise (BaseExternal 2))
           {| arg_url := VStr "u"; download := false; process := true |}
           (Function 1) true []).
  right. reflexivity.
Defined.
End RetryFacts.

Module RequestFacts.
Import Entry EntryScenarios RequestScenarios WorldFacts FinishFacts
       DownloadFacts.

Lemma set_waiting_futures_same e :
  set_waiting_futures (_waiting_futures e) e = e.
Proof. by destruct e. Qed.

Lemma request_spec n : forall r e w,
  heap w !! r = Some e -> is_downloaded e = false ->
  request n r w = (asked n r e w, Ok (seq (length (futures w)) n)).
Proof.
  induction n as [|n IH]; intros r e w He Hd.
  - cbn. unfold ret, asked. cbn. rewrite !app_nil_r.
    rewrite set_waiting_futures_same, list_insert_id by done.
    by destruct w.
  - cbn [request].
    rewrite (bind_ok _ _ _ _ _ (get_ready_future_spec r e w He)).
    set (e' := set_waiting_futures
                 (_waiting_futures e ++ [length (futures w)]) e).
    assert (Hw' : requested r e w
                  = with_ready (fun q => q ++ [Download r])
                      (with_heap (fun h => <[r := e']> h)
                         (with_futures (fun fs => fs ++ [Pending]) w))).
    { unfold requested. by rewrite Hd. }
    rewrite Hw'.
    erewrite bind_ok.
    2:{ apply (IH r e').
        - cbn. apply list_lookup_insert_eq. by eapply lookup_lt_Some.
        - by destruct e. }
    unfold ret. f_equal.
    + unfold asked. cbn. rewrite length_app, Nat.add_1_r. cbn.
      rewrite list_insert_insert_eq, <- !app_assoc. by destruct e.
    + cbn. by rewrite length_app, Nat.add_1_r.
Qed.

Lemma start_guarded now r e w :
  heap w !! r = Some e -> class e = URLPlaylistEntry ->
  _is_downloading e = true ->
  start now (Download r) w = (w, Ok tt).
Proof.
  intros He Hc Hf. unfold start, try_except.
  rewrite (bind_ok (deref r) _ w w e) by (unfold deref; by rewrite He).
  rewrite Hc. by rewrite (url_download_guard (now r) r e w He Hf).
Qed.

Lemma for_each_start_guarded now r e w n :
  heap w !! r = Some e -> class e = URLPlaylistEntry ->
  _is_downloading e = true ->
  for_each (replicate n (Download r)) (start now) w = (w, Ok tt).
Proof.
  intros He Hc Hf. induction n as [|n IH]; [done|].
  cbn [replicate for_each].
  by rewrite (bind_ok _ _ _ _ _ (start_guarded now r e w He Hc Hf)).
Qed.

(** The first of the tasks enters the body and suspends; the guard
    ends the others. *)
Lemma run_ready_tasks now n r e w :
  heap w !! r = Some e -> class e = URLPlaylistEntry ->
  _is_downloading e = false -> now r = None ->
  ready w = replicate (S n) (Download r) ->
  run_ready now w
  = ({| heap := <[r := set_is_downloading true e]> (heap w);
        futures := futures w; ready := [];
        suspended := suspended w ++ [URLBody r];
        journal := journal w ++ [DownloadBegun r];
        entries := entries w; emitter := emitter w; loop := loop w |},
     Ok tt).
Proof.
  intros He Hc Hf Hnow Hready.
  unfold run_ready. unfold bind at 1. unfold get.
  unfold bind at 1. unfold modify at 1. rewrite Hready.
  cbn [replicate for_each].
  set (w0 := with_ready (fun _ => []) w).
  assert (He0 : heap w0 !! r = Some e) by done.
  assert (Hstart : start now (Download r) w0
                   = ({| heap := <[r := set_is_downloading true e]> (heap w);
                         futures := futures w; ready := [];
                         suspended := suspended w ++ [URLBody r];
                         journal := journal w ++ [DownloadBegun r];
                         entries := entries w; emitter := emitter w;
                         loop := loop w |}, Ok tt)).
  { unfold start, try_except.
    rewrite (bind_ok (deref r) _ w0 w0 e) by (unfold deref; by rewrite He0).
    rewrite Hc. unfold url_download.
    rewrite (bind_ok (deref r) _ w0 w0 e) by (unfold deref; by rewrite He0).
    rewrite Hf, Hnow.
    rewrite (bind_ok _ _ _ _ _ (update_spec r _ e w0 He0)).
    reflexivity. }
  rewrite (bind_ok _ _ _ _ _ Hstart).
  eapply for_each_start_guarded; cbn.
  - apply list_lookup_insert_eq. by eapply lookup_lt_Some.
  - by destruct e.
  - by destruct e.
Qed.
Lemma resume_url_body i r o w :
  suspended w !! i = Some (URLBody r) ->
  resume i (URLAnswer o) w
  = try_except (url_finish r o) (fun x => tell (TaskFailed r x))
               (with_suspended (delete i) w).
Proof. intros Hs. unfold resume, bind, get, modify. by rewrite Hs. Qed.

(** X8. Any number of readiness requests for a URL entry that is not
    downloaded, made before the loop runs, start one download when its
    body has to wait for outside work: the first task enters the body,
    the guard on [_is_downloading] ends the others. Each request got a
    future of its own, and the end of that one download resolves them
    all alike: with the entry when it ends normally, with the exception
    when it ends in an [Exception]. *)
Theorem url_requests_share_one_download
        (n : nat) (now : EntryRef -> option URLOutcome)
        (r : EntryRef) (e : Entry) (w : World) :
  heap w !! r = Some e ->
  class e = URLPlaylistEntry ->
  is_downloaded e = false ->
  _is_downloading e = false ->
  Forall (fun f => f < length (futures w)) (_waiting_futures e) ->
  ready w = [] ->
  now r = None ->
  0 < n ->
  let handed_out := seq (length (futures w)) n in
  exists w1 w2,
    request n r w = (w1, Ok handed_out)
    /\ run_ready now w1 = (w2, Ok tt)
    /\ executions r (journal w2) = S (executions r (journal w))
    /\ in_flight r w2 = S (in_flight r w)
    /\ ready w2 = []
    /\ (forall fname probed aopts,
          exists w3,
            resume (length (suspended w))
                   (URLAnswer (Finished fname probed aopts)) w2
            = (w3, Ok tt)
            /\ Forall (fun f => futures w3 !! f = Some (Result r))
                      handed_out
            /\ in_flight r w3 = in_flight r w
            /\ ready w3 = [])
    /\ (forall x fname probed,
          is_exception x = true ->
          exists w3,
            resume (length (suspended w))
                   (URLAnswer (Raised x fname probed)) w2
            = (w3, Ok tt)
            /\ Forall (fun f => futures w3 !! f = Some (Failed x))
                      handed_out
            /\ in_flight r w3 = in_flight r w
            /\ ready w3 = []).
Proof.
  intros He Hc Hd Hf Hknown Hready Hnow Hn handed_out.
  destruct n as [|m]; [lia|].
  set (e1 := set_waiting_futures (_waiting_futures e ++ handed_out) e).
  set (e2 := set_is_downloading true e1).
  assert (Hr : r < length (heap w)) by by eapply lookup_lt_Some.
  exists (asked (S m) r e w). eexists.
  split; [by apply request_spec|].
  split.
  { apply (run_ready_tasks now m r e1).
    - cbn. by apply list_lookup_insert_eq.
    - by destruct e.
    - by destruct e.
    - done.
    - cbn [asked ready]. by rewrite Hready. }
  cbn [journal suspended ready].
  split; [rewrite executions_app; cbn; rewrite bool_decide_eq_true_2 by done;
          lia|].
  split.
  { unfold in_flight. cbn [suspended]. rewrite filter_app, length_app.
    cbn. rewrite decide_True by done. cbn. lia. }
  split; [done|].
  match goal with
  | |- context [resume _ _ ?x] => set (w2 := x)
  end.
  assert (Hs : suspended w2 !! length (suspended w) = Some (URLBody r))
    by apply lookup_snoc_length.
  set (w2' := with_suspended (delete (length (suspended w))) w2).
  assert (He2 : heap w2' !! r = Some e2).
  { cbn. rewrite list_lookup_insert_eq; [done|]. by rewrite length_insert. }
  assert (Hfuts : futures w2' = futures w ++ replicate (S m) Pending) by done.
  assert (Hknown2 : Forall (fun f => f < length (futures w2'))
                           (_waiting_futures e2)).
  { rewrite Hfuts, length_app, length_replicate.
    replace (_waiting_futures e2) with (_waiting_futures e ++ handed_out)
      by by destruct e.
    apply Forall_app. split.
    - eapply Forall_impl; [exact Hknown|]. cbn. intros; lia.
    - apply Forall_forall. intros f Hin. apply elem_of_seq in Hin. lia. }
  assert (Hsusp : suspended w2' = suspended w).
  { cbn. by rewrite delete_middle, app_nil_r. }
  assert (Hpending : forall f, In f handed_out ->
                               futures w2' !! f = Some Pending).
  { intros f Hin. apply list_elem_of_In, elem_of_seq in Hin.
    rewrite Hfuts, lookup_app_r by lia.
    apply lookup_replicate_2. lia. }
  assert (Hwaits : forall f, In f handed_out -> In f (_waiting_futures e2)).
  { intros f Hin.
    replace (_waiting_futures e2) with (_waiting_futures e ++ handed_out)
      by by destruct e.
    apply in_or_app. by right. }
  split.
  - intros fname probed aopts.
    destruct (url_finish_finished r e2 fname probed aopts w2' He2 Hknown2)
      as (w3 & Hrun & Hfs & _ & Hrd & Hsp & _).
    exists w3. rewrite (resume_url_body _ _ _ _ Hs).
    unfold try_except. fold w2'. rewrite Hrun.
    split; [done|]. split; [|split].
    + apply Forall_forall. intros f Hin. apply list_elem_of_In in Hin.
      rewrite Hfs. apply settle_pending; [discriminate|auto|auto].
    + unfold in_flight. by rewrite Hsp, Hsusp.
    + by rewrite Hrd.
  - intros x fname probed Hx.
    destruct (url_finish_raised r e2 x fname probed w2' He2 Hknown2 Hx)
      as (w3 & Hrun & Hfs & _ & Hrd & Hsp & _).
    exists w3. rewrite (resume_url_body _ _ _ _ Hs).
    unfold try_except. fold w2'. rewrite Hrun.
    split; [done|]. split; [|split].
    + apply Forall_forall. intros f Hin. apply list_elem_of_In in Hin.
      rewrite Hfs. apply settle_pending; [discriminate|auto|auto].
    + unfold in_flight. by rewrite Hsp, Hsusp.
    + by rewrite Hrd.
Qed.
Lemma url_requests_share_one_download_witness :
  exists w1 w2,
    request 3 0 PlaylistScenarios.queue_ab = (w1, Ok [0; 1; 2])
    /\ run_ready never w1 = (w2, Ok tt)
    /\ executions 0 (journal w2) = 1.
Proof.
  destruct (url_requests_share_one_download
              3 never 0 (PlaylistScenarios.url_entry "a" (VInt 1))
              PlaylistScenarios.queue_ab)
    as (w1 & w2 & H1 & H2 & H3 & _);
    try reflexivity; [constructor|lia|].
  by exists w1, w2.
Defined.
End RequestFacts.

Module StreamFacts.
Import Entry EntryScenarios WorldFacts FinishFacts.

Lemma deref_spec r e w : heap w !! r = Some e -> deref r w = (w, Ok e).
Proof. intros He. unfold deref. by rewrite He. Qed.

(** The extraction a stream entry asks for. *)
Lemma stream_download_spec r e fallback w :
  heap w !! r = Some e ->
  stream_download r fallback w
  = ({| heap := <[r := set_is_downloading true e]> (heap w);
        futures := futures w; ready := ready w;
        suspended := suspended w ++ [StreamExtract r fallback];
        journal := journal w
                   ++ [ExtractInfo r
                         {| Downloader.arg_url :=
                              if fallback then destination e else url e;
                            Downloader.download := false;
                            Downloader.process := true |}];
        entries := entries w; emitter := emitter w; loop := loop w |},
     Ok tt).
Proof.
  intros He. unfold stream_download.
  rewrite (bind_ok _ _ _ _ _ (update_spec r _ e w He)).
  erewrite bind_ok.
  2:{ apply deref_spec. cbn. apply list_lookup_insert_eq.
      by eapply lookup_lt_Some. }
  by destruct e.
Qed.

(** X9. The download of a stream entry falls back on its destination once.
    When the extraction from [url] ends in an [Exception] and the entry
    has a destination, the extraction is asked again from the
    destination, with the entry still marked as downloading; when that
    one ends in an [Exception] too, or when there is no destination,
    the coroutine ends in [ExtractionError], nothing more is asked, and
    the mark is taken off. *)
Theorem stream_download_falls_back_once
        (r : EntryRef) (e : Entry) (x : Exn) (w : World) :
  heap w !! r = Some e ->
  is_exception x = true ->
  let failed :=
    ({| heap := <[r := set_is_downloading false e]> (heap w);
        futures := futures w; ready := ready w; suspended := suspended w;
        journal := journal w; entries := entries w; emitter := emitter w;
        loop := loop w |},
     Raise (ExtractionErrorFrom "" x) : Res unit) in
  stream_resume r false (Raise x) w
  = (if truthy (destination e)
     then ({| heap := <[r := set_is_downloading true e]> (heap w);
              futures := futures w; ready := ready w;
              suspended := suspended w ++ [StreamExtract r true];
              journal := journal w
                         ++ [ExtractInfo r
                               {| Downloader.arg_url := destination e;
                                  Downloader.download := false;
                                  Downloader.process := true |}];
              entries := entries w; emitter := emitter w;
              loop := loop w |}, Ok tt)
     else failed)
  /\ stream_resume r true (Raise x) w = failed.
Proof.
  intros He Hx failed. subst failed.
  assert (Hr : r < length (heap w)) by by eapply lookup_lt_Some.
  assert (Hfail : try_finally (raise (ExtractionErrorFrom "" x))
                              (update r (set_is_downloading false)) w
                  = ({| heap := <[r := set_is_downloading false e]> (heap w);
                        futures := futures w; ready := ready w;
                        suspended := suspended w; journal := journal w;
                        entries := entries w; emitter := emitter w;
                        loop := loop w |},
                     Raise (ExtractionErrorFrom "" x) : Res unit)).
  { unfold try_finally, raise. by rewrite (update_spec r _ e w He). }
  split.
  - unfold stream_resume. rewrite Hx.
    rewrite (bind_ok _ _ _ _ _ (deref_spec r e w He)). cbn [negb andb].
    destruct (truthy (destination e)).
    + by apply stream_download_spec.
    + exact Hfail.
  - unfold stream_resume. rewrite Hx.
    rewrite (bind_ok _ _ _ _ _ (deref_spec r e w He)). cbn [negb andb].
    unfold try_finally at 1. rewrite Hfail.
    erewrite update_spec.
    2:{ cbn. by apply list_lookup_insert_eq. }
    unfold with_heap. cbn. rewrite list_insert_insert_eq. by destruct e.
Qed.
Lemma stream_download_falls_back_once_witness :
  (stream_resume 0 true (Raise (External 1))
     (new_StreamPlaylistEntry (VStr "u") (VStr "t") (VStr "d") []
                              empty_world).1).2
  = Raise (ExtractionErrorFrom "" (External 1)).
Proof.
  destruct (stream_download_falls_back_once
              0 _ (External 1)
              (new_StreamPlaylistEntry (VStr "u") (VStr "t") (VStr "d") []
                                       empty_world).1
              eq_refl eq_refl) as [_ H].
  by rewrite H.
Defined.

(** X10. A stream entry built with a destination has its file name from the
    start, so it is downloaded as soon as it exists: a readiness request
    is answered with a future that already holds the entry, and no
    download is scheduled for it. *)
Theorem stream_with_destination_is_ready
        (url title destination : Value) (meta : list (string * Z))
        (w : World) :
  truthy destination = true ->
  exists w',
    (entry <- new_StreamPlaylistEntry url title destination meta ;;
     get_ready_future entry) w
    = (w', Ok (length (futures w)))
    /\ futures w' = futures w ++ [Result (length (heap w))]
    /\ ready w' = ready w
    /\ suspended w' = suspended w
    /\ exists e, heap w' = heap w ++ [e]
                 /\ filename e = destination
                 /\ is_downloaded e = true
                 /\ _waiting_futures e = [].
Proof.
  intros Ht. unfold new_StreamPlaylistEntry. rewrite Ht.
  rewrite (bind_ok (alloc _) _ w _ _ eq_refl).
  erewrite get_ready_future_spec.
  2:{ cbn. apply lookup_snoc_length. }
  unfold requested, is_downloaded. cbn. rewrite Ht. cbn.
  eexists. split; [reflexivity|]. cbn.
  split; [done|]. split; [done|]. split; [done|].
  eexists. split; [reflexivity|]. cbn. by rewrite Ht.
Qed.

Lemma stream_with_destination_is_ready_witness :
  exists w',
    (entry <- new_StreamPlaylistEntry (VStr "u") (VStr "t") (VStr "d") [] ;;
     get_ready_future entry) empty_world
    = (w', Ok 0)
    /\ futures w' = [Result 0] /\ ready w' = [].
Proof.
  destruct (stream_with_destination_is_ready
              (VStr "u") (VStr "t") (VStr "d") [] empty_world eq_refl)
    as (w' & H1 & H2 & H3 & _).
  by exists w'.
Defined.

(** X11. What [_for_each_future] does with [future.set_result(self)] or
    [future.set_exception(e)] as its callback. It ends normally and
    leaves the entry with no waiter; every waiter that was pending has
    the new state; a future that was cancelled, or was resolved before
    (where the callback raises [InvalidStateError], which is absorbed),
    is as it was, and so is every future the entry did not wait on. *)
Theorem for_each_future_resolves_pending_waiters
        (r : EntryRef) (e : Entry) (s : FutureState) (w : World) :
  heap w !! r = Some e ->
  Forall (fun f => f < length (futures w)) (_waiting_futures e) ->
  s <> Pending ->
  exists w',
    _for_each_future r (fun future => resolve future s) w = (w', Ok tt)
    /\ heap w' = <[r := set_waiting_futures [] e]> (heap w)
    /\ (forall f, In f (_waiting_futures e) ->
                  futures w !! f = Some Pending ->
                  futures w' !! f = Some s)
    /\ (forall f st, futures w !! f = Some st -> st <> Pending ->
                     futures w' !! f = Some st)
    /\ (forall f, ~ In f (_waiting_futures e) ->
                  futures w' !! f = futures w !! f).
Proof.
  intros He Hknown Hs.
  destruct (_for_each_future_settles r e s w He Hknown) as (j & Hrun).
  eexists. split; [exact Hrun|]. cbn. split; [done|].
  split; [|split].
  - intros f Hin Hp. by apply settle_pending.
  - intros f st Hst Hne. by apply settle_keeps.
  - intros f Hn. by apply settle_other.
Qed.

Lemma for_each_future_resolves_pending_waiters_witness :
  exists w',
    _for_each_future 0 (fun future => resolve future (Result 0))
                     (ask_twice new_url empty_world).1
    = (w', Ok tt)
    /\ futures w' !! 1 = Some (Result 0).
Proof.
  destruct (for_each_future_resolves_pending_waiters
              0 _ (Result 0) (ask_twice new_url empty_world).1 eq_refl)
    as (w' & H1 & _ & H2 & _).
  - repeat constructor.
  - discriminate.
  - exists w'. split; [done|]. apply H2; [|reflexivity].
    right. by left.
Defined.
End StreamFacts.

Module PlainJsonFacts.
Import Entry Serializer SerializerScenarios SerializerFacts.

(** X12. The object hook leaves ordinary JSON alone: a value none of whose
    dicts has the three keys of a serialized object is read back as it
    is, whatever the context, and nothing is built. *)
Theorem loads_leaves_plain_json
        (gv : string -> option Handle) (le : string -> Located)
        (ios : string -> option Z) (v : Value) (w : World) :
  plain v = true -> loads gv le ios v w = (w, Ok v).
Proof. intros Hv. by apply loads_plain. Qed.

Lemma loads_leaves_plain_json_witness :
  loads (fun _ => None) nowhere no_int
        (VDict [("__class__", VStr "Playlist");
                ("entries", VList [VDict [("data", VInt 1)]; VNone])])
        empty_world
  = (empty_world,
     Ok (VDict [("__class__", VStr "Playlist");
                ("entries", VList [VDict [("data", VInt 1)]; VNone])])).
Proof.
  by apply (loads_leaves_plain_json (fun _ => None) nowhere no_int).
Defined.
End PlainJsonFacts.

Module HeadFacts.
Import Entry Playlist EntryScenarios WorldFacts AddFacts.

(** X13. Queuing prefetches the head and nothing else. An entry that is
    queued in front, or into an empty queue, is the next to be played
    and has its readiness asked for at once; an entry queued behind
    others is only queued: no future is made, no download is scheduled
    and no entry is changed. *)
Theorem _add_entry_prefetches_the_head
        (spec_of : EventEmitter.FnId -> EventEmitter.FnSpec)
        (entry : EntryRef) (front : bool) (e : Entry) (w : World) :
  heap w !! entry = Some e ->
  ~ In entry (entries w) ->
  exists w',
    _add_entry spec_of entry front w = (w', Ok tt)
    /\ entries w' = (if front then entry :: entries w
                     else entries w ++ [entry])
    /\ if front || bool_decide (entries w = [])
       then readiness_requested w w' entry (length (futures w))
       else futures w' = futures w /\ ready w' = ready w
            /\ heap w' = heap w.
Proof.
  intros He Hnew. unfold _add_entry.
  set (q := if front then entry :: entries w else entries w ++ [entry]).
  set (w1 := with_entries (fun _ => q) w).
  assert (H1 : (if front
                then modify (with_entries (fun q => entry :: q))
                else modify (with_entries (fun q => q ++ [entry]))) w
               = (w1, Ok tt)).
  { subst w1 q. by destruct front. }
  rewrite (bind_ok _ _ _ _ _ H1).
  destruct (lift_emit spec_of "entry-added" w1) as [em' Hem].
  rewrite (bind_ok _ _ _ _ _ Hem).
  cbn [heap futures ready suspended journal entries loop w1 with_entries].
  set (w2 := {| heap := heap w; futures := futures w; ready := ready w;
                suspended := suspended w; journal := journal w;
                entries := q; emitter := em'; loop := loop w |}).
  rewrite (bind_ok peek _ w2 w2 (head q) eq_refl).
  assert (Hhead : bool_decide (head q = Some entry)
                  = front || bool_decide (entries w = [])).
  { subst q. destruct front; cbn.
    - by rewrite bool_decide_eq_true_2.
    - destruct (entries w) as [|x rest] eqn:Hq; cbn.
      + by rewrite bool_decide_eq_true_2.
      + rewrite bool_decide_eq_false_2; [done|].
        intros [= ->]. apply Hnew. by left. }
  rewrite Hhead. destruct (front || bool_decide (entries w = [])).
  - rewrite (bind_ok _ _ _ _ _ (get_ready_future_spec entry e w2 He)).
    eexists. split; [reflexivity|]. split.
    + by rewrite requested_entries.
    + pose proof (requested_is_requested entry e w2 He) as Hreq.
      exact Hreq.
  - exists w2. by repeat split.
Qed.

Lemma _add_entry_prefetches_the_head_witness :
  exists w',
    _add_entry AddScenarios.quiet 2 false
               (with_entries (fun _ => [0; 1])
                             PlaylistScenarios.queue3)
    = (w', Ok tt)
    /\ entries w' = [0; 1; 2] /\ ready w' = [].
Proof.
  destruct (_add_entry_prefetches_the_head
              AddScenarios.quiet 2 false
              (PlaylistScenarios.url_entry "e3" VNone)
              (with_entries (fun _ => [0; 1]) PlaylistScenarios.queue3)
              eq_refl)
    as (w' & H1 & H2 & H3).
  - cbn. intros [?|[?|[]]]; lia.
  - exists w'. split; [exact H1|]. split; [exact H2|].
    cbn in H3. by destruct H3 as (_ & -> & _).
Defined.
End HeadFacts.

Module AfterDownloadFacts.
Import Entry EntryScenarios WorldFacts FinishFacts.

(** The end of a download that raised before it assigned anything. *)
Lemma url_finish_raised_bare r e x w :
  heap w !! r = Some e ->
  Forall (fun f => f < length (futures w)) (_waiting_futures e) ->
  is_exception x = true ->
  exists w',
    url_finish r (Raised x None None) w = (w', Ok tt) /\
    heap w' = <[r := set_is_downloading false (set_waiting_futures [] e)]>
                (heap w) /\
    ready w' = ready w.
Proof.
  intros He Hfs Hx. pose proof (lookup_lt_Some _ _ _ He) as Hr.
  unfold url_finish, try_finally, try_except_Exception.
  rewrite (bind_ok (ret tt) _ w w tt eq_refl).
  rewrite (bind_ok (ret tt) _ w w tt eq_refl).
  unfold raise at 1. rewrite Hx.
  unfold bind at 1. unfold tell at 1, modify.
  set (w2 := with_journal _ w).
  destruct (_for_each_future_settles r e (Failed x) w2 He Hfs) as [j Hj].
  unfold set_exception. rewrite Hj.
  set (w3 := with_journal _ _).
  erewrite (update_spec r _ _ w3).
  2:{ subst w3. cbn. by apply list_lookup_insert_eq. }
  eexists. split; [reflexivity|]. cbn.
  by rewrite list_insert_insert_eq.
Qed.

(** X14. What the end of a download means for the next readiness request.
    After a download that ended normally with a file name, the entry
    is downloaded: the next request is answered at once with a future
    that holds the entry, and nothing is scheduled. After a download
    that ended in an [Exception] before any file name was assigned,
    an entry that had no file name is still not downloaded and no
    longer marked as downloading: the next request waits again and
    schedules a new download. *)
Theorem next_request_after_a_download
        (r : EntryRef) (e : Entry) (w : World) :
  heap w !! r = Some e ->
  Forall (fun f => f < length (futures w)) (_waiting_futures e) ->
  (forall fname probed aopts,
      fname <> "" ->
      exists w1 w2,
        url_finish r (Finished fname probed aopts) w = (w1, Ok tt)
        /\ get_ready_future r w1 = (w2, Ok (length (futures w1)))
        /\ futures w2 = futures w1 ++ [Result r]
        /\ ready w2 = ready w)
  /\ (forall x,
        is_exception x = true ->
        truthy (filename e) = false ->
        exists w1 w2,
          url_finish r (Raised x None None) w = (w1, Ok tt)
          /\ get_ready_future r w1 = (w2, Ok (length (futures w1)))
          /\ futures w2 = futures w1 ++ [Pending]
          /\ ready w2 = ready w ++ [Download r]).
Proof.
  intros He Hknown.
  assert (Hr : r < length (heap w)) by by eapply lookup_lt_Some.
  split.
  - intros fname probed aopts Hfname.
    destruct (url_finish_finished r e fname probed aopts w He Hknown)
      as (w1 & Hrun & Hfs & Hheap & Hrd & _).
    set (e1 := set_is_downloading false
                 (set_waiting_futures []
                    (set_aoptions aopts
                       (probe probed (set_filename (VStr fname) e))))).
    assert (He1 : heap w1 !! r = Some e1).
    { rewrite Hheap. by apply list_lookup_insert_eq. }
    assert (Hdl : is_downloaded e1 = true).
    { assert (Hfn : negb (String.eqb fname "") = true).
      { by apply negb_true_iff, String.eqb_neq. }
      unfold e1, is_downloaded, probe.
      destruct (is_None (duration (set_filename (VStr fname) e)));
        cbn; exact Hfn. }
    exists w1. eexists. split; [done|].
    rewrite (get_ready_future_spec r e1 w1 He1).
    split; [reflexivity|]. unfold requested. rewrite Hdl. cbn.
    by rewrite Hrd.
  - intros x Hx Hfalsy.
    destruct (url_finish_raised_bare r e x w He Hknown Hx)
      as (w1 & Hrun & Hheap & Hrd).
    set (e1 := set_is_downloading false (set_waiting_futures [] e)).
    assert (He1 : heap w1 !! r = Some e1).
    { rewrite Hheap. by apply list_lookup_insert_eq. }
    assert (Hdl : is_downloaded e1 = false).
    { unfold e1, is_downloaded. cbn. exact Hfalsy. }
    exists w1. eexists. split; [done|].
    rewrite (get_ready_future_spec r e1 w1 He1).
    split; [reflexivity|]. unfold requested. rewrite Hdl. cbn.
    by rewrite Hrd.
Qed.

Lemma next_request_after_a_download_witness :
  exists w1 w2,
    url_finish 0 (Finished "audio_cache/video-1.m4a" VNone "-vn")
               (new_url empty_world).1
    = (w1, Ok tt)
    /\ get_ready_future 0 w1 = (w2, Ok 0)
    /\ futures w2 = [Result 0] /\ ready w2 = [].
Proof.
  destruct (next_request_after_a_download
              0 _ (new_url empty_world).1 eq_refl)
    as [H _]; [constructor|].
  destruct (H "audio_cache/video-1.m4a" VNone "-vn")
    as (w1 & w2 & H1 & H2 & H3 & H4); [done|].
  exists w1, w2. split; [exact H1|].
  assert (Hf : futures w1 = []).
  { apply (f_equal fst) in H1. cbn in H1. by rewrite <- H1. }
  rewrite Hf in *. by repeat split.
Defined.
End AfterDownloadFacts.

Module IndexFacts.
Import Entry Playlist Index IndexScenarios.
Local Open Scope Z_scope.

Lemma then_return {A B} (c : Step A) (k : A -> Step B) w w' a :
  c w = (w', Return a) -> then_ c k w = k a w'.
Proof. intros H. unfold then_. by rewrite H. Qed.

Lemma then_fail {A B} (c : Step A) (k : A -> Step B) w w' e :
  c w = (w', Fail e) -> then_ c k w = (w', Fail e).
Proof. intros H. unfold then_. by rewrite H. Qed.

(** A rotation to the right by [n] is one to the left by [-n]. *)
Lemma rotated_left {A} (n : Z) (q : list A) :
  q <> [] ->
  let m := Z.to_nat ((- n) mod Z.of_nat (length q)) in
  rotated n q = drop m q ++ take m q.
Proof.
  intros Hq m. subst m. unfold rotated.
  destruct q as [|x q']; [done|]. set (q := x :: q') in *.
  assert (HL : 0 < Z.of_nat (length q)) by (cbn; lia).
  pose proof (Z.mod_pos_bound n _ HL) as Hb.
  destruct (Z.eq_dec (n mod Z.of_nat (length q)) 0) as [Hz|Hnz].
  - rewrite Hz, (Z_mod_zero_opp_full _ _ Hz). cbn [Z.to_nat].
    rewrite Nat.sub_0_r, drop_all, take_ge by lia.
    by rewrite drop_0, take_0, app_nil_r.
  - rewrite (Z_mod_nz_opp_full _ _ Hnz).
    set (k := n mod Z.of_nat (length q)) in *.
    by replace (length q - Z.to_nat k)%nat
      with (Z.to_nat (Z.of_nat (length q) - k)) by lia.
Qed.

Lemma rotate_spec (n : Z) (w : World) :
  ssize_t n = true ->
  rotate n w = (with_entries (rotated n) w, Return tt).
Proof. intros H. unfold rotate. by rewrite H. Qed.

Lemma ssize_t_bounds (n : Z) :
  - maxsize <= n <= maxsize -> ssize_t n = true /\ ssize_t (- n) = true.
Proof. unfold ssize_t, maxsize. lia. Qed.

Lemma with_entries_same (q : list nat) (w : World) :
  q = entries w -> with_entries (fun _ => q) w = w.
Proof. intros ->. by destruct w. Qed.

(** Rotating there and back. *)
Lemma rotated_back {A} (n : Z) (q : list A) :
  rotated n (rotated (- n) q) = q.
Proof.
  destruct q as [|x q']; [done|]. set (q := x :: q') in *.
  assert (Hq : q <> []) by done.
  assert (HL : 0 < Z.of_nat (length q)) by (cbn; lia).
  rewrite (rotated_left (- n) q Hq). cbn zeta. rewrite Z.opp_involutive.
  pose proof (Z.mod_pos_bound n _ HL) as Hb.
  set (k := n mod Z.of_nat (length q)) in *.
  set (j := Z.to_nat k).
  assert (Hj : (j < length q)%nat) by lia.
  assert (Hlen : length (drop j q ++ take j q) = length q).
  { rewrite length_app, length_drop, length_take. lia. }
  rewrite rotated_left.
  2:{ intros H. apply (f_equal length) in H. rewrite Hlen in H.
      cbn in H. lia. }
  cbn zeta. rewrite Hlen.
  destruct (Z.eq_dec k 0) as [Hz|Hnz].
  - rewrite (Z_mod_zero_opp_full _ _ Hz). cbn [Z.to_nat].
    subst j. rewrite Hz. cbn [Z.to_nat].
    by rewrite !drop_0, !take_0, !app_nil_r.
  - rewrite (Z_mod_nz_opp_full _ _ Hnz). fold k.
    replace (Z.to_nat (Z.of_nat (length q) - k))
      with (length (drop j q)) by (rewrite length_drop; lia).
    rewrite drop_app_length, take_app_length. apply take_drop.
Qed.
Lemma with_entries_id (f : list nat -> list nat) (w : World) :
  f (entries w) = entries w -> with_entries f w = w.
Proof. intros H. unfold with_entries. rewrite H. by destruct w. Qed.

Lemma with_entries_twice (f g : list nat -> list nat) (w : World) :
  with_entries g (with_entries f w) = with_entries (fun q => g (f q)) w.
Proof. done. Qed.

Lemma get_entry_at_index_run (index : Z) (w : World) :
  - maxsize <= index <= maxsize ->
  get_entry_at_index index w
  = (w, match entries w
                !! Z.to_nat (index mod Z.of_nat (length (entries w))) with
        | Some entry => Return entry
        | None => Fail IndexError
        end)
  /\ (entries w <> [] ->
      is_Some (entries w
                 !! Z.to_nat (index mod Z.of_nat (length (entries w))))).
Proof.
  intros Hb. destruct (ssize_t_bounds index Hb) as [Hp Hn].
  destruct (entries w) as [|x q'] eqn:Hq.
  - split; [|done]. unfold get_entry_at_index.
    rewrite (then_return _ _ _ _ _ (rotate_spec _ w Hn)).
    rewrite with_entries_id by by rewrite Hq.
    unfold then_, first. by rewrite Hq.
  - rewrite <- Hq. set (q := entries w) in *.
    assert (Hne : q <> []) by by rewrite Hq.
    assert (HL : 0 < Z.of_nat (length q)) by (rewrite Hq; cbn; lia).
    pose proof (Z.mod_pos_bound index _ HL) as Hj.
    set (j := Z.to_nat (index mod Z.of_nat (length q))).
    assert (Hlt : (j < length q)%nat) by lia.
    destruct (lookup_lt_is_Some_2 q j Hlt) as [entry He].
    split; [|by exists entry]. rewrite He.
    unfold get_entry_at_index.
    rewrite (then_return _ _ _ _ _ (rotate_spec _ w Hn)).
    erewrite (then_return first).
    2:{ unfold first. cbn [entries with_entries]. fold q.
        rewrite (rotated_left (- index) q Hne). cbn zeta.
        rewrite Z.opp_involutive. fold j.
        by rewrite (drop_S _ _ _ He). }
    rewrite (then_return _ _ _ _ _ (rotate_spec _ _ Hp)).
    rewrite with_entries_twice, with_entries_id; [done|].
    apply rotated_back.
Qed.



(** The queue without its entry at [j], as the second rotation of
    [delete_entry_at_index] leaves it. *)
Lemma rotated_after_popleft {A} (j : nat) (q : list A) :
  (j < length q)%nat ->
  rotated (Z.of_nat j) (drop (S j) q ++ take j q) = delete j q.
Proof.
  intros Hj. rewrite delete_take_drop.
  set (rest := drop (S j) q ++ take j q).
  assert (Hlen : length rest = (length q - 1)%nat).
  { unfold rest. rewrite length_app, length_drop, length_take. lia. }
  destruct (decide (rest = [])) as [Hnil|Hne].
  - rewrite Hnil. apply app_eq_nil in Hnil as [H1 H2].
    by rewrite H1, H2.
  - rewrite (rotated_left _ _ Hne). cbn zeta. rewrite Hlen.
    assert (Hpos : 0 < Z.of_nat (length q - 1)).
    { destruct rest; [done|]. cbn in Hlen. lia. }
    destruct (decide (j = 0%nat)) as [->|Hj0].
    + change (- Z.of_nat 0) with 0. rewrite Z.mod_0_l by lia.
      change (Z.to_nat 0) with 0%nat. unfold rest.
      by rewrite drop_0, !take_0, !app_nil_r.
    + destruct (decide (j = (length q - 1)%nat)) as [Hlast|Hmid].
      * replace (- Z.of_nat j) with (-1 * Z.of_nat (length q - 1)) by lia.
        rewrite Z.mod_mul by lia. change (Z.to_nat 0) with 0%nat.
        unfold rest. rewrite (drop_ge q (S j)) by lia.
        by rewrite drop_0, take_0, !app_nil_r.
      * assert (Hm : (- Z.of_nat j) mod Z.of_nat (length q - 1)
                     = Z.of_nat (length q - 1 - j)).
        { symmetry. apply (Z.mod_unique _ _ (-1)); lia. }
        rewrite Hm, Nat2Z.id.
        replace (length q - 1 - j)%nat with (length (drop (S j) q))
          by (rewrite length_drop; lia).
        unfold rest. by rewrite drop_app_length, take_app_length.
Qed.

Lemma delete_entry_at_index_run
        (index : Z) (entry : EntryRef) (w : World) :
  0 <= index <= maxsize ->
  entries w !! Z.to_nat index = Some entry ->
  delete_entry_at_index index w
  = (with_entries (delete (Z.to_nat index)) w, Return entry)
  /\ remove_entry index w
     = (with_entries (delete (Z.to_nat index)) w, Return tt).
Proof.
  intros Hb He.
  assert (Hlt : (Z.to_nat index < length (entries w))%nat)
    by by eapply lookup_lt_Some.
  split.
  - destruct (ssize_t_bounds index ltac:(unfold maxsize in *; lia))
      as [Hp Hn].
    set (q := entries w) in *.
    assert (Hne : q <> []) by (intros H; rewrite H in Hlt; cbn in Hlt; lia).
    unfold delete_entry_at_index.
    rewrite (then_return _ _ _ _ _ (rotate_spec _ w Hn)).
    erewrite (then_return popleft).
    2:{ unfold popleft. cbn [entries with_entries]. fold q.
        rewrite (rotated_left (- index) q Hne). cbn zeta.
        rewrite Z.opp_involutive, Z.mod_small by lia.
        rewrite (drop_S _ _ _ He), <- app_comm_cons. reflexivity. }
    rewrite (then_return _ _ _ _ _ (rotate_spec _ _ Hp)).
    unfold unit_. f_equal. unfold with_entries.
    cbn [entries heap futures ready suspended journal emitter loop].
    fold q.
    replace index with (Z.of_nat (Z.to_nat index)) at 1 by lia.
    by rewrite rotated_after_popleft.
  - unfold remove_entry.
    replace (index <? 0) with false by lia.
    by replace ((0 <=? index) && (index <? Z.of_nat (length (entries w))))
      with true by lia.
Qed.

(** X16. For an index inside the queue, [delete_entry_at_index] and
    [remove_entry] take the same entry out and keep the others in
    their order; [delete_entry_at_index] returns the entry. *)
Theorem delete_entry_at_index_removes
        (index : Z) (entry : EntryRef) (w : World) :
  0 <= index <= maxsize ->
  entries w !! Z.to_nat index = Some entry ->
  delete_entry_at_index index w
  = (with_entries (delete (Z.to_nat index)) w, Return entry)
  /\ remove_entry index w
     = (with_entries (delete (Z.to_nat index)) w, Return tt).
Proof. apply delete_entry_at_index_run. Qed.

Lemma delete_entry_at_index_removes_witness :
  delete_entry_at_index 1 PlaylistScenarios.queue3
  = (with_entries (fun _ => [0; 2]%nat) PlaylistScenarios.queue3,
     Return 1%nat).
Proof.
  destruct (delete_entry_at_index_removes 1 1%nat PlaylistScenarios.queue3)
    as [H _]; [unfold maxsize; lia|reflexivity|].
  by rewrite H.
Defined.
Lemma remove_run (position : Z) (manage_channels : bool) (user_id : Z)
      (entry : EntryRef) (e : Entry) (w : World) :
  entries w <> [] ->
  1 <= position <= Z.of_nat (length (entries w)) + 1 ->
  position <= maxsize ->
  entries w !! Z.to_nat ((position - 1) mod Z.of_nat (length (entries w)))
  = Some entry ->
  heap w !! entry = Some e ->
  remove (Some position) manage_channels user_id w
  = if permitted manage_channels user_id e
    then (entry' <- delete_entry_at_index (position - 1) ;;
          unit_ (entry', assoc "author" (meta e)))%step w
    else (w, Fail PermissionsError).
Proof.
  intros Hne Hpos Hmax Hentry He. unfold remove.
  rewrite (then_return (lift get) _ w w w eq_refl).
  destruct (entries w) as [|x q'] eqn:Hq; [done|]. rewrite <- Hq in *.
  replace (position =? 0) with false by lia.
  replace (position - 1 >? Z.of_nat (length (entries w))) with false by lia.
  destruct (get_entry_at_index_run (position - 1) w) as [Hget _];
    [unfold maxsize in *; lia|].
  rewrite Hentry in Hget.
  rewrite (then_return _ _ _ _ _ Hget).
  erewrite (then_return (lift (deref entry))).
  2:{ unfold lift, deref. by rewrite He. }
  unfold permitted. destruct manage_channels; cbn [negb andb orb]; [done|].
  by destruct (assoc "author" (meta e)) as [a|]; [destruct (a =? user_id)|].
Qed.

(** X17. The command [remove], asked by someone who may manage the channel
    or who queued the entry, takes the entry at the position it was
    given out of the queue, positions counting from 1, and keeps the
    other entries in their order; without a position it takes the last
    entry. It hands on the entry and its author. *)
Theorem remove_takes_the_position
        (position : Z) (manage_channels : bool) (user_id : Z)
        (entry : EntryRef) (e : Entry) (w : World) :
  1 <= position <= maxsize ->
  entries w !! Z.to_nat (position - 1) = Some entry ->
  heap w !! entry = Some e ->
  permitted manage_channels user_id e = true ->
  remove (Some position) manage_channels user_id w
  = (with_entries (delete (Z.to_nat (position - 1))) w,
     Return (entry, assoc "author" (meta e)))
  /\ (position = Z.of_nat (length (entries w)) ->
      remove None manage_channels user_id w
      = remove (Some position) manage_channels user_id w).
Proof.
  intros Hpos Hentry He Hperm.
  assert (Hlt : (Z.to_nat (position - 1) < length (entries w))%nat)
    by by eapply lookup_lt_Some.
  assert (Hne : entries w <> [])
    by (intros H; rewrite H in Hlt; cbn in Hlt; lia).
  split.
  - rewrite (remove_run position manage_channels user_id entry e w);
      try done; try lia.
    + rewrite Hperm.
      destruct (delete_entry_at_index_run (position - 1) entry w)
        as [Hdel _]; [lia|done|].
      by rewrite (then_return _ _ _ _ _ Hdel).
    + by rewrite Z.mod_small by lia.
  - intros ->. unfold remove.
    rewrite !(then_return (lift get) _ w w w eq_refl).
    destruct (entries w); [done|].
    by replace (Z.of_nat (length (n :: l)) =? 0) with false
      by (symmetry; apply Z.eqb_neq; cbn [length]; lia).
Qed.

Lemma remove_takes_the_position_witness :
  remove (Some 2) true 0 PlaylistScenarios.queue3
  = (with_entries (fun _ => [0; 2]%nat) PlaylistScenarios.queue3,
     Return (1%nat, None)).
Proof.
  destruct (remove_takes_the_position
              2 true 0 1%nat
              (PlaylistScenarios.url_entry "e2" (VInt 45))
              PlaylistScenarios.queue3)
    as [H _]; [unfold maxsize; lia|reflexivity|reflexivity|reflexivity|].
  by rewrite H.
Defined.

Lemma rotated_once_more {A} (rest : list A) :
  rotated (Z.of_nat (S (length rest))) rest = rotated 1 rest.
Proof.
  unfold rotated. destruct rest as [|y rest']; [done|].
  set (q := y :: rest').
  replace (Z.of_nat (S (length q))) with (1 + 1 * Z.of_nat (length q))
    by lia.
  by rewrite Z.mod_add by (cbn; lia).
Qed.

(** X18. The command accepts the position one after the last, and there it
    counts round the queue: it takes out the first entry, provided the
    one who asks may remove that one, and leaves the rest rotated one
    step to the right. *)
Theorem remove_after_the_last_takes_the_first
        (manage_channels : bool) (user_id : Z)
        (x : EntryRef) (rest : list EntryRef) (e : Entry) (w : World) :
  entries w = x :: rest ->
  Z.of_nat (length (entries w)) < maxsize ->
  heap w !! x = Some e ->
  permitted manage_channels user_id e = true ->
  remove (Some (Z.of_nat (length (entries w)) + 1)) manage_channels
         user_id w
  = (with_entries (fun _ => rotated 1 rest) w,
     Return (x, assoc "author" (meta e))).
Proof.
  intros Hq Hmax He Hperm.
  assert (Hne : entries w <> []) by by rewrite Hq.
  set (L := Z.of_nat (length (entries w))) in *.
  assert (HL : 0 < L) by (subst L; rewrite Hq; cbn; lia).
  rewrite (remove_run (L + 1) manage_channels user_id x e w);
    try done; try lia.
  2:{ replace (L + 1 - 1) with L by lia. rewrite Z.mod_same by lia.
      by rewrite Hq. }
  rewrite Hperm. replace (L + 1 - 1) with L by lia.
  assert (Hdel : delete_entry_at_index L w
                 = (with_entries (fun _ => rotated 1 rest) w, Return x)).
  { unfold delete_entry_at_index.
    assert (Hs : ssize_t L = true /\ ssize_t (- L) = true)
      by (apply ssize_t_bounds; lia).
    destruct Hs as [Hp Hn].
    rewrite (then_return _ _ _ _ _ (rotate_spec _ w Hn)).
    assert (Hrot : rotated (- L) (entries w) = x :: rest).
    { rewrite (rotated_left _ _ Hne). cbn zeta.
      rewrite Z.opp_involutive. fold L. rewrite Z.mod_same by lia.
      by rewrite drop_0, take_0, app_nil_r. }
    erewrite (then_return popleft).
    2:{ unfold popleft. cbn [entries with_entries]. rewrite Hrot.
        reflexivity. }
    rewrite (then_return _ _ _ _ _ (rotate_spec _ _ Hp)).
    unfold unit_, with_entries.
    cbn [entries heap futures ready suspended journal emitter loop].
    subst L. rewrite Hq. change (length (x :: rest)) with (S (length rest)).
    by rewrite rotated_once_more. }
  by rewrite (then_return _ _ _ _ _ Hdel).
Qed.

Lemma remove_after_the_last_takes_the_first_witness :
  remove (Some (Z.of_nat (length (entries PlaylistScenarios.queue3)) + 1))
         true 0 PlaylistScenarios.queue3
  = (with_entries (fun _ => [2; 1]%nat) PlaylistScenarios.queue3,
     Return (0%nat, None)).
Proof.
  rewrite (remove_after_the_last_takes_the_first
             true 0 0%nat [1; 2]%nat
             (PlaylistScenarios.url_entry "e1" (VInt 30))
             PlaylistScenarios.queue3);
    [reflexivity|reflexivity|by cbn|reflexivity|reflexivity].
Defined.



End IndexFacts.

Module QueueFacts.
Import Entry Playlist EntryScenarios QueueScenarios WorldFacts AddFacts.

Lemma untouched_refl w : untouched w w.
Proof. by repeat split. Qed.

Lemma untouched_trans w1 w2 w3 :
  untouched w1 w2 -> untouched w2 w3 -> untouched w1 w3.
Proof.
  intros (H1 & H2 & H3 & H4 & H5 & H6 & H7) (G1 & G2 & G3 & G4 & G5 & G6 & G7).
  repeat split; congruence.
Qed.

Lemma queued_after front w1 w2 w3 entry pos :
  untouched w1 w2 -> queued front w2 w3 entry pos ->
  queued front w1 w3 entry pos.
Proof.
  intros (H1 & _ & _ & _ & _ & H6 & _) (G1 & G2 & G3 & G4 & G5).
  unfold queued. by rewrite <- H1, <- H6.
Qed.

Lemma inert_ret {A} (a : A) : inert (ret a).
Proof. intros w. apply untouched_refl. Qed.

Lemma inert_raise {A} (e : Exn) : inert (raise e : M World A).
Proof. intros w. apply untouched_refl. Qed.

Lemma inert_pure {A} (r : Res A) : inert (fun w => (w, r)).
Proof. intros w. apply untouched_refl. Qed.

Lemma inert_bind {A B} (c : M World A) (k : A -> M World B) :
  inert c -> (forall a, inert (k a)) -> inert (bind c k).
Proof.
  intros Hc Hk w. unfold bind. specialize (Hc w).
  destruct (c w) as [w1 [a|e]]; cbn in *; [|done].
  eapply untouched_trans; [exact Hc|apply Hk].
Qed.

Lemma inert_if {A} (b : bool) (c1 c2 : M World A) :
  inert c1 -> inert c2 -> inert (if b then c1 else c2).
Proof. by destruct b. Qed.

Lemma inert_try_except_Exception {A} (c : M World A) (h : Exn -> M World A) :
  inert c -> (forall e, inert (h e)) -> inert (try_except_Exception c h).
Proof.
  intros Hc Hh w. unfold try_except_Exception. specialize (Hc w).
  destruct (c w) as [w1 [a|e]]; cbn in *; [done|].
  destruct (is_exception e); [|done].
  eapply untouched_trans; [exact Hc|apply Hh].
Qed.

Lemma inert_dict_get v k d : inert (dict_get v k d).
Proof. destruct v; apply inert_pure. Qed.

Lemma inert_getitem v k : inert (getitem v k).
Proof.
  destruct v; try apply inert_pure. cbn.
  destruct (assoc k d); apply inert_pure.
Qed.

Lemma inert_contains v k : inert (contains v k).
Proof. destruct v; apply inert_pure. Qed.

Lemma inert_startswith v ps : inert (startswith v ps).
Proof. destruct v; apply inert_pure. Qed.

Lemma inert_lift_loop {A} (c : M Downloader.Loop A) : inert (lift_loop c).
Proof.
  intros w. unfold lift_loop. destruct (c (loop w)). by repeat split.
Qed.

Lemma inert_len : inert len.
Proof. intros w. apply untouched_refl. Qed.

Lemma adds_raise front e : adds front (raise e).
Proof. intros w. apply untouched_refl. Qed.

Lemma adds_bind {A} front (c : M World A) (k : A -> M World (EntryRef * Z)) :
  inert c -> (forall a, adds front (k a)) -> adds front (bind c k).
Proof.
  intros Hc Hk w. unfold bind. specialize (Hc w).
  destruct (c w) as [w1 [a|e]]; cbn in *; [|done].
  specialize (Hk a w1). destruct (k a w1) as [w2 [[entry pos]|x]].
  - by eapply queued_after.
  - by eapply untouched_trans.
Qed.

Lemma adds_if front (b : bool) c1 c2 :
  adds front c1 -> adds front c2 -> adds front (if b then c1 else c2).
Proof. by destruct b. Qed.

(** The entry that was just built is queued. *)
Lemma adds_queue spec_of (front : bool) (e : Entry) :
  adds front
       (entry <- alloc e ;;
        _add_entry spec_of entry front ;;
        n <- len ;;
        ret (entry, if front then 1%Z else n)).
Proof.
  intros w.
  rewrite (bind_ok (alloc e) _ w _ _ eq_refl).
  set (w1 := with_heap (fun h => h ++ [e]) w).
  destruct (_add_entry_spec spec_of (length (heap w)) front w1 e)
    as (w2 & Hrun & Hq & Hlen & Hother & _).
  { cbn. apply lookup_snoc_length. }
  rewrite (bind_ok _ _ _ _ _ Hrun).
  rewrite (bind_ok len _ w2 w2 (Z.of_nat (length (entries w2))) eq_refl).
  unfold ret, queued. split; [done|]. split.
  { rewrite Hlen. cbn. rewrite length_app. cbn. lia. }
  split.
  { intros r Hr. rewrite Hother by lia. cbn. by apply lookup_app_l. }
  done.
Qed.
Section Outside.
Variable spec_of : EventEmitter.FnId -> EventEmitter.FnSpec.
Variable ytdl_extract_info
  : Downloader.Ytdl -> Downloader.Args -> Res Value.
Variable prepare_filename : Value -> Res Value.
Variable get_header : Value -> Res Value.
Variable path_exists : string -> bool.

Lemma inert_extract song_url : inert (extract ytdl_extract_info song_url).
Proof. apply inert_lift_loop. Qed.

Lemma adds_add_url_entry song_url info front meta :
  adds front (add_url_entry spec_of prepare_filename song_url info front meta).
Proof.
  unfold add_url_entry.
  apply adds_bind; [apply inert_dict_get|intros title].
  apply adds_bind; [apply inert_dict_get|intros duration].
  apply adds_bind; [apply inert_pure|intros expected].
  apply adds_queue.
Qed.

Lemma adds_add_stream_entry song_url info meta :
  adds false (add_stream_entry spec_of ytdl_extract_info path_exists
                               song_url info meta).
Proof.
  unfold add_stream_entry.
  apply adds_bind.
  { apply inert_if; [|apply inert_ret].
    intros w. pose proof (inert_extract song_url w) as Hq.
    destruct (extract ytdl_extract_info song_url w) as [w1 [i|x]];
      cbn in *; [done|].
    destruct x; cbn; try done.
    destruct exc_info0; [done| |done]. by destruct (path_exists song_url). }
  intros info'.
  apply adds_bind; [apply inert_dict_get|intros live].
  apply adds_bind; [apply inert_dict_get|intros extractor].
  apply adds_if; [apply adds_raise|].
  apply adds_bind.
  { apply inert_if; [apply inert_dict_get|apply inert_ret]. }
  intros dest_url.
  apply adds_bind.
  { apply inert_if; apply inert_dict_get. }
  intros title.
  apply (adds_queue spec_of false).
Qed.

(** X20. [add_stream_entry] queues one entry behind the queue, or raises and
    leaves the queue as it was. *)
Theorem add_stream_entry_queues_one_or_nothing
        (song_url : string) (info : Value) (meta : list (string * Z))
        (w : World) :
  match add_stream_entry spec_of ytdl_extract_info path_exists
                         song_url info meta w with
  | (w', Ok (entry, pos)) => queued false w w' entry pos
  | (w', Raise _) => untouched w w'
  end.
Proof. apply adds_add_stream_entry. Qed.

Lemma check_content_type_spec song_url info extractor meta w :
  match check_content_type spec_of ytdl_extract_info get_header path_exists
                           song_url info extractor meta w with
  | (w', Ok (Some (entry, pos))) => queued false w w' entry pos
  | (w', Ok None) => untouched w w'
  | (w', Raise _) => untouched w w'
  end.
Proof.
  unfold check_content_type. unfold bind at 1.
  assert (Hq : inert (try_except_Exception
                        (u <- getitem info "url" ;;
                         headers <- (fun w => (w, get_header u)) ;;
                         dict_get headers "CONTENT-TYPE" VNone)
                        (fun _ => ret VNone))).
  { apply inert_try_except_Exception; [|intros; apply inert_ret].
    apply inert_bind; [apply inert_getitem|intros u].
    apply inert_bind; [apply inert_pure|intros h]. apply inert_dict_get. }
  specialize (Hq w).
  destruct (try_except_Exception _ _ w) as [w1 [content_type|x]];
    cbn in Hq; [|done].
  destruct (truthy content_type); [|done].
  assert (Hpure : forall {A} (c : M World A) w0,
             inert c -> untouched w w0 ->
             match c w0 with (w', _) => untouched w w' end).
  { intros A c w0 Hc H0. specialize (Hc w0).
    destruct (c w0); cbn in *. by eapply untouched_trans. }
  unfold bind at 1.
  pose proof (Hpure _ (startswith content_type ["application/"; "image/"])
                    w1 (inert_startswith _ _) Hq) as H2.
  destruct (startswith content_type _ w1) as [w2 [[]|x]]; [| |done].
  - unfold bind at 1.
    pose proof (Hpure _ (contains content_type "/ogg") w2
                      (inert_contains _ _) H2) as H3.
    destruct (contains content_type "/ogg" w2) as [w3 [ogg|x]]; [|done].
    unfold bind at 1. destruct ogg; [done|].
    pose proof (Hpure _ (contains content_type "/octet-stream") w3
                      (inert_contains _ _) H3) as H4.
    destruct (contains content_type "/octet-stream" w3)
      as [w4 [octet|x]]; [|done].
    by destruct octet.
  - unfold bind at 1.
    pose proof (Hpure _ (startswith content_type ["text/html"]) w2
                      (inert_startswith _ _) H2) as H3.
    destruct (startswith content_type ["text/html"] w2)
      as [w3 [html|x]]; [|done].
    destruct (html && eq_str extractor "generic").
    + unfold bind.
      pose proof (adds_add_stream_entry song_url info meta w3) as Hs.
      destruct (add_stream_entry _ _ _ _ _ _ w3) as [w4 [[entry pos]|x]].
      * by eapply queued_after.
      * by eapply untouched_trans.
    + unfold bind.
      pose proof (Hpure _ (startswith content_type ["audio/"; "video/"]) w3
                        (inert_startswith _ _) H3) as H4.
      by destruct (startswith content_type ["audio/"; "video/"] w3)
        as [w4 [?|x]].
Qed.

(** X21. [add_entry] queues exactly one entry or none. When it returns, the
    entry it returns is a new one and is now in the queue, in front
    with position 1 or behind with the new length as its position, and
    it is in front only if [head] was asked for; the entries there
    were are as they were and in their order. When it raises, whatever
    the exception, the queue, the entries and the loop of tasks are
    untouched. *)
Theorem add_entry_queues_one_or_nothing
        (song_url : string) (head : bool) (meta : list (string * Z))
        (w : World) :
  match add_entry spec_of ytdl_extract_info prepare_filename get_header
                  path_exists song_url head meta w with
  | (w', Ok (entry, pos)) =>
      exists front, queued front w w' entry pos
                    /\ (front = true -> head = true)
  | (w', Raise _) => untouched w w'
  end.
Proof.
  assert (Hpure : forall {A} (c : M World A) w0,
             inert c -> untouched w w0 ->
             match c w0 with (w', _) => untouched w w' end).
  { intros A c w0 Hc H0. specialize (Hc w0).
    destruct (c w0); cbn in *. by eapply untouched_trans. }
  assert (Hadds : forall front c w0,
             adds front c -> untouched w w0 -> (front = true -> head = true) ->
             match c w0 with
             | (w', Ok (entry, pos)) =>
                 exists front, queued front w w' entry pos
                               /\ (front = true -> head = true)
             | (w', Raise _) => untouched w w'
             end).
  { intros front c w0 Hc H0 Hf. specialize (Hc w0).
    destruct (c w0) as [w1 [[entry pos]|x]].
    - exists front. split; [by eapply queued_after|done].
    - by eapply untouched_trans. }
  unfold add_entry. unfold bind at 1.
  pose proof (Hpure _ (try_except_Exception
                         (extract ytdl_extract_info song_url)
                         (fun e => raise (ExtractionErrorFrom
                                            "Could not extract information"
                                            e))) w
                    (inert_try_except_Exception _ _ (inert_extract _)
                       (fun e => inert_raise _))
                    (untouched_refl w)) as H1.
  destruct (try_except_Exception _ _ w) as [w1 [info|x]]; [|done].
  destruct (negb (truthy info)); [done|].
  unfold bind at 1.
  pose proof (Hpure _ (dict_get info "_type" VNone) w1
                    (inert_dict_get _ _ _) H1) as H2.
  destruct (dict_get info "_type" VNone w1) as [w2 [type|x]]; [|done].
  destruct (eq_str type "playlist").
  { unfold bind at 1.
    pose proof (Hpure _ (dict_get info "webpage_url" VNone) w2
                      (inert_dict_get _ _ _) H2) as H3.
    destruct (dict_get info "webpage_url" VNone w2)
      as [w3 [webpage_url|x]]; [|done].
    unfold bind at 1. destruct (truthy webpage_url); [done|].
    pose proof (Hpure _ (dict_get info "url" VNone) w3
                      (inert_dict_get _ _ _) H3) as H4.
    by destruct (dict_get info "url" VNone w3) as [w4 [use_url|x]]. }
  unfold bind at 1.
  pose proof (Hpure _ (dict_get info "is_live" (VBool false)) w2
                    (inert_dict_get _ _ _) H2) as H3.
  destruct (dict_get info "is_live" (VBool false) w2)
    as [w3 [live|x]]; [|done].
  destruct (truthy live).
  { by apply (Hadds false); [apply adds_add_stream_entry| |]. }
  unfold bind at 1.
  pose proof (Hpure _ (getitem info "extractor") w3
                    (inert_getitem _ _) H3) as H4.
  destruct (getitem info "extractor" w3) as [w4 [extractor|x]]; [|done].
  unfold bind at 1.
  destruct (eq_str extractor "generic" || eq_str extractor "Dropbox").
  - pose proof (check_content_type_spec song_url info extractor meta w4)
      as H5.
    destruct (check_content_type _ _ _ _ _ _ _ _ w4)
      as [w5 [[[entry pos]|]|x]].
    + exists false. split; [by eapply queued_after|done].
    + apply (Hadds head); [apply adds_add_url_entry| |done].
      by eapply untouched_trans.
    + by eapply untouched_trans.
  - by apply (Hadds head); [apply adds_add_url_entry| |].
Qed.
End Outside.
End QueueFacts.

Module DirectStreamFacts.
Import Entry Playlist QueueScenarios QueueFacts.

(** X22. Without [info], [add_stream_entry] depends on the extraction: when
    the extraction ends in an [Exception] the call ends in an
    [ExtractionError] and queues nothing. That holds also where the
    exception is taken for the sign of a direct stream (yt-dlp's
    [UnsupportedError], and every exception that is not a
    [DownloadError]): the stand-in for [info] has neither [is_live] nor
    the extractor ['generic'], so the test that follows refuses it. *)
Theorem add_stream_entry_depends_on_the_extraction
        (spec_of : EventEmitter.FnId -> EventEmitter.FnSpec)
        (ytdl_extract_info
           : Downloader.Ytdl -> Downloader.Args -> Res Value)
        (path_exists : string -> bool)
        (song_url : string) (meta : list (string * Z)) (x : Exn)
        (w : World) :
  ytdl_extract_info Downloader.unsafe_ytdl
    {| Downloader.arg_url := VStr song_url;
       Downloader.download := false; Downloader.process := true |}
  = Raise x ->
  is_exception x = true ->
  exists w',
    add_stream_entry spec_of ytdl_extract_info path_exists song_url VNone
                     meta w
    = (w', Raise match x with
                 | DownloadError URLError =>
                     ExtractionError
                       (if path_exists song_url
                        then "This is not a stream, this is a file path."
                        else "Invalid input")
                 | DownloadError OtherCause =>
                     ExtractionErrorFrom "Unknown error" x
                 | _ => ExtractionError "This is not a stream."
                 end)
    /\ untouched w w'.
Proof.
  intros Hx Hexc.
  pose proof (adds_add_stream_entry spec_of ytdl_extract_info path_exists
                song_url VNone meta w) as Hadd.
  assert (Hrun : (add_stream_entry spec_of ytdl_extract_info path_exists
                    song_url VNone meta w).2
                 = Raise match x with
                         | DownloadError URLError =>
                             ExtractionError
                               (if path_exists song_url
                                then "This is not a stream, this is a file path."
                                else "Invalid input")
                         | DownloadError OtherCause =>
                             ExtractionErrorFrom "Unknown error" x
                         | _ => ExtractionError "This is not a stream."
                         end).
  { unfold add_stream_entry. cbn [is_None]. unfold bind at 1.
    unfold extract, lift_loop, Downloader.extract_info,
      Downloader.run_in_executor, bind, Downloader.ask, modify. cbn.
    rewrite Hx.
    destruct x as [| | | | | | | | | |c| | | |]; try done.
    destruct c; [done| |done]. by destruct (path_exists song_url). }
  destruct (add_stream_entry _ _ _ _ _ _ w) as [w' r]. cbn in Hrun.
  subst r. by exists w'.
Qed.

Lemma add_stream_entry_depends_on_the_extraction_witness :
  exists w',
    add_stream_entry AddScenarios.quiet
                     (fun _ _ => Raise (DownloadError UnsupportedError))
                     AddScenarios.no_path "http://radio/live" VNone []
                     empty_world
    = (w', Raise (ExtractionError "This is not a stream."))
    /\ entries w' = [].
Proof.
  destruct (add_stream_entry_depends_on_the_extraction
              AddScenarios.quiet
              (fun _ _ => Raise (DownloadError UnsupportedError))
              AddScenarios.no_path "http://radio/live" []
              (DownloadError UnsupportedError) empty_world
              eq_refl eq_refl) as (w' & H & Hu).
  exists w'. split; [exact H|]. by destruct Hu as (_ & _ & _ & _ & _ & -> & _).
Defined.
End DirectStreamFacts.

Module ImportLoopFacts.
Import Entry Playlist EntryScenarios AddScenarios ImportScenarios
       WorldFacts AddFacts.

Section Outside.
Variable spec_of : EventEmitter.FnId -> EventEmitter.FnSpec.
Variable ytdl_extract_info
  : Downloader.Ytdl -> Downloader.Args -> Res Value.
Variable prepare_filename : Value -> Res Value.

(** One turn of the loop: the item is queued as a new entry, or passed
    over. *)
Lemma import_item_spec url_field (front : bool) meta acc item w0 :
  (forall x, prepare_filename item = Raise x -> is_exception x = true) ->
  let new := length (heap w0) in
  if importable prepare_filename url_field item then
    exists w1,
      import_item spec_of prepare_filename url_field front meta acc item w0
      = (w1, Ok (acc.1 ++ [new], acc.2))
      /\ entries w1 = (if front then new :: entries w0
                       else entries w0 ++ [new])
      /\ length (heap w1) = S (length (heap w0))
      /\ (forall r, r < length (heap w0) -> heap w1 !! r = heap w0 !! r)
      /\ exists e, heap w1 !! new = Some e
                   /\ url e = locator url_field item
  else
    import_item spec_of prepare_filename url_field front meta acc item w0
    = (w0, Ok (acc.1, S acc.2)).
Proof.
  intros Hprep new. unfold importable, import_item.
  destruct item as [| | | | |d| |];
    try (by destruct (truthy _)).
  destruct (truthy (VDict d)); [|done]. cbn [andb].
  unfold try_except_Exception, getitem.
  destruct (assoc url_field d) as [u|] eqn:Hu.
  2:{ by unfold bind, raise. }
  rewrite (bind_ok (ret u) _ w0 w0 u eq_refl).
  cbn [dict_get].
  rewrite (bind_ok (ret _) _ w0 w0 _ eq_refl).
  rewrite (bind_ok (ret _) _ w0 w0 _ eq_refl).
  destruct (prepare_filename (VDict d)) as [fn|x] eqn:Hfn.
  2:{ unfold bind. by rewrite (Hprep x eq_refl). }
  rewrite (bind_ok _ _ w0 w0 fn eq_refl).
  unfold new_URLPlaylistEntry.
  rewrite (bind_ok (alloc _) _ w0 _ _ eq_refl).
  match goal with
  | |- context [_add_entry _ _ _] =>
      match goal with
      | |- context [with_heap (fun h => h ++ [?e]) w0] => set (e0 := e)
      end
  end.
  set (w' := with_heap (fun h => h ++ [e0]) w0).
  destruct (_add_entry_spec spec_of (length (heap w0)) front w' e0)
    as (w1 & Hrun & Hq & Hlen & Hother & e1 & He1 & Hurl).
  { cbn. apply lookup_snoc_length. }
  rewrite (bind_ok _ _ _ _ _ Hrun). unfold ret.
  exists w1. split; [done|]. split; [done|]. split.
  { rewrite Hlen. cbn. rewrite length_app. cbn. lia. }
  split.
  { intros r Hr. rewrite Hother by (fold new; lia). cbn.
    by apply lookup_app_l. }
  exists e1. split; [done|]. rewrite Hurl. cbn. by rewrite Hu.
Qed.
Lemma urls_same w w' rs :
  (forall r, In r rs -> heap w' !! r = heap w !! r) ->
  urls w' rs = urls w rs.
Proof.
  intros H. unfold urls. apply map_ext_in. intros r Hr. by rewrite H.
Qed.

(** The loop: the importable items become new entries, in the order of
    the listing, each put in front of the queue or behind it. *)
Lemma import_items_spec url_field (front : bool) meta items :
  Forall (fun item => forall x, prepare_filename item = Raise x ->
                                is_exception x = true) items ->
  forall acc w0,
  exists w' new bad,
    import_items spec_of prepare_filename url_field front meta acc items w0
    = (w', Ok (acc.1 ++ new, bad))
    /\ entries w' = (if front then rev new ++ entries w0
                     else entries w0 ++ new)
    /\ length (heap w') = length (heap w0) + length new
    /\ Forall (fun r => length (heap w0) <= r < length (heap w')) new
    /\ (forall r, r < length (heap w0) -> heap w' !! r = heap w0 !! r)
    /\ urls w' new
       = map (locator url_field)
             (List.filter (importable prepare_filename url_field) items).
Proof.
  induction 1 as [|item items Hitem _ IH]; intros acc w0.
  - exists w0, [], acc.2. cbn. unfold ret. rewrite !app_nil_r.
    destruct acc. repeat split; try done; by destruct front.
  - cbn [import_items List.filter].
    pose proof (import_item_spec url_field front meta acc item w0 Hitem)
      as Hstep. cbn zeta in Hstep.
    destruct (importable prepare_filename url_field item).
    + destruct Hstep as (w1 & Hrun & Hq1 & Hlen1 & Hold1 & e & He & Hurl).
      rewrite (bind_ok _ _ _ _ _ Hrun).
      destruct (IH (acc.1 ++ [length (heap w0)], acc.2) w1)
        as (w' & new & bad & Hrest & Hq & Hlen & Hnew & Hold & Hurls).
      exists w', (length (heap w0) :: new), bad.
      split. { rewrite Hrest. cbn. by rewrite <- app_assoc. }
      split.
      { rewrite Hq, Hq1. destruct front; cbn; by rewrite <- app_assoc. }
      split. { rewrite Hlen, Hlen1. cbn. lia. }
      split.
      { constructor; [lia|]. eapply Forall_impl; [exact Hnew|].
        cbn. intros; lia. }
      split. { intros r Hr. rewrite Hold by lia. by apply Hold1. }
      cbn [map]. rewrite <- Hurls. unfold urls at 1. cbn [map].
      rewrite Hold by lia. by rewrite He, Hurl.
    + rewrite (bind_ok _ _ _ _ _ Hstep).
      destruct (IH (acc.1, S acc.2) w0)
        as (w' & new & bad & Hrest & Hq & Hlen & Hnew & Hold & Hurls).
      by exists w', new, bad.
Qed.

(** X23. [import_from] returns the entries it queued, as they stand in the
    queue. For a listing that yt-dlp answers with, the importable items
    become new entries and the others are passed over without an
    exception; at the tail the new entries stand behind the queue in the
    order of the listing and the position returned is that of the first
    of them; at the head they stand in front of the queue, the last of
    the listing first, and the position is 1. The list returned is that
    run of the queue, in the order of the queue, and the entries that
    were queued before are as they were. *)
Theorem import_from_returns_the_run_it_queued
        (playlist_url : string) (front : bool) (meta : list (string * Z))
        (info : list (string * Value)) (items : list Value) (w : World) :
  ytdl_extract_info Downloader.safe_ytdl
    {| Downloader.arg_url := VStr playlist_url;
       Downloader.download := false; Downloader.process := true |}
  = Ok (VDict info) ->
  assoc "entries" info = Some (VList items) ->
  Forall (fun item => forall x, prepare_filename item = Raise x ->
                                is_exception x = true) items ->
  let wanted :=
    map (locator (url_field_of info))
        (List.filter (importable prepare_filename (url_field_of info))
                     items) in
  exists w' entry_list,
    import_from spec_of ytdl_extract_info prepare_filename playlist_url
                front meta w
    = (w', Ok (entry_list,
               if front then 1%Z
               else (Z.of_nat (length (entries w)) + 1)%Z))
    /\ entries w' = (if front then entry_list ++ entries w
                     else entries w ++ entry_list)
    /\ urls w' entry_list = (if front then rev wanted else wanted)
    /\ Forall (fun r => length (heap w) <= r) entry_list
    /\ (forall r, r < length (heap w) -> heap w' !! r = heap w !! r).
Proof.
  intros Hinfo Hentries Hprep wanted.
  unfold import_from.
  rewrite (bind_ok len _ w w (Z.of_nat (length (entries w))) eq_refl).
  set (w0 := {| heap := heap w; futures := futures w; ready := ready w;
                suspended := suspended w; journal := journal w;
                entries := entries w; emitter := emitter w;
                loop := loop w
                        ++ [Downloader.RunInExecutor Downloader.safe_ytdl
                              {| Downloader.arg_url := VStr playlist_url;
                                 Downloader.download := false;
                                 Downloader.process := true |}] |}).
  assert (Hextract : try_except_Exception
                       (safe_extract ytdl_extract_info playlist_url)
                       (fun e => raise (ExtractionErrorFrom
                                          "Could not extract information"
                                          e)) w
                     = (w0, Ok (VDict info))).
  { unfold try_except_Exception, safe_extract, lift_loop,
      Downloader.safe_extract_info, Downloader.run_in_executor, bind,
      Downloader.ask, modify. cbn. by rewrite Hinfo. }
  rewrite (bind_ok _ _ _ _ _ Hextract).
  assert (Htruthy : truthy (VDict info) = true).
  { destruct info; [done|done]. }
  rewrite Htruthy. cbn [negb].
  cbn [dict_get]. rewrite (bind_ok (ret _) _ w0 w0 _ eq_refl).
  change (if eq_str match assoc "extractor" info with
                     | Some x => x
                     | None => VNone
                     end "generic"
          then "url" else "webpage_url") with (url_field_of info).
  unfold getitem. rewrite Hentries.
  rewrite (bind_ok (ret _) _ w0 w0 _ eq_refl). cbn [iterate].
  rewrite (bind_ok (ret _) _ w0 w0 _ eq_refl).
  rewrite (bind_ok (ret _) _ w0 w0 _ eq_refl). cbn [iterate].
  rewrite (bind_ok (ret _) _ w0 w0 _ eq_refl).
  destruct (import_items_spec (url_field_of info) front meta items Hprep
                              ([], 0) w0)
    as (w' & new & bad & Hrun & Hq & Hlen & Hnew & Hold & Hurls).
  rewrite (bind_ok _ _ _ _ _ Hrun). unfold ret. cbn [fst app].
  exists w', (if front then rev new else new).
  split; [done|]. split; [by destruct front|].
  split.
  { destruct front; [|done]. unfold urls in *.
    by rewrite map_rev, Hurls. }
  split.
  { assert (Hall : Forall (fun r => length (heap w) <= r) new).
    { eapply Forall_impl; [exact Hnew|]. cbn. intros; lia. }
    destruct front; [|done]. by apply List.Forall_rev. }
  exact Hold.
Qed.
End Outside.

Lemma import_from_returns_the_run_it_queued_witness :
  exists w' entry_list,
    import_from quiet ytdl prepare "list" true [] empty_world
    = (w', Ok (entry_list, 1%Z))
    /\ entries w' = entry_list ++ []
    /\ urls w' entry_list = [VStr "x3"; VStr "x1"].
Proof.
  destruct (import_from_returns_the_run_it_queued
              quiet ytdl prepare "list" true [] _ _ empty_world
              eq_refl eq_refl)
    as (w' & l & H1 & H2 & H3 & _).
  - repeat constructor; intros x [=].
  - by exists w', l.
Defined.
End ImportLoopFacts.

Module SkipStateFacts.
Import SkipState SkipScenarios.

Lemma add_skippers_state votes s :
  skippers (add_skippers votes s).1 = list_to_set votes.*1 ∪ skippers s
  /\ (add_skippers votes s).2 = skip_count (add_skippers votes s).1.
Proof.
  revert s. induction votes as [|[k m] votes IH]; intros s.
  - cbn. split; [by rewrite (left_id_L ∅ (∪))|done].
  - change (add_skippers ((k, m) :: votes) s)
      with (add_skippers votes (add_skipper k m s).1).
    destruct (IH (add_skipper k m s).1) as [-> ->]. cbn.
    split; [|done].
    by rewrite (assoc_L (∪)), (comm_L (∪) _ {[k]}).
Qed.

(** X24. A member counts once, however often they vote: after any run of
    votes on a state that was reset, the count that [add_skipper]
    returns and [skip_count] are the number of distinct members among
    the voters. A second vote of a member leaves the count as it was;
    [reset] brings it back to zero. *)
Theorem skip_count_counts_members_once
        (votes : list (Z * nat)) (s : SkipState) :
  (add_skippers votes (reset s)).2
  = Z.of_nat (length (remove_dups votes.*1))
  /\ (forall k m1 m2,
        (add_skipper k m2 (add_skipper k m1 s).1).2
        = (add_skipper k m1 s).2)
  /\ skip_count (reset (add_skippers votes s).1) = 0%Z.
Proof.
  split; [|split].
  - destruct (add_skippers_state votes (reset s)) as [Hs ->].
    unfold skip_count. rewrite Hs. cbn. f_equal.
    rewrite (right_id_L ∅ (∪)).
    replace (list_to_set votes.*1 : gset Z)
      with (list_to_set (remove_dups votes.*1) : gset Z).
    + rewrite size_list_to_set; [done|]. apply NoDup_remove_dups.
    + apply set_eq. intros x.
      by rewrite !elem_of_list_to_set, elem_of_remove_dups.
  - intros k m1 m2. unfold add_skipper, skip_count. cbn. do 2 f_equal.
    by rewrite (assoc_L (∪)), (idemp_L (∪)).
  - done.
Qed.
End SkipStateFacts.

Module RoundTripFacts.
Import Entry Serializer SerializerScenarios Encoder RoundTripScenarios
       WorldFacts FinishFacts SerializerFacts.

Lemma encode_scalar depth markers v (w : World) abspath :
  scalar v = true -> encode abspath depth markers v w = (w, Ok v).
Proof. by destruct v, depth. Qed.

Lemma assoc_meta k (m : list (string * Z)) :
  assoc k (map (fun kv => (kv.1, VInt kv.2)) m) = VInt <$> assoc k m.
Proof.
  induction m as [|[k' z] m IH]; [done|]. cbn.
  by destruct (String.eqb k' k).
Qed.

Lemma encode_meta abspath depth markers m (w : World) :
  encode abspath (S depth) markers (meta_dict m) w = (w, Ok (meta_dict m)).
Proof.
  unfold meta_dict. cbn [encode].
  erewrite bind_ok; [reflexivity|].
  apply map_in_order_id. apply Forall_forall. intros [k x] Hin.
  apply list_elem_of_In, in_map_iff in Hin as ([k' z] & [= <- <-] & _).
  intros w'. by destruct depth.
Qed.
Lemma scalar_plain v : scalar v = true -> plain v = true.
Proof. by destruct v. Qed.

Section Written.
Variable abspath : string -> string.

Lemma default_entry r e (w : World) :
  heap w !! r = Some e -> writable e = true ->
  default abspath (VRef r) w = (w, Ok (document abspath e)).
Proof.
  intros He Hw. unfold default, document, payload.
  rewrite (bind_ok (deref r) _ w w e) by (unfold deref; by rewrite He).
  destruct (class e); [|done].
  unfold URLPlaylistEntry_json, writable in *.
  destruct (filename e) as [| | |s| | | |]; try done;
    try (by rewrite !andb_false_r in Hw).
  cbn [truthy]. by destruct (negb (String.eqb s "")).
Qed.

Lemma encode_ref depth markers r (w : World) :
  r ∉ markers ->
  encode abspath (S depth) markers (VRef r) w
  = (o' <- default abspath (VRef r) ;;
     encode abspath depth (r :: markers) o') w.
Proof. intros Hm. cbn [encode]. by rewrite bool_decide_eq_false_2. Qed.

(** A dict whose members are written as they are. *)
Lemma encode_dict_id depth markers d (w : World) :
  Forall (fun kv => forall w', encode abspath depth markers kv.2 w'
                               = (w', Ok kv.2)) d ->
  encode abspath (S depth) markers (VDict d) w = (w, Ok (VDict d)).
Proof.
  intros Hall. cbn [encode]. erewrite bind_ok; [reflexivity|].
  apply map_in_order_id. eapply Forall_impl; [exact Hall|].
  intros [k x] Hx w'. cbn in Hx. by rewrite (bind_ok _ _ _ _ _ (Hx w')).
Qed.

Lemma encode_list depth markers l l' (w w' : World) :
  map_in_order (encode abspath depth markers) l w = (w', Ok l') ->
  encode abspath (S depth) markers (VList l) w = (w', Ok (VList l')).
Proof. intros H. cbn [encode]. by rewrite (bind_ok _ _ _ _ _ H). Qed.

(** Writing an entry does not change the world, and the document is
    the record of its class. *)
Lemma encode_entry depth markers r e (w : World) :
  heap w !! r = Some e -> writable e = true -> r ∉ markers ->
  encode abspath (4 + depth) markers (VRef r) w
  = (w, Ok (document abspath e)).
Proof.
  intros He Hw Hm. change (4 + depth) with (S (S (S (S depth)))).
  rewrite (encode_ref _ _ _ _ Hm).
  rewrite (bind_ok _ _ _ _ _ (default_entry r e w He Hw)).
  unfold writable in Hw.
  repeat (apply andb_prop in Hw as [Hw ?]).
  assert (Hfn : scalar (filename e) = true)
    by by destruct (filename e).
  unfold document, payload. destruct (class e); unfold record.
  - apply encode_dict_id.
    repeat constructor; cbn [snd]; intros w';
      try by apply encode_scalar.
    apply encode_dict_id.
    repeat constructor; cbn [snd]; intros w'';
      try (by apply encode_scalar); try apply encode_meta.
    apply encode_scalar. destruct (filename e); try done.
    by destruct (truthy (VStr s)).
  - apply encode_dict_id.
    repeat constructor; cbn [snd]; intros w';
      try by apply encode_scalar.
    apply encode_dict_id.
    repeat constructor; cbn [snd]; intros w'';
      try (by apply encode_scalar); try apply encode_meta.
Qed.
Section Reading.
Variable gv : string -> option Handle.
Variable le : string -> Located.
Variable ios : string -> option Z.

Lemma meta_of_meta_dict payload m :
  lookup_key payload "meta" = Some (meta_dict m) ->
  meta_of ios payload = Some (kept m).
Proof.
  intros Hm. unfold meta_of, meta_key_of, kept. rewrite Hm. cbn.
  rewrite !assoc_meta.
  destruct (assoc "channel" m), (assoc "author" m); by cbn.
Qed.

Lemma url_entry_of_payload keep e :
  gv "config" = Some (TheConfig keep) ->
  gv "downloader" = Some TheDownloader ->
  class e = URLPlaylistEntry ->
  url_entry_of gv ios (payload abspath e) = Some (restored keep e).
Proof.
  intros Hc Hd Hclass. unfold payload, restored. rewrite Hclass.
  unfold url_entry_of.
  rewrite (meta_of_meta_dict _ (meta e)) by done.
  rewrite Hc, Hd. cbn.
  destruct keep; cbn; [|done].
  by destruct (is_downloaded e).
Qed.

Lemma stream_entry_of_payload keep e :
  class e = StreamPlaylistEntry ->
  stream_entry_of ios (payload abspath e) = Some (restored keep e).
Proof.
  intros Hclass. unfold payload, restored. rewrite Hclass.
  unfold stream_entry_of.
  rewrite (meta_of_meta_dict _ (meta e)) by done.
  by cbn.
Qed.

Lemma plain_payload e : writable e = true -> plain (payload abspath e) = true.
Proof.
  unfold writable. intros Hw.
  repeat (apply andb_prop in Hw as [Hw ?]).
  assert (Hfn : plain (filename e) = true) by by destruct (filename e).
  unfold payload. destruct (class e); cbn -[meta_dict];
    rewrite ?(scalar_plain (url e)), ?(scalar_plain (title e)),
      ?(scalar_plain (duration e)), ?(scalar_plain (expected_filename e)),
      ?(scalar_plain (destination e)), ?Hfn, ?H by done;
    cbn; try done.
  destruct (filename e) as [| | |s| | | |]; try done.
  by destruct (negb (String.eqb s "")).
Qed.

(** Reading what was written for an entry builds the restored entry,
    as a new object. *)
Lemma loads_document keep e (w : World) :
  supplies gv keep -> writable e = true ->
  exists w',
    loads gv le ios (document abspath e) w
    = (w', Ok (VRef (length (heap w))))
    /\ heap w' = heap w ++ [restored keep e].
Proof.
  intros (Hs & Hc & Hd & Hl) Hw.
  assert (Hfate : fate gv le ios "musicbot.entry" (qualname (class e))
                       (payload abspath e)
                  = Rebuilt (restored keep e)).
  { unfold fate. destruct (class e) eqn:Hclass; cbn [qualname].
    - change (locateObj le (dotted "musicbot.entry" "URLPlaylistEntry"))
        with (SerializableClass (EntryClass URLPlaylistEntry)).
      by rewrite (url_entry_of_payload keep e Hc Hd Hclass).
    - change (locateObj le (dotted "musicbot.entry" "StreamPlaylistEntry"))
        with (SerializableClass (EntryClass StreamPlaylistEntry)).
      by rewrite (stream_entry_of_payload keep e Hclass). }
  destruct (loads_tolerated gv le ios Hs ltac:(by rewrite Hc)
                            ltac:(by rewrite Hd) Hl
                            "musicbot.entry" (qualname (class e))
                            (payload abspath e) w (plain_payload e Hw))
    as (w' & item & Hrun & Hitem).
  { by rewrite Hfate. }
  rewrite Hfate in Hitem. destruct Hitem as [-> Hheap].
  by exists w'.
Qed.
Lemma loads_documents keep es : forall (w : World),
  supplies gv keep -> Forall (fun e => writable e = true) es ->
  exists w',
    map_in_order (loads gv le ios) (map (document abspath) es) w
    = (w', Ok (map VRef (seq (length (heap w)) (length es))))
    /\ heap w' = heap w ++ map (restored keep) es.
Proof.
  induction es as [|e es IH]; intros w Hgv Hall.
  - exists w. cbn. by rewrite app_nil_r.
  - apply Forall_cons in Hall as [He Hall].
    destruct (loads_document keep e w Hgv He) as (w1 & Hrun & Hheap).
    destruct (IH w1 Hgv Hall) as (w' & Hrest & Hheap').
    exists w'. cbn [map map_in_order].
    rewrite (bind_ok _ _ _ _ _ Hrun), (bind_ok _ _ _ _ _ Hrest).
    rewrite Hheap', Hheap, length_app, <- app_assoc. cbn.
    by rewrite Nat.add_1_r.
Qed.

Lemma encode_entries depth rs es (w : World) :
  Forall2 (fun r e => heap w !! r = Some e /\ writable e = true) rs es ->
  map_in_order (encode abspath (4 + depth) []) (map VRef rs) w
  = (w, Ok (map (document abspath) es)).
Proof.
  induction 1 as [|r e rs es [He Hw] _ IH]; [done|].
  cbn [map map_in_order].
  rewrite (bind_ok _ _ _ _ _
             (encode_entry depth [] r e w He Hw (not_elem_of_nil r))).
  by rewrite (bind_ok _ _ _ _ _ IH).
Qed.

Lemma map_in_order_cons {A B} (f : A -> M World B) x xs y ys
      (w w1 w2 : World) :
  f x w = (w1, Ok y) -> map_in_order f xs w1 = (w2, Ok ys) ->
  map_in_order f (x :: xs) w = (w2, Ok (y :: ys)).
Proof.
  intros H1 H2. cbn [map_in_order].
  by rewrite (bind_ok _ _ _ _ _ H1), (bind_ok _ _ _ _ _ H2).
Qed.

Lemma encode_record depth markers m c payload payload' (w w' : World) :
  encode abspath depth markers payload w = (w', Ok payload') ->
  encode abspath (S depth) markers (record m c payload) w
  = (w', Ok (record m c payload')).
Proof.
  intros H. unfold record. cbn [encode].
  assert (Hs : forall s w0, encode abspath depth markers (VStr s) w0
                            = (w0, Ok (VStr s)))
    by (intros; by destruct depth).
  erewrite bind_ok; [reflexivity|].
  eapply map_in_order_cons; [by rewrite (bind_ok _ _ _ _ _ (Hs c w))|].
  eapply map_in_order_cons; [by rewrite (bind_ok _ _ _ _ _ (Hs m w))|].
  eapply map_in_order_cons; [by rewrite (bind_ok _ _ _ _ _ H)|].
  reflexivity.
Qed.

Lemma encode_dict_step depth markers d (w : World) :
  encode abspath (S depth) markers (VDict d) w
  = (d' <- map_in_order
             (fun kv => match kv with
                        | (k, x) =>
                            y <- encode abspath depth markers x ;;
                            ret (k, y)
                        end) d ;;
     ret (VDict d')) w.
Proof. done. Qed.

Lemma encode_entries_dict depth markers l l' (w w' : World) :
  map_in_order (encode abspath depth markers) l w = (w', Ok l') ->
  encode abspath (S (S depth)) markers (VDict [("entries", VList l)]) w
  = (w', Ok (VDict [("entries", VList l')])).
Proof.
  intros H. rewrite encode_dict_step.
  erewrite bind_ok; [reflexivity|].
  eapply map_in_order_cons; [|reflexivity].
  by rewrite (bind_ok _ _ _ _ _ (encode_list _ _ _ _ _ _ H)).
Qed.

Lemma encode_object depth markers items (w : World) :
  encode abspath (S depth) markers (VPlaylist items) w
  = (o' <- default abspath (VPlaylist items) ;;
     encode abspath depth markers o') w.
Proof. done. Qed.

Lemma encode_playlist depth rs es (w : World) :
  Forall2 (fun r e => heap w !! r = Some e /\ writable e = true) rs es ->
  encode abspath (8 + depth) [] (VPlaylist (map VRef rs)) w
  = (w, Ok (queue_record (map (document abspath) es))).
Proof.
  intros Hall. change (8 + depth) with (S (S (S (S (4 + depth))))).
  rewrite encode_object.
  rewrite (bind_ok (default abspath (VPlaylist (map VRef rs))) _ w w
             (record "musicbot.playlist" "Playlist"
                     (VDict [("entries", VList (map VRef rs))])) eq_refl).
  unfold queue_record. apply encode_record.
  apply encode_entries_dict. by apply encode_entries.
Qed.

(** X25. An entry that is written and read again comes back as a new
    object with the locator, the title, the duration and the expected
    file name it had, and the channel and the author of its [meta]; the
    world is not changed by the writing. What does not come back: the
    filter options, which are reset; every other key of [meta]; the
    file name of a URL entry, unless the entry was downloaded and the
    configuration saves the downloads; and the file name of a stream
    entry without a destination. *)
Theorem entry_comes_back_restored
        (keep : bool) (depth : nat) (r : EntryRef) (e : Entry)
        (w : World) :
  supplies gv keep ->
  heap w !! r = Some e ->
  writable e = true ->
  exists doc w',
    serialize abspath (4 + depth) (VRef r) w = (w, Ok doc)
    /\ loads gv le ios doc w = (w', Ok (VRef (length (heap w))))
    /\ heap w' = heap w ++ [restored keep e].
Proof.
  intros Hgv He Hw.
  destruct (loads_document keep e w Hgv Hw) as (w' & Hrun & Hheap).
  exists (document abspath e), w'. split; [|done].
  unfold serialize. by apply encode_entry; [..|apply not_elem_of_nil].
Qed.

(** X26. A queue that is written and read again comes back with as many
    entries, in the same order, each the restored copy of the entry
    that stood in its place, built as a new object; writing the queue
    changes nothing. *)
Theorem playlist_comes_back_in_order
        (keep : bool) (depth : nat) (es : list Entry) (w : World) :
  supplies gv keep ->
  Forall2 (fun r e => heap w !! r = Some e /\ writable e = true)
          (entries w) es ->
  exists doc w',
    serialize_playlist abspath (8 + depth) w = (w, Ok doc)
    /\ loads gv le ios doc w
       = (w', Ok (VPlaylist
                    (map VRef (seq (length (heap w)) (length es)))))
    /\ heap w' = heap w ++ map (restored keep) es.
Proof.
  intros Hgv Hall.
  assert (Hw : Forall (fun e => writable e = true) es).
  { clear -Hall. induction Hall as [|r e rs es [_ ?]]; by constructor. }
  destruct (loads_documents keep es w Hgv Hw) as (w' & Hrun & Hheap).
  exists (queue_record (map (document abspath) es)), w'.
  split; [|split; [|done]].
  - unfold serialize_playlist, serialize.
    rewrite (bind_ok get _ w w w eq_refl). by apply encode_playlist.
  - destruct Hgv as (Hs & Hc & Hd & Hl).
    apply (loads_queue_record gv le ios Hs ltac:(by rewrite Hc)
                              ltac:(by rewrite Hd) Hl).
    exact Hrun.
Qed.
End Reading.
End Written.

Lemma supplied_supplies keep : supplies (supplied keep) keep.
Proof. repeat split; by eexists. Qed.

Lemma entry_comes_back_restored_witness :
  exists doc w',
    serialize (fun s => s) 4 (VRef 0) PlaylistScenarios.queue_ab
    = (PlaylistScenarios.queue_ab, Ok doc)
    /\ loads (supplied true) nowhere no_int doc PlaylistScenarios.queue_ab
       = (w', Ok (VRef 2))
    /\ heap w' !! 2 = Some (PlaylistScenarios.url_entry "a" (VInt 1)).
Proof.
  destruct (entry_comes_back_restored
              (fun s => s) (supplied true) nowhere no_int true 0 0
              (PlaylistScenarios.url_entry "a" (VInt 1))
              PlaylistScenarios.queue_ab
              (supplied_supplies true) eq_refl eq_refl)
    as (doc & w' & H1 & H2 & H3).
  exists doc, w'. split; [exact H1|]. split; [exact H2|].
  by rewrite H3.
Defined.

Lemma playlist_comes_back_in_order_witness :
  exists doc w',
    serialize_playlist (fun s => s) 8 PlaylistScenarios.queue_ab
    = (PlaylistScenarios.queue_ab, Ok doc)
    /\ loads (supplied false) nowhere no_int doc PlaylistScenarios.queue_ab
       = (w', Ok (VPlaylist [VRef 2; VRef 3])).
Proof.
  destruct (playlist_comes_back_in_order
              (fun s => s) (supplied false) nowhere no_int false 0
              [PlaylistScenarios.url_entry "a" (VInt 1);
               PlaylistScenarios.url_entry "b" (VInt 2)]
              PlaylistScenarios.queue_ab
              (supplied_supplies false))
    as (doc & w' & H1 & H2 & _).
  - by repeat constructor.
  - by exists doc, w'.
Defined.

(** X27. The context is asked for before anything is read, outside the
    [try] of the decoders: when one of the four handles is not found, a
    record of an entry class or of the playlist class ends the decoding
    in [TypeError], the exception of [_bad], whatever its payload; it
    is not passed over as a payload that cannot be rebuilt is. *)
Theorem deserialize_without_context_raises
        (gv : string -> option Handle) (ios : string -> option Z)
        (name : string) (f : Factory) (data : Value) (w : World) :
  In name ["aiosession"; "config"; "downloader"; "loop"] ->
  gv name = None ->
  f <> Serializable -> f <> BasePlaylistEntry ->
  _deserialize gv ios f data w = (w, Raise TypeError).
Proof.
  intros Hin Hnone Hf1 Hf2.
  assert (Hreq : forall (k : Handle -> Handle -> Handle -> Handle
                              -> M World Value),
             (a <- require gv "aiosession" ;;
              c <- require gv "config" ;;
              d <- require gv "downloader" ;;
              l <- require gv "loop" ;;
              k a c d l) w = (w, Raise TypeError)).
  { intros k. unfold require, bind. cbn in Hin.
    destruct Hin as [<-|[<-|[<-|[<-|[]]]]]; rewrite ?Hnone; try done;
      repeat match goal with
             | |- context [gv ?n] =>
                 lazymatch n with
                 | _ => destruct (gv n) eqn:?; cbn; try done
                 end
             end; congruence. }
  destruct f as [| |[]|]; try done; cbn [_deserialize].
  - apply (Hreq (fun _ config downloader _ => _)).
  - apply (Hreq (fun _ _ _ _ => _)).
  - apply (Hreq (fun _ _ _ _ => _)).
Qed.

Lemma deserialize_without_context_raises_witness :
  _deserialize (fun _ => None) no_int (EntryClass URLPlaylistEntry)
               (url_payload "a") empty_world
  = (empty_world, Raise TypeError).
Proof.
  apply (deserialize_without_context_raises
           (fun _ => None) no_int "loop"); try done.
  cbn. tauto.
Defined.
End RoundTripFacts.

Module ReadOnlyFacts.
Import Entry Playlist.

Lemma durations_reads rs (w : World) : (durations rs w).1 = w.
Proof.
  induction rs as [|r rs IH]; [done|].
  cbn [durations]. unfold bind, deref.
  destruct (heap w !! r); [|done].
  destruct (durations rs w) as [w1 [ds|x]]; cbn in *; by subst.
Qed.

Lemma py_sum_reads vs : forall acc (w : World), (py_sum acc vs w).1 = w.
Proof.
  induction vs as [|v vs IH]; intros acc w; [done|].
  cbn [py_sum]. destruct (number v); [apply IH|done].
Qed.

(** X28. Estimating reads only: whatever the position and the player, and
    whether it returns or raises, [estimate_time_until] leaves the
    queue, the entries and everything else as they were. *)
Theorem estimate_time_until_reads_only
        (pos : Z) (player : Player) (w : World) :
  (estimate_time_until pos player w).1 = w.
Proof.
  unfold estimate_time_until, islice.
  destruct ((pos - 1 <? 0) || (maxsize <? pos - 1))%Z; [done|].
  unfold bind at 1. unfold bind at 1. unfold get, ret.
  unfold bind at 1.
  pose proof (durations_reads (take (Z.to_nat (pos - 1)) (entries w)) w)
    as Hd.
  destruct (durations _ w) as [w1 [ds|x]]; cbn in Hd; subst w1; [|done].
  destruct (existsb is_None ds); [done|].
  unfold bind at 1.
  pose proof (py_sum_reads ds 0%Z w) as Hs.
  destruct (py_sum 0 ds w) as [w1 [t|x]]; cbn in Hs; subst w1; [|done].
  unfold bind at 1.
  destruct (current_entry player) as [cur|].
  - destruct (negb (is_stopped player)).
    + unfold bind at 1. unfold deref.
      destruct (heap w !! cur) as [e|]; [|done].
      destruct (is_None (duration e)); [done|].
      destruct (number (duration e)); [|done].
      unfold ret. by destruct (timedelta _).
    + unfold ret. by destruct (timedelta _).
  - unfold ret. by destruct (timedelta _).
Qed.
End ReadOnlyFacts.
